(** * Game of Life: grid evolution and the RLE codec of GameOfLife.py

    A shallow embedding of the functions of [GameOfLife.py] that carry the
    algorithmic content (neighbour counting, the generation step, grid
    padding, boundary search, RLE reading and writing), followed by the
    theorems that relate them to the project's specification.

    Conventions.
    - A Python [int] is a [Z]; a Python [str] is a [list ascii].
    - A call that may raise returns a [result]; [try]/[except] is a [match]
      on it.
    - A two-dimensional numpy array is an [ndarray]: its rows and the second
      component of its [shape] (kept because an array without rows still has
      a column count).
    - Array objects live in a [store]; a Python variable holding an array is
      a location of that store. *)

From Stdlib Require Import ZArith Lia Ascii String.
From stdpp Require Import base tactics option list strings gmap.

Local Open Scope Z_scope.

(** ** Python values and control *)

Module Py.

Inductive exn : Set :=
| IndexError | ValueError | TypeError | UnboundLocalError | ReferenceError.

Inductive result (A : Type) : Type :=
| Ok (a : A)
| Raise (e : exn).
Arguments Ok {A} a.
Arguments Raise {A} e.

#[global] Instance result_ret : MRet result := @Ok.
#[global] Instance result_bind : MBind result :=
  λ A B f m, match m with Ok a => f a | Raise e => Raise e end.

(** [range(n)] and [range(a, b)]. *)
Definition range (n : Z) : list Z := Z.of_nat <$> seq 0 (Z.to_nat n).
Definition range2 (a b : Z) : list Z := (λ k, a + Z.of_nat k) <$> seq 0 (Z.to_nat (b - a)).

(** [l[i]] on a sequence of length [n]: indices [-n .. n-1] are valid, the
    negative ones counting from the end; anything else is an [IndexError]. *)
Definition norm_index (n : nat) (i : Z) : result nat :=
  let j := if i <? 0 then i + Z.of_nat n else i in
  if (0 <=? j) && (j <? Z.of_nat n) then Ok (Z.to_nat j) else Raise IndexError.

Definition getitem {A} (l : list A) (i : Z) : result A :=
  k ← norm_index (length l) i;
  match l !! k with
  | Some x => Ok x
  | None => Raise IndexError
  end.

(** [for x in l: s = body(x, s)] with a body that may raise. *)
Fixpoint for_fold {A S} (l : list A) (body : A → S → result S) (s : S) : result S :=
  match l with
  | [] => Ok s
  | x :: l' => s' ← body x s; for_fold l' body s'
  end.

(** [sum(l)] *)
Definition sum (l : list Z) : Z := foldl Z.add 0 l.

(** *** Numbers

    The program compares and subtracts integers and the floats [math.inf]
    and [-math.inf]; arithmetic that involves an infinity stays among the
    infinities and NaN. *)
Inductive num : Set := Int (z : Z) | Inf | NegInf | NaN.

Definition num_neg (a : num) : num :=
  match a with Int z => Int (- z) | Inf => NegInf | NegInf => Inf | NaN => NaN end.

Definition num_add (a b : num) : num :=
  match a, b with
  | Int x, Int y => Int (x + y)
  | NaN, _ | _, NaN => NaN
  | Inf, NegInf | NegInf, Inf => NaN
  | Inf, _ | _, Inf => Inf
  | NegInf, _ | _, NegInf => NegInf
  end.

Definition num_sub (a b : num) : num := num_add a (num_neg b).

(** [a < b]; a comparison with NaN is false. *)
Definition num_lt (a b : num) : bool :=
  match a, b with
  | Int x, Int y => x <? y
  | NaN, _ | _, NaN => false
  | _, NegInf | Inf, _ => false
  | NegInf, _ | _, Inf => true
  end.

Definition num_eq (a b : num) : bool :=
  match a, b with
  | Int x, Int y => x =? y
  | Inf, Inf | NegInf, NegInf => true
  | _, _ => false
  end.

(** [range(a, b)] refuses a float. *)
Definition range_num (a b : num) : result (list Z) :=
  match a, b with
  | Int x, Int y => Ok (range2 x y)
  | _, _ => Raise TypeError
  end.

(** *** Text *)

Definition txt (s : string) : list ascii := list_ascii_of_string s.

Definition digit_char (d : Z) : ascii := ascii_of_nat (48 + Z.to_nat d).

(** The decimal digits of [n >= 0], most significant first; [fuel] bounds
    their number. *)
Fixpoint digits (fuel : nat) (n : Z) : list ascii :=
  match fuel with
  | O => []
  | S fuel' =>
      (if n <? 10 then [] else digits fuel' (n / 10)) ++ [digit_char (n mod 10)]
  end.

(** [str(z)] *)
Definition str_int (z : Z) : list ascii :=
  if z <? 0 then "-"%char :: digits (S (Z.to_nat (Z.log2 (- z)))) (- z)
  else digits (S (Z.to_nat (Z.log2 z))) z.

Definition str (a : num) : list ascii :=
  match a with
  | Int z => str_int z
  | Inf => txt "inf"
  | NegInf => txt "-inf"
  | NaN => txt "nan"
  end.

(** White space of [str.strip] and [int] among the ASCII characters. *)
Definition is_space (c : ascii) : bool :=
  let n := nat_of_ascii c in
  ((9 <=? n) && (n <=? 13) || (28 <=? n) && (n <=? 32))%nat.

Definition is_digit (c : ascii) : bool :=
  let n := nat_of_ascii c in ((48 <=? n) && (n <=? 57))%nat.

Definition digit_val (c : ascii) : Z := Z.of_nat (nat_of_ascii c) - 48.

Fixpoint lstrip (s : list ascii) : list ascii :=
  match s with
  | c :: s' => if is_space c then lstrip s' else s
  | [] => []
  end.

(** [s.strip()] *)
Definition strip (s : list ascii) : list ascii :=
  reverse (lstrip (reverse (lstrip s))).

(** The digits of an integer literal: one or more digits, with single
    underscores allowed between two digits. [seen] tells that the previous
    character was a digit. *)
Fixpoint int_digits (s : list ascii) (acc : Z) (seen : bool) : option Z :=
  match s with
  | [] => if seen then Some acc else None
  | c :: s' =>
      if is_digit c then int_digits s' (10 * acc + digit_val c) true
      else if bool_decide (c = "_"%char) && seen then int_digits s' acc false
      else None
  end.

(** [int(s)] in base ten, on ASCII text. (The interpreter's optional limit
    on the number of digits of a literal, 4300 by default, is left out.) *)
Definition int (s : list ascii) : result Z :=
  let parsed :=
    match strip s with
    | c :: s' =>
        if bool_decide (c = "-"%char) then Z.opp <$> int_digits s' 0 false
        else if bool_decide (c = "+"%char) then int_digits s' 0 false
        else int_digits (c :: s') 0 false
    | [] => None
    end in
  match parsed with Some z => Ok z | None => Raise ValueError end.

(** The pieces of [s] between the characters that satisfy [sep]: there is
    one piece more than separators. *)
Fixpoint split_where (sep : ascii → bool) (s : list ascii) : list (list ascii) :=
  match s with
  | [] => [[]]
  | c :: s' =>
      if sep c then [] :: split_where sep s'
      else match split_where sep s' with
           | piece :: pieces => (c :: piece) :: pieces
           | [] => [[c]]
           end
  end.

(** [s.split(c)] *)
Definition split (c : ascii) (s : list ascii) : list (list ascii) :=
  split_where (λ c', bool_decide (c' = c)) s.

(** The lines a text file yields when iterated, each with its newline. *)
Fixpoint file_lines (s : list ascii) : list (list ascii) :=
  match s with
  | [] => []
  | c :: s' =>
      if bool_decide (c = "010"%char) then [c] :: file_lines s'
      else match file_lines s' with
           | line :: lines => (c :: line) :: lines
           | [] => [[c]]
           end
  end.

(** [itertools.groupby] on a string, each group with its length. *)
Fixpoint groupby (s : list ascii) : list (ascii * Z) :=
  match s with
  | [] => []
  | c :: s' =>
      match groupby s' with
      | (c', n) :: groups =>
          if bool_decide (c = c') then (c, n + 1) :: groups
          else (c, 1) :: (c', n) :: groups
      | [] => [(c, 1)]
      end
  end.

(** [for x in l: if stop(x): break]: the value of [x] afterwards, if the
    loop bound it at all. *)
Fixpoint for_break {A} (l : list A) (stop : A → bool) (x : option A) : option A :=
  match l with
  | [] => x
  | y :: l' => if stop y then Some y else for_break l' stop (Some y)
  end.

End Py.
Import Py.

(** ** numpy arrays of rank two *)

Record ndarray : Type := Array { ncols : nat; rows : list (list Z) }.

Definition shape0 (g : ndarray) : Z := Z.of_nat (length (rows g)).
Definition shape1 (g : ndarray) : Z := Z.of_nat (ncols g).

(** Every row has the width the shape announces. *)
Definition rectangular (g : ndarray) : Prop :=
  Forall (λ row, length row = ncols g) (rows g).

(** Every cell is dead (0) or alive (1). *)
Definition binary (g : ndarray) : Prop :=
  Forall (Forall (λ v, v = 0 ∨ v = 1)) (rows g).

Definition well_formed (g : ndarray) : Prop := rectangular g ∧ binary g.

#[global] Instance rectangular_dec g : Decision (rectangular g).
Proof. unfold rectangular. apply _. Defined.
#[global] Instance binary_dec g : Decision (binary g).
Proof. unfold binary. apply _. Defined.
#[global] Instance well_formed_dec g : Decision (well_formed g).
Proof. unfold well_formed. apply _. Defined.

(** [g[r][c]] *)
Definition getitem2 (g : ndarray) (r c : Z) : result Z :=
  row ← getitem (rows g) r; getitem row c.

(** The value stored at an in-range position, 0 elsewhere; used in
    statements only. *)
Definition cell (g : ndarray) (r c : Z) : Z :=
  if (r <? 0) || (c <? 0) then 0
  else default 0 (rows g !! Z.to_nat r ≫= (.!! Z.to_nat c)).

Definition in_bounds (g : ndarray) (r c : Z) : bool :=
  (0 <=? r) && (r <? shape0 g) && (0 <=? c) && (c <? shape1 g).

(** ** Neighbour counting *)

Definition checkArray (g : ndarray) (r c : Z) : result Z :=
  let r := if r <? 0 then shape0 g + 1 else r in
  let c := if c <? 0 then shape1 g + 1 else c in
  match getitem2 g r c with
  | Ok nVal => Ok nVal
  | Raise IndexError => Ok 0
  | Raise e => Raise e
  end.

Definition findNeighbors (g : ndarray) (r c : Z) : result Z :=
  n1 ← checkArray g (r - 1) (c - 1);
  n2 ← checkArray g (r - 1) c;
  n3 ← checkArray g (r - 1) (c + 1);
  n4 ← checkArray g (r + 1) (c - 1);
  n5 ← checkArray g (r + 1) c;
  n6 ← checkArray g (r + 1) (c + 1);
  n7 ← checkArray g r (c - 1);
  n8 ← checkArray g r (c + 1);
  mret (n1 + n2 + n3 + n4 + n5 + n6 + n7 + n8).

(** The eight positions of the Moore neighbourhood of [(r, c)]. *)
Definition moore (r c : Z) : list (Z * Z) :=
  [ (r - 1, c - 1); (r - 1, c); (r - 1, c + 1);
    (r + 1, c - 1); (r + 1, c); (r + 1, c + 1);
    (r, c - 1); (r, c + 1) ].

Definition live_inside (g : ndarray) (p : Z * Z) : bool :=
  in_bounds g p.1 p.2 && (cell g p.1 p.2 =? 1).

(** The number of live cells among the neighbours that lie inside the grid. *)
Definition live_neighbours (g : ndarray) (r c : Z) : Z :=
  Z.of_nat (length (filter (λ p, live_inside g p) (moore r c))).

(** ** The object store

    Arrays are mutable objects: a variable holds a reference, and two
    variables may hold the same one. [M] threads the store through a
    computation that may raise. *)

Definition loc := positive.
Abbreviation store := (gmap loc ndarray).

Definition M (A : Type) : Type := store → result (A * store).

#[global] Instance M_ret : MRet M := λ A a σ, Ok (a, σ).
#[global] Instance M_bind : MBind M :=
  λ A B f m σ, match m σ with Ok (a, σ') => f a σ' | Raise e => Raise e end.

(** A computation that does not touch the store. *)
Definition lift {A} (r : result A) : M A :=
  λ σ, match r with Ok a => Ok (a, σ) | Raise e => Raise e end.

(** [for x in l: body] *)
Fixpoint for_ {A} (l : list A) (body : A → M unit) : M unit :=
  match l with
  | [] => mret ()
  | x :: l' => body x;; for_ l' body
  end.

(** The array a reference denotes. *)
Definition deref (l : loc) : M ndarray :=
  λ σ, match σ !! l with Some g => Ok (g, σ) | None => Raise ReferenceError end.

(** [a.copy()]: a new object with the same contents. *)
Definition np_copy (a : loc) : M loc :=
  λ σ, match σ !! a with
       | Some g => let l := fresh (dom σ) in Ok (l, <[l := g]> σ)
       | None => Raise ReferenceError
       end.

(** [a[i][j] = v]: [a[i]] is a view of row [i], written at [j]. *)
Definition setitem2 (a : loc) (i j : Z) (v : Z) : M unit :=
  λ σ, match σ !! a with
       | Some g =>
           match (ri ← norm_index (length (rows g)) i;
                  row ← getitem (rows g) i;
                  cj ← norm_index (length row) j;
                  mret (ri, cj, row)) with
           | Ok (ri, cj, row) =>
               Ok ((), <[a := Array (ncols g) (<[ri := <[cj := v]> row]> (rows g))]> σ)
           | Raise e => Raise e
           end
       | None => Raise ReferenceError
       end.

(** [dst[:] = src[:]] for arrays of one shape: the values of [src] are
    written into the object [dst]. (Shapes that differ would be broadcast or
    rejected by numpy; the program only assigns a copy to its original, and
    the model raises [ValueError] otherwise.) *)
Definition assign_all (dst src : loc) : M unit :=
  λ σ, match σ !! dst, σ !! src with
       | Some d, Some s =>
           if decide (length (rows d) = length (rows s) ∧ ncols d = ncols s)
           then Ok ((), <[dst := Array (ncols d) (rows s)]> σ)
           else Raise ValueError
       | _, _ => Raise ReferenceError
       end.

(** ** One generation *)

Definition updateGrid (grid : loc) : M loc :=
  nextGrid ← np_copy grid;
  g ← deref grid;
  for_ (range (shape0 g)) (λ i,
    g ← deref grid;
    for_ (range (shape1 g)) (λ j,
      g ← deref grid;
      nAlive ← lift (findNeighbors g i j);
      cur ← lift (getitem2 g i j);
      let nextState :=
        if cur =? 1 then
          if (nAlive <? 2) || (nAlive >? 3) then 0 else 1
        else
          if nAlive =? 3 then 1 else 0 in
      setitem2 nextGrid i j nextState));;
  assign_all grid nextGrid;;
  mret grid.

(** ** Padding

    [np.append] and the list comprehensions build new arrays and leave their
    arguments alone, so [addSpace] is a function on array values. *)

(** [np.append(a, b, axis = 0)]: the rows of [b] below those of [a]. *)
Definition np_append0 (a b : ndarray) : result ndarray :=
  if decide (ncols a = ncols b)
  then Ok (Array (ncols a) (rows a ++ rows b))
  else Raise ValueError.

(** [np.append(a, b, axis = 1)]: the columns of [b] right of those of [a]. *)
Definition np_append1 (a b : ndarray) : result ndarray :=
  if decide (length (rows a) = length (rows b))
  then Ok (Array (ncols a + ncols b) (zip_with app (rows a) (rows b)))
  else Raise ValueError.

(** [[l]] seen as an array of one row. *)
Definition row_vector (l : list Z) : ndarray := Array (length l) [l].

(** [np.array(l)[:,None]]: an array of one column. *)
Definition column_vector (l : list Z) : ndarray := Array 1 ((λ v, [v]) <$> l).

Definition addSpace (grid : ndarray) (extraSpace : Z) : result ndarray :=
  for_fold (range extraSpace) (λ _ expandedGrid,
    expandedGrid ← np_append0 expandedGrid
      (row_vector ((λ _, 0) <$> range (shape1 expandedGrid)));
    expandedGrid ← np_append0
      (row_vector ((λ _, 0) <$> range (shape1 expandedGrid)))
      expandedGrid;
    expandedGrid ← np_append1 expandedGrid
      (column_vector ((λ _, 0) <$> range (shape0 expandedGrid)));
    np_append1
      (column_vector ((λ _, 0) <$> range (shape0 expandedGrid)))
      expandedGrid) grid.

(** One ring of dead cells around a grid. *)
Definition ringed (g : ndarray) : ndarray :=
  Array (1 + (ncols g + 1))
    ((λ row, 0 :: row ++ [0])
       <$> (replicate (ncols g) 0 :: rows g ++ [replicate (ncols g) 0])).

(** ** The display grid of [createAnimation]

    The part of [createAnimation] that prepares the grid to evolve; the rest
    of the function prompts, draws and saves. [ring_count] is the second
    argument of its call of [addSpace], when it makes one. *)

Definition ring_count (inGrid : ndarray) (gridSize : Z) : option Z :=
  if (shape0 inGrid <? gridSize) || (shape1 inGrid <? gridSize)
  then Some (Z.max (Z.abs (gridSize - shape0 inGrid))
                   (Z.abs (gridSize - shape1 inGrid)))
  else None.

Definition createAnimation_grid (inGrid : ndarray) (gridSize : Z) : result ndarray :=
  match ring_count inGrid gridSize with
  | Some extraSpace => addSpace inGrid extraSpace
  | None => Ok inGrid
  end.

(** ** Boundaries of the live cells *)

(** [grid[row]] and [grid[row][col]] at indices a [range] over the shape
    supplies, where the lookup cannot fail. *)
Definition row_at (grid : ndarray) (row : Z) : list Z :=
  default [] (rows grid !! Z.to_nat row).
Definition cell_at (grid : ndarray) (row col : Z) : Z :=
  default 0 (row_at grid row !! Z.to_nat col).

(** The inner loop over the columns of one row. *)
Definition scan_row (grid : ndarray) (row : Z) (minmax : num * num) : num * num :=
  foldl (λ '(minCol, maxCol) col,
           if cell_at grid row col =? 1 then
             if num_lt (Int col) minCol then (Int col, maxCol)
             else if num_lt maxCol (Int col) then (minCol, Int col)
             else (minCol, maxCol)
           else (minCol, maxCol))
        minmax (range (shape1 grid)).

(** The loop over the rows, left early once the box spans the width. *)
Fixpoint scan_rows (grid : ndarray) (rs : list Z) (minmax : num * num) : num * num :=
  match rs with
  | [] => minmax
  | row :: rs' =>
      let '(minCol, maxCol) := scan_row grid row minmax in
      if num_eq minCol (Int 0) && num_eq maxCol (Int (shape1 grid - 1))
      then (minCol, maxCol)
      else scan_rows grid rs' (minCol, maxCol)
  end.

Definition findBoundaries (grid : ndarray) : result (Z * Z * num * num) :=
  let top := for_break (range (shape0 grid))
               (λ top, Py.sum (row_at grid top) >? 0) None in
  let bot := for_break (reverse (range (shape0 grid)))
               (λ bot, Py.sum (row_at grid bot) >? 0) None in
  match top, bot with
  | Some top, Some bot =>
      let '(minCol, maxCol) :=
        scan_rows grid (range2 top (bot + 1)) (Inf, NegInf) in
      Ok (top, bot, minCol, maxCol)
  | _, _ => Raise UnboundLocalError
  end.

(** ** Writing RLE *)

Definition encodeGrid (grid : ndarray) (top bot : Z) (minCol maxCol : num)
  : result (list (ascii * Z)) :=
  for_fold (range2 top (bot + 1)) (λ row encodedStrings,
    cols ← range_num minCol (num_add maxCol (Int 1));
    rowString ← for_fold cols (λ col rowString,
      cell ← getitem2 grid row col;
      mret (rowString ++ [if cell =? 1 then "o"%char else "b"%char])) [];
    let groups := groupby rowString in
    let encodedStrings := encodedStrings ++ groups in
    if negb (row =? bot)
    then mret (encodedStrings ++ [("$"%char, 1)])
    else mret (encodedStrings ++ [("!"%char, 1)])) [].

(** The [while] loop of [writeRLE]. [f] is the text written to the file so
    far. The result is the text in the file when the loop ends, with [Ok] if
    it ended by itself and the exception if one was raised; [None] if [fuel]
    turns of the loop were not enough. *)
Fixpoint writeRLE_loop (fuel : nat) (RLEgroups : list (ascii * Z)) (pos : Z)
    (individualLine f : list ascii) : option (list ascii * result ()) :=
  match fuel with
  | O => None
  | S fuel' =>
      let len := Z.of_nat (length RLEgroups) in
      match (if pos =? len - 2
             then group ← getitem RLEgroups pos;
                  mret (bool_decide (group.1 = "b"%char))
             else mret false) with
      | Raise e => Some (f, Raise e)
      | Ok true => writeRLE_loop fuel' RLEgroups (pos + 1) individualLine f
      | Ok false =>
          match getitem RLEgroups pos with
          | Raise e => Some (f, Raise e)
          | Ok (tag, count) =>
              let '(individualLine, f) :=
                if count =? 1 then
                  if 1 + Z.of_nat (length individualLine) >? 70
                  then ([tag], f ++ (individualLine ++ ["010"%char]))
                  else (individualLine ++ [tag], f)
                else
                  if Z.of_nat (length (str_int count))
                     + Z.of_nat (length individualLine) + 1 >? 70
                  then (str_int count ++ [tag],
                        f ++ (individualLine ++ ["010"%char]))
                  else (individualLine ++ (str_int count ++ [tag]), f) in
              if pos =? len - 1
              then Some (f ++ individualLine, Ok ())
              else writeRLE_loop fuel' RLEgroups (pos + 1) individualLine f
          end
      end
  end.

(** [writeRLE], with the file it writes as its result (choosing the file
    name and the final message are left out). *)
Definition writeRLE (grid : ndarray) : option (list ascii * result ()) :=
  match findBoundaries grid with
  | Raise e => Some ([], Raise e)
  | Ok (top, bot, minCol, maxCol) =>
      let f := txt "x = " ++ str (num_add (num_sub maxCol minCol) (Int 1))
               ++ txt ", y = " ++ str_int (bot - top + 1) ++ ["010"%char] in
      match encodeGrid grid top bot minCol maxCol with
      | Raise e => Some (f, Raise e)
      | Ok RLEgroups =>
          writeRLE_loop (S (length RLEgroups)) RLEgroups 0 [] f
      end
  end.

(** ** Reading RLE *)

Definition is_tag (c : ascii) : bool :=
  bool_decide (c = "b"%char) || bool_decide (c = "o"%char).

(** The loop over the lines of the file: the body text gathered, and the
    header values if a header was met. *)
Fixpoint parseRLE_lines (content : list (list ascii)) (RLEstring : list ascii)
    (xvalue yvalue : option Z) : result (list ascii * option Z * option Z) :=
  match content with
  | [] => Ok (RLEstring, xvalue, yvalue)
  | line :: content' =>
      match getitem line 0 with
      | Raise e => Raise e
      | Ok first =>
          if bool_decide (first = "#"%char)
          then parseRLE_lines content' RLEstring xvalue yvalue
          else
            match (if bool_decide (first = "x"%char) then
                     let chunks := split ","%char line in
                     c0 ← getitem chunks 0;
                     v0 ← getitem (split "="%char (strip c0)) 1;
                     x ← int v0;
                     c1 ← getitem chunks 1;
                     v1 ← getitem (split "="%char (strip c1)) 1;
                     y ← int v1;
                     mret (RLEstring, Some x, Some y)
                   else mret (RLEstring ++ line, xvalue, yvalue)) with
            | Raise e => Raise e
            | Ok (RLEstring, xvalue, yvalue) =>
                match getitem line (-1) with
                | Raise e => Raise e
                | Ok final =>
                    if bool_decide (final = "!"%char)
                    then Ok (removelast RLEstring, xvalue, yvalue)
                    else parseRLE_lines content' RLEstring xvalue yvalue
                end
            end
      end
  end.

(** The cells one piece of the body between two [$] stands for; [xvalue] is
    the width the header gave, if there was a header. *)
Definition parseRLE_row (xvalue : option Z) (chunk : list ascii) : result (list Z) :=
  let RLEtags := filter (λ c, is_tag c) chunk in
  let tagCounts := split_where is_tag chunk in
  gridLine ← for_fold (range (Z.of_nat (length RLEtags))) (λ i gridLine,
    curTag ← getitem RLEtags i;
    text ← getitem tagCounts i;
    curCt ← match int text with
            | Ok n => Ok n
            | Raise ValueError => Ok 1
            | Raise e => Raise e
            end;
    if bool_decide (curTag = "b"%char)
    then mret (gridLine ++ ((λ _, 0) <$> range curCt))
    else mret (gridLine ++ ((λ _, 1) <$> range curCt))) [];
  match xvalue with
  | None => Raise UnboundLocalError
  | Some xvalue =>
      if negb (Z.of_nat (length gridLine) =? xvalue)
      then mret (gridLine ++
                 ((λ _, 0) <$> range (xvalue - Z.of_nat (length gridLine))))
      else mret gridLine
  end.

(** [np.array] of a list of rows. Rows of different lengths are refused
    (numpy 1.24 and later; earlier versions built an array of row objects
    with a deprecation warning). *)
Definition np_array (grid : list (list Z)) : result ndarray :=
  match grid with
  | [] => Ok (Array 0 [])
  | row :: _ =>
      if forallb (λ r, (length r =? length row)%nat) grid
      then Ok (Array (length row) grid)
      else Raise ValueError
  end.

(** [parseRLE] on the text of the file, as reading in text mode yields it:
    every line end is a newline character. *)
Definition parseRLE (file : list ascii) : result ndarray :=
  let content := strip <$> file_lines file in
  '(RLEstring, xvalue, yvalue) ← parseRLE_lines content [] None None;
  grid ← for_fold (split "$"%char RLEstring) (λ chunk grid,
    gridLine ← parseRLE_row xvalue chunk;
    mret (grid ++ [gridLine])) [];
  np_array grid.

(** ** The layout of the written body

    What the loop of [writeRLE] does, told without positions: the groups it
    writes, the text of each, and how the texts fill the lines. *)

(** The text the loop writes for a group. *)
Definition token_text (group : ascii * Z) : list ascii :=
  if group.2 =? 1 then [group.1] else str_int group.2 ++ [group.1].

(** The groups the loop writes: all of them, except a run of dead cells at
    the last position but one. *)
Fixpoint emitted (groups : list (ascii * Z)) : list (ascii * Z) :=
  match groups with
  | [] => []
  | g :: groups' =>
      match groups' with
      | [_] => if bool_decide (g.1 = "b"%char) then groups' else g :: groups'
      | _ => g :: emitted groups'
      end
  end.

(** The file after the tokens [toks] are placed, from a current line [line]
    and a file [f]. *)
Fixpoint wrap (toks : list (list ascii)) (line f : list ascii) : list ascii :=
  match toks with
  | [] => f ++ line
  | t :: toks' =>
      if Z.of_nat (length t) + Z.of_nat (length line) >? 70
      then wrap toks' t (f ++ (line ++ ["010"%char]))
      else wrap toks' (line ++ t) f
  end.

(** The same by lines, each a list of whole tokens; [cur] holds the tokens
    of the current line. *)
Fixpoint fill (toks : list (list ascii)) (cur : list (list ascii))
  : list (list (list ascii)) :=
  match toks with
  | [] => [cur]
  | t :: toks' =>
      if Z.of_nat (length t) + Z.of_nat (length (concat cur)) >? 70
      then cur :: fill toks' [t]
      else fill toks' (cur ++ [t])
  end.

(** [sep.join(pieces)]; lines are put together with a newline between two
    of them, the rows of a body with a [$]. *)
Fixpoint join_with (sep : ascii) (pieces : list (list ascii)) : list ascii :=
  match pieces with
  | [] => []
  | [l] => l
  | l :: pieces' => l ++ sep :: join_with sep pieces'
  end.

Abbreviation join_lines := (join_with "010"%char).

(** ** RLE documents

    The texts [parseRLE] is studied on: a header line and body lines. *)

Definition header_line (x y : Z) : list ascii :=
  txt "x = " ++ str_int x ++ txt ", y = " ++ str_int y.

Definition document (x y : Z) (body : list (list ascii)) : list ascii :=
  join_lines (header_line x y :: body).

(** A line without white space that is not empty. *)
Definition solid (line : list ascii) : Prop :=
  line ≠ [] ∧ Forall (λ c, is_space c = false) line.

(** A run as it stands in a row of the body: the text before a tag, and the
    tag. *)
Definition run_text (run : list ascii * ascii) : list ascii := run.1 ++ [run.2].

(** The count [parseRLE] gives a run: the integer its text denotes, and 1
    when the text denotes none. *)
Definition run_count (text : list ascii) : Z :=
  match int text with Ok n => n | Raise _ => 1 end.

Definition cells_of_run (run : list ascii * ascii) : list Z :=
  replicate (Z.to_nat (run_count run.1))
    (if bool_decide (run.2 = "b"%char) then 0 else 1).

(** A row filled with dead cells up to the width [x]. *)
Definition pad_row (x : Z) (row : list Z) : list Z :=
  row ++ replicate (Z.to_nat (x - Z.of_nat (length row))) 0.

Definition no_newline (s : list ascii) : Prop := "010"%char ∉ s.

(** A line that neither starts nor ends with white space and holds no
    newline: what [strip] returns it as it is. *)
Definition trimmed (line : list ascii) : Prop :=
  no_newline line
  ∧ (∃ c, head line = Some c ∧ is_space c = false)
  ∧ (∀ d, last line = Some d → is_space d = false).

(** A line of the body: it starts neither a comment nor a header. *)
Definition body_line (line : list ascii) : Prop :=
  ∃ c, head line = Some c ∧ c ≠ "#"%char ∧ c ≠ "x"%char.

(** The characters of the text of an integer. *)
Definition numeric (c : ascii) : Prop := is_digit c = true ∨ c = "-"%char.

(** The text of a row seen as runs: its tags, and the texts before them. *)
Definition runs_wf (runs : list (list ascii * ascii)) : Prop :=
  Forall (λ r : list ascii * ascii,
            Forall (λ c, is_tag c = false) r.1 ∧ is_tag r.2 = true) runs.

(** A character that may stand between two tags of a row: no tag, no [$],
    no white space. *)
Definition plain (c : ascii) : Prop :=
  is_tag c = false ∧ c ≠ "$"%char ∧ is_space c = false.







(** The cells of the runs of a row given with their counts. *)
Definition expand (runs : list (ascii * Z)) : list Z :=
  concat ((λ g : ascii * Z,
             replicate (Z.to_nat g.2)
               (if bool_decide (g.1 = "b"%char) then 0 else 1)) <$> runs).

(** The text of a run with its count, split as [parseRLE] reads it. *)
Definition counted_run (g : ascii * Z) : list ascii * ascii :=
  (if g.2 =? 1 then [] else str_int g.2, g.1).

(** ** Sample grids *)

(** Three live cells in a row, in a grid of three rows and three columns. *)
Definition blinker : ndarray := Array 3 [[0; 0; 0]; [1; 1; 1]; [0; 0; 0]].

(** A store in which the reference 1 holds the blinker. *)
Definition blinker_store : store := {[1%positive := blinker]}.

(** A live cell in the corner with two live neighbours. *)
Definition corner : ndarray := Array 2 [[1; 1]; [1; 0]].

(** Two rows of 80 cells whose runs fill more than one line of 70. *)
Definition wide : ndarray :=
  Array 80 [ mjoin (replicate 40 [1; 0]); mjoin (replicate 20 [1; 1; 0; 1]) ].

(** The grid of [rows] rows and [cols] columns without a live cell. *)
Definition dead_grid (rows cols : nat) : ndarray :=
  Array cols (replicate rows (replicate cols 0)).

(** Two live cells on the diagonal that falls to the left. *)
Definition falling : ndarray := Array 2 [[0; 1]; [1; 0]].

(** Two live cells side by side. *)
Definition pair : ndarray := Array 3 [[0; 0; 0]; [0; 1; 1]; [0; 0; 0]].

(** Stores in which the reference 1 holds the pair, and the blinker with a
    ring of dead cells around it. *)
Definition pair_store : store := {[1%positive := pair]}.
Definition ringed_blinker_store : store := {[1%positive := ringed blinker]}.

(** The columns [findBoundaries] can return: the starting value or a column
    of the grid. *)
Definition column_or (start : num) (g : ndarray) (v : num) : Prop :=
  v = start ∨ ∃ a, v = Int a ∧ 0 ≤ a < shape1 g.

(** The groups [encodeGrid] returns: runs of live or dead cells no longer
    than a row of the box, and the two terminators. *)
Definition group_within (w : Z) (g : ascii * Z) : Prop :=
  g.1 ∈ ["o"; "b"; "$"; "!"]%char ∧ 1 ≤ g.2 ≤ Z.max 1 w.

(** ** The box of a grid

    Used to state what [writeRLE] and [parseRLE] do to the bounding box. *)

(** The grid cut to rows [top .. bot] and columns [a .. b]. *)
Definition crop (g : ndarray) (top bot a b : Z) : ndarray :=
  Array (Z.to_nat (b - a + 1))
    ((λ row, (λ col, cell g row col) <$> range2 a (b + 1))
       <$> range2 top (bot + 1)).

(** The string [encodeGrid] builds for a row, and the groups it adds. *)
Definition row_string (g : ndarray) (a b row : Z) : list ascii :=
  (λ col, if cell g row col =? 1 then "o"%char else "b"%char)
    <$> range2 a (b + 1).

Definition row_groups (g : ndarray) (a b bot row : Z) : list (ascii * Z) :=
  groupby (row_string g a b row)
  ++ [(if negb (row =? bot) then "$"%char else "!"%char, 1)].

(** The pairs [(minCol, maxCol)] the scan of [findBoundaries] goes through,
    in a grid of [w] columns. *)
Definition box_columns (w : Z) (minmax : num * num) : Prop :=
  match minmax with
  | (Inf, NegInf) => True
  | (Int a, NegInf) => 0 ≤ a < w
  | (Int a, Int b) => 0 ≤ a ≤ b ∧ b < w
  | _ => False
  end.

(** A token of the body other than the final [!]: not empty, and made of
    digits, tags and [$]. *)
Definition body_token (t : list ascii) : Prop :=
  t ≠ [] ∧ Forall (λ c, numeric c ∨ c ∈ ["b"; "o"; "$"]%char) t.

(** The runs of a row without a last run of dead cells. *)
Definition without_dead_end (runs : list (ascii * Z)) : list (ascii * Z) :=
  match last runs with
  | Some g => if bool_decide (g.1 = "b"%char) then removelast runs else runs
  | None => runs
  end.

(** The runs of a row that can be written: live or dead cells, a count that
    fits a machine word, [w] cells in all. *)
Definition row_runs (w : nat) (runs : list (ascii * Z)) : Prop :=
  Forall (λ g : ascii * Z, is_tag g.1 = true ∧ 1 ≤ g.2 < 2 ^ 63) runs
  ∧ length (expand runs) = w.

(** The groups of a body: the runs of each row followed by [$], and [!]
    after those of the last row. *)
Definition body_groups (rows : list (list (ascii * Z)))
    (final : list (ascii * Z)) : list (ascii * Z) :=
  concat ((λ runs, runs ++ [("$"%char, 1)]) <$> rows)
  ++ final ++ [("!"%char, 1)].

(** ** Live rows and columns

    Used to state what [findBoundaries] gets right. *)

Definition live_at (g : ndarray) (r c : Z) : Prop :=
  in_bounds g r c = true ∧ cell g r c = 1.

Definition live_row (g : ndarray) (r : Z) : Prop := ∃ c, live_at g r c.

(** The smallest column seen so far, on the cells [seen]. *)
Definition smallest_column (g : ndarray) (seen : Z → Z → Prop) (minCol : num)
  : Prop :=
  match minCol with
  | Inf => ∀ r c, seen r c → cell_at g r c ≠ 1
  | Int m =>
      (∃ r, seen r m ∧ cell_at g r m = 1)
      ∧ ∀ r c, seen r c → cell_at g r c = 1 → m ≤ c
  | _ => False
  end.

(** ** The generation step as a function on grids

    Used to state what [updateGrid] leaves in the store. *)

Definition next_cell (g : ndarray) (r c : Z) : Z :=
  let n := live_neighbours g r c in
  if cell g r c =? 1 then
    if (n <? 2) || (n >? 3) then 0 else 1
  else
    if n =? 3 then 1 else 0.

(** The copy while the loops run: the cells before [(i, k)] in row-major
    order hold their next state, the others still their old one. *)
Definition visited (i k r c : nat) : Prop := (r < i ∨ (r = i ∧ c < k))%nat.

Definition partially_updated (g : ndarray) (i k : nat) : ndarray :=
  Array (ncols g)
    (imap (λ r row,
       imap (λ c v, if decide (visited i k r c)
                    then next_cell g (Z.of_nat r) (Z.of_nat c) else v) row)
       (rows g)).

Definition generation (g : ndarray) : ndarray :=
  Array (ncols g)
    (imap (λ r row, imap (λ c _, next_cell g (Z.of_nat r) (Z.of_nat c)) row)
       (rows g)).

(** ** File names

    [unique_file] asks the file system whether a path exists; [exists_] is
    that answer for every path, as it stands while the function runs. *)

(** The [while] loop of [unique_file]; [c] is the next value of the
    counter. [None] if [fuel] turns were not enough. *)
Fixpoint unique_file_loop (exists_ : list ascii → bool) (fuel : nat)
    (basename ext : list ascii) (c : Z) (actualname : list ascii)
  : option (list ascii) :=
  match fuel with
  | O => None
  | S fuel' =>
      if exists_ actualname
      then unique_file_loop exists_ fuel' basename ext (c + 1)
             (basename ++ "_"%char :: str_int c ++ "."%char :: ext)
      else Some actualname
  end.

Definition unique_file (exists_ : list ascii → bool) (fuel : nat)
    (basename ext : list ascii) : option (list ascii) :=
  unique_file_loop exists_ fuel basename ext 0 (basename ++ "."%char :: ext).

(** The names [unique_file] tries, in the order it tries them. *)
Definition candidate (basename ext : list ascii) (i : nat) : list ascii :=
  match i with
  | O => basename ++ "."%char :: ext
  | S k => basename ++ "_"%char :: str_int (Z.of_nat k) ++ "."%char :: ext
  end.

(** ** The grids [createAnimation] shows

    The array side of [createAnimation]: the grid it prepares, the calls of
    [updateGrid] and the grids handed to [imshow], each as it is at the
    call. Prompting, the figure, its annotations and the saved file are
    left out. *)

(** A new array object, as [np.append] returns one. *)
Definition np_new (g : ndarray) : M loc :=
  λ σ, let l := fresh (dom σ) in Ok (l, <[l := g]> σ).

(** [for x in l: s = body(x, s)] with a body that works on the store. *)
Fixpoint for_foldM {A S} (l : list A) (body : A → S → M S) (s : S) : M S :=
  match l with
  | [] => mret s
  | x :: l' => s' ← body x s; for_foldM l' body s'
  end.

Definition createAnimation_frames (inGrid : loc) (gridSize generations : Z)
  : M (list ndarray) :=
  g ← deref inGrid;
  grid ← (if (shape0 g <? gridSize) || (shape1 g <? gridSize)
          then expanded ← lift (addSpace g
                 (Z.max (Z.abs (gridSize - shape0 g))
                        (Z.abs (gridSize - shape1 g))));
               np_new expanded
          else np_copy inGrid);
  shown ← deref grid;
  for_foldM (range generations) (λ _ frames,
    updated ← updateGrid grid;
    shown ← deref updated;
    mret (frames ++ [shown])) [shown].

(** ** Reading order

    Used to state when [findBoundaries] finds the largest column. *)

(** One turn of the inner loop of [findBoundaries], at the cell
    [(row, col)]. *)
Definition scan_cell (grid : ndarray) (row : Z) (minmax : num * num) (col : Z)
  : num * num :=
  let '(minCol, maxCol) := minmax in
  if cell_at grid row col =? 1 then
    if num_lt (Int col) minCol then (Int col, maxCol)
    else if num_lt maxCol (Int col) then (minCol, Int col)
    else (minCol, maxCol)
  else (minCol, maxCol).

(** The cell [(r', c')] is read before [(r, c)]. *)
Definition before (r' c' r c : Z) : Prop := r' < r ∨ (r' = r ∧ c' < c).

(** The largest column seen so far, on the cells [seen]: a column of a live
    cell that is not below any live cell seen, except the live cells that
    were left of every live cell read before them. *)
Definition largest_column (g : ndarray) (seen : Z → Z → Prop) (maxCol : num)
  : Prop :=
  match maxCol with
  | NegInf => True
  | Int b => ∃ r, seen r b ∧ cell_at g r b = 1
  | _ => False
  end
  ∧ ∀ r c, seen r c → cell_at g r c = 1 →
      num_lt maxCol (Int c) = false
      ∨ ∀ r' c', seen r' c' → cell_at g r' c' = 1 → before r' c' r c → c < c'.

(** ** Counting live cells

    Used to state what becomes of small patterns. *)

(** The positions of a grid, row by row. *)
Definition positions (g : ndarray) : list (Z * Z) :=
  r ← range (shape0 g); (λ c, (r, c)) <$> range (shape1 g).

(** The number of live cells. *)
Definition population (g : ndarray) : Z :=
  Z.of_nat (length (filter (λ p, live_inside g p) (positions g))).

(** Consecutive runs carry different tags. *)
Definition alternating (runs : list (ascii * Z)) : Prop :=
  ∀ i g h, runs !! i = Some g → runs !! S i = Some h → g.1 ≠ h.1.

(** * Theorems *)

(** A decidable proposition that holds is proved by evaluating its decision. *)
Ltac by_computation := apply (bool_decide_unpack _); vm_compute; exact I.


Section neighbours.

Lemma norm_index_inside (n : nat) (i : Z) :
  0 ≤ i < Z.of_nat n → norm_index n i = Ok (Z.to_nat i).
Proof.
  intros Hi. unfold norm_index.
  destruct (i <? 0) eqn:Hn; [lia|].
  replace (0 <=? i) with true by lia. by replace (i <? _) with true by lia.
Qed.

Lemma getitem_inside {A} (l : list A) (i : Z) :
  0 ≤ i < Z.of_nat (length l) →
  ∃ x, l !! Z.to_nat i = Some x ∧ getitem l i = Ok x.
Proof.
  intros Hi. unfold getitem. rewrite norm_index_inside by done. simpl.
  destruct (l !! Z.to_nat i) as [x|] eqn:E; [by exists x|].
  apply lookup_ge_None in E. lia.
Qed.

Lemma getitem_beyond {A} (l : list A) (i : Z) :
  Z.of_nat (length l) ≤ i → getitem l i = Raise IndexError.
Proof.
  intros Hi. unfold getitem, norm_index.
  destruct (i <? 0) eqn:Hn; [lia|].
  replace (i <? Z.of_nat (length l)) with false by lia.
  by rewrite andb_false_r.
Qed.

Lemma cell_binary g r c : binary g → cell g r c = 0 ∨ cell g r c = 1.
Proof.
  intros Hb. unfold cell. destruct (_ || _); [by left|].
  destruct (rows g !! Z.to_nat r) as [row|] eqn:Er; simpl; [|by left].
  destruct (row !! Z.to_nat c) as [v|] eqn:Ec; simpl; [|by left].
  eapply Forall_lookup_1 in Hb; [|exact Er].
  eapply Forall_lookup_1 in Hb; [|exact Ec]. done.
Qed.

(** What [checkArray] returns: the stored value inside the grid, 0 outside,
    and never an exception. *)
Lemma checkArray_spec g r c :
  rectangular g →
  checkArray g r c = Ok (if in_bounds g r c then cell g r c else 0).
Proof.
  intros Hrect. unfold checkArray, getitem2, in_bounds, cell, shape0, shape1.
  destruct (r <? 0) eqn:Hr.
  { simpl. rewrite getitem_beyond by lia. simpl.
    replace (0 <=? r) with false by lia. done. }
  destruct (Z.lt_ge_cases r (Z.of_nat (length (rows g)))) as [Hr'|Hr']; cycle 1.
  { rewrite getitem_beyond by lia. simpl.
    replace (r <? _) with false by lia. by rewrite andb_false_r. }
  destruct (getitem_inside (rows g) r) as (row & Erow & ->); [lia|].
  assert (length row = ncols g) as Hlen
      by (eapply Forall_lookup_1 in Hrect; eauto).
  simpl. rewrite Erow. simpl.
  replace (0 <=? r) with true by lia. replace (r <? _) with true by lia.
  destruct (c <? 0) eqn:Hc.
  { rewrite getitem_beyond by lia. by replace (0 <=? c) with false by lia. }
  replace (0 <=? c) with true by lia. simpl.
  destruct (Z.lt_ge_cases c (Z.of_nat (ncols g))) as [Hc'|Hc'].
  - destruct (getitem_inside row c) as (v & Ev & ->); [lia|].
    replace (c <? _) with true by lia. by rewrite Ev.
  - rewrite getitem_beyond by lia. by replace (c <? _) with false by lia.
Qed.

Lemma contribution_live g p :
  binary g →
  (if in_bounds g p.1 p.2 then cell g p.1 p.2 else 0) = Z.b2z (live_inside g p).
Proof.
  intros Hb. unfold live_inside. destruct (in_bounds _ _ _); [|done].
  by destruct (cell_binary g p.1 p.2 Hb) as [-> | ->].
Qed.

Lemma count_as_sum {A} (f : A → bool) (l : list A) :
  Z.of_nat (length (filter (λ p, f p) l)) = foldr (λ p acc, Z.b2z (f p) + acc) 0 l.
Proof.
  induction l as [|x l IH]; [done|].
  rewrite filter_cons. simpl. destruct (decide (f x)) as [Hx|Hx].
  - simpl length. rewrite Nat2Z.inj_succ, IH.
    apply Is_true_true in Hx. rewrite Hx. simpl. lia.
  - rewrite IH. apply Is_true_false in Hx. by rewrite Hx.
Qed.

Lemma findNeighbors_value g r c :
  well_formed g → findNeighbors g r c = Ok (live_neighbours g r c).
Proof.
  intros [Hrect Hb]. unfold findNeighbors.
  rewrite !checkArray_spec by done. simpl. f_equal.
  unfold live_neighbours. rewrite count_as_sum. unfold moore. simpl foldr.
  rewrite <- !contribution_live by done. simpl. lia.
Qed.

End neighbours.



Section step.

Lemma run_bind {A B} (m : M A) (k : A → M B) σ a σ' :
  m σ = Ok (a, σ') → (m ≫= k) σ = k a σ'.
Proof. intros H. unfold mbind, M_bind. by rewrite H. Qed.

Lemma run_deref l g σ : σ !! l = Some g → deref l σ = Ok (g, σ).
Proof. intros H. unfold deref. by rewrite H. Qed.

Lemma run_lift {A} (r : result A) a σ : r = Ok a → lift r σ = Ok (a, σ).
Proof. by intros ->. Qed.

Lemma getitem2_inside g r c :
  rectangular g → in_bounds g r c = true → getitem2 g r c = Ok (cell g r c).
Proof.
  intros Hrect Hin. unfold in_bounds, shape0, shape1 in Hin.
  unfold getitem2, cell.
  destruct (getitem_inside (rows g) r) as (row & Erow & ->); [lia|].
  assert (length row = ncols g) as Hlen
      by (eapply Forall_lookup_1 in Hrect; eauto).
  simpl. destruct (getitem_inside row c) as (v & Ev & ->); [lia|].
  replace (r <? 0) with false by lia. replace (c <? 0) with false by lia.
  simpl. rewrite Erow. simpl. by rewrite Ev.
Qed.

Lemma partially_updated_start g : partially_updated g 0 0 = g.
Proof.
  destruct g as [n rs]. unfold partially_updated. simpl. f_equal.
  apply list_eq. intros r. rewrite list_lookup_imap.
  destruct (rs !! r) as [row|]; [|done]. simpl. f_equal.
  apply list_eq. intros c. rewrite list_lookup_imap.
  destruct (row !! c); [|done]. simpl.
  case_decide as H; [|done]. unfold visited in H. lia.
Qed.

Lemma partially_updated_next_row g i :
  rectangular g →
  partially_updated g i (ncols g) = partially_updated g (S i) 0.
Proof.
  intros Hrect. unfold partially_updated. f_equal.
  apply list_eq. intros r. rewrite !list_lookup_imap.
  destruct (rows g !! r) as [row|] eqn:Er; [|done]. simpl. f_equal.
  assert (length row = ncols g) as Hlen
      by (eapply Forall_lookup_1 in Hrect; eauto).
  apply list_eq. intros c. rewrite !list_lookup_imap.
  destruct (row !! c) eqn:Ec; [|done]. simpl. f_equal.
  apply lookup_lt_Some in Ec. unfold visited.
  repeat case_decide; try done; lia.
Qed.

Lemma partially_updated_end g :
  partially_updated g (length (rows g)) 0 = generation g.
Proof.
  unfold partially_updated, generation. f_equal.
  apply list_eq. intros r. rewrite !list_lookup_imap.
  destruct (rows g !! r) as [row|] eqn:Er; [|done]. simpl. f_equal.
  apply lookup_lt_Some in Er.
  apply list_eq. intros c. rewrite !list_lookup_imap.
  destruct (row !! c) eqn:Ec; [|done]. simpl. f_equal.
  unfold visited. case_decide; [done|lia].
Qed.

Lemma partially_updated_write g i k row :
  rows g !! i = Some row → (k < length row)%nat →
  <[i := <[k := next_cell g (Z.of_nat i) (Z.of_nat k)]>
           (imap (λ c v, if decide (visited i k i c)
                         then next_cell g (Z.of_nat i) (Z.of_nat c) else v) row)]>
    (rows (partially_updated g i k))
  = rows (partially_updated g i (S k)).
Proof.
  intros Hrow Hk. unfold partially_updated. simpl.
  apply list_eq. intros r. destruct (decide (r = i)) as [->|Hne].
  - rewrite list_lookup_insert_eq
      by (rewrite length_imap; by apply lookup_lt_Some in Hrow).
    rewrite list_lookup_imap, Hrow. simpl. f_equal.
    apply list_eq. intros c. destruct (decide (c = k)) as [->|Hck].
    + rewrite list_lookup_insert_eq by (by rewrite length_imap).
      rewrite list_lookup_imap.
      destruct (lookup_lt_is_Some_2 row k Hk) as [v ->]. simpl. f_equal.
      unfold visited. case_decide; [done|lia].
    + rewrite list_lookup_insert_ne by done. rewrite !list_lookup_imap.
      destruct (row !! c); [|done]. simpl. f_equal.
      unfold visited. repeat case_decide; try done; lia.
  - rewrite list_lookup_insert_ne by done. rewrite !list_lookup_imap.
    destruct (rows g !! r) as [row'|]; [|done]. simpl. f_equal.
    apply imap_ext. intros c v _. unfold visited.
    repeat case_decide; try done; lia.
Qed.

Lemma run_setitem2 (σ : store) a g i k row v :
  σ !! a = Some g → rows g !! i = Some row → (k < length row)%nat →
  setitem2 a (Z.of_nat i) (Z.of_nat k) v σ
  = Ok ((), <[a := Array (ncols g) (<[i := <[k := v]> row]> (rows g))]> σ).
Proof.
  intros Ha Hrow Hk. unfold setitem2. rewrite Ha.
  pose proof (lookup_lt_Some _ _ _ Hrow) as Hi.
  destruct (getitem_inside (rows g) (Z.of_nat i)) as (row' & Erow & Eget); [lia|].
  rewrite Nat2Z.id, Hrow in Erow. injection Erow as <-.
  rewrite norm_index_inside by lia. simpl. rewrite Eget. simpl.
  rewrite norm_index_inside by lia. simpl. by rewrite !Nat2Z.id.
Qed.

(** The inner loop, started at column [k] of row [i]. *)
Lemma updateGrid_row g grid nxt i row :
  well_formed g → grid ≠ nxt → rows g !! i = Some row →
  ∀ m k (σ : store),
    (k + m = ncols g)%nat →
    σ !! grid = Some g → σ !! nxt = Some (partially_updated g i k) →
    ∃ σ' : store,
      for_ (Z.of_nat <$> seq k m) (λ j,
        g ← deref grid;
        nAlive ← lift (findNeighbors g (Z.of_nat i) j);
        cur ← lift (getitem2 g (Z.of_nat i) j);
        let nextState :=
          if cur =? 1 then
            if (nAlive <? 2) || (nAlive >? 3) then 0 else 1
          else
            if nAlive =? 3 then 1 else 0 in
        setitem2 nxt (Z.of_nat i) j nextState) σ = Ok ((), σ')
      ∧ σ' !! nxt = Some (partially_updated g i (k + m))
      ∧ ∀ l, l ≠ nxt → σ' !! l = σ !! l.
Proof.
  intros Hwf Hne Hrow.
  assert (length row = ncols g) as Hlen
      by (destruct Hwf as [Hrect _]; eapply Forall_lookup_1 in Hrect; eauto).
  pose proof (lookup_lt_Some _ _ _ Hrow) as Hi.
  induction m as [|m IH]; intros k σ Hkm Hg Hn.
  - exists σ. rewrite Nat.add_0_r. by repeat split.
  - simpl for_.
    set (v := next_cell g (Z.of_nat i) (Z.of_nat k)).
    set (σ1 := <[nxt := partially_updated g i (S k)]> σ).
    destruct (IH (S k) σ1) as (σ' & Hrun & Hn' & Hframe).
    { lia. }
    { unfold σ1. by rewrite lookup_insert_ne. }
    { unfold σ1. by rewrite lookup_insert_eq. }
    exists σ'. split; [|split].
    + erewrite run_bind; [exact Hrun|].
      erewrite run_bind; [|by apply run_deref].
      erewrite run_bind; [|by apply run_lift, findNeighbors_value].
      erewrite run_bind; cycle 1.
      { apply run_lift, getitem2_inside; [apply Hwf|].
        unfold in_bounds, shape0, shape1. lia. }
      pose proof (partially_updated_write g i k row Hrow ltac:(lia)) as Hw.
      erewrite (run_setitem2 σ nxt _ i k _ _ Hn); cycle 1.
      { unfold partially_updated. simpl. rewrite list_lookup_imap, Hrow.
        reflexivity. }
      { rewrite length_imap. lia. }
      unfold σ1. do 3 f_equal.
      change (partially_updated g i (S k))
        with (Array (ncols g) (rows (partially_updated g i (S k)))).
      rewrite <- Hw. reflexivity.
    + rewrite Hn'. f_equal. f_equal. lia.
    + intros l Hl. rewrite Hframe by done. unfold σ1.
      by rewrite lookup_insert_ne.
Qed.

(** The outer loop, started at row [i]. *)
Lemma updateGrid_rows g grid nxt :
  well_formed g → grid ≠ nxt →
  ∀ m i (σ : store),
    (i + m = length (rows g))%nat →
    σ !! grid = Some g → σ !! nxt = Some (partially_updated g i 0) →
    ∃ σ' : store,
      for_ (Z.of_nat <$> seq i m) (λ i,
        g ← deref grid;
        for_ (range (shape1 g)) (λ j,
          g ← deref grid;
          nAlive ← lift (findNeighbors g i j);
          cur ← lift (getitem2 g i j);
          let nextState :=
            if cur =? 1 then
              if (nAlive <? 2) || (nAlive >? 3) then 0 else 1
            else
              if nAlive =? 3 then 1 else 0 in
          setitem2 nxt i j nextState)) σ = Ok ((), σ')
      ∧ σ' !! nxt = Some (partially_updated g (i + m) 0)
      ∧ ∀ l, l ≠ nxt → σ' !! l = σ !! l.
Proof.
  intros Hwf Hne. induction m as [|m IH]; intros i σ Him Hg Hn.
  - exists σ. rewrite Nat.add_0_r. by repeat split.
  - simpl for_.
    destruct (lookup_lt_is_Some_2 (rows g) i ltac:(lia)) as [row Hrow].
    destruct (updateGrid_row g grid nxt i row Hwf Hne Hrow (ncols g) 0%nat σ)
      as (σ1 & Hrun1 & Hn1 & Hframe1); [lia|done|done|].
    simpl in Hn1. rewrite partially_updated_next_row in Hn1 by apply Hwf.
    destruct (IH (S i) σ1) as (σ' & Hrun & Hn' & Hframe); [lia| |done|].
    { by rewrite Hframe1. }
    exists σ'. split; [|split].
    + erewrite run_bind; [exact Hrun|].
      erewrite run_bind; [|by apply run_deref].
      unfold range, shape1. rewrite Nat2Z.id. exact Hrun1.
    + rewrite Hn'. do 2 f_equal. lia.
    + intros l Hl. rewrite Hframe, Hframe1; done.
Qed.

(** What a call of [updateGrid] does to the store: it returns the reference
    it was given, that object now holds the next generation, and every other
    object that existed before is untouched. *)
Lemma updateGrid_run (σ : store) grid g :
  σ !! grid = Some g → well_formed g →
  ∃ σ' : store,
    updateGrid grid σ = Ok (grid, σ')
    ∧ σ' !! grid = Some (generation g)
    ∧ ∀ l, l ≠ grid → is_Some (σ !! l) → σ' !! l = σ !! l.
Proof.
  intros Hg Hwf. set (nxt := fresh (dom σ)).
  assert (σ !! nxt = None) as Hfresh
      by (apply not_elem_of_dom, is_fresh).
  assert (grid ≠ nxt) as Hne by congruence.
  set (σ0 := <[nxt := g]> σ).
  destruct (updateGrid_rows g grid nxt Hwf Hne (length (rows g)) 0%nat σ0)
    as (σ2 & Hrun & Hn2 & Hframe2); [lia| | |].
  { unfold σ0. by rewrite lookup_insert_ne. }
  { unfold σ0. by rewrite lookup_insert_eq, partially_updated_start. }
  simpl in Hn2. rewrite partially_updated_end in Hn2.
  assert (σ2 !! grid = Some g) as Hg2.
  { rewrite Hframe2 by done. unfold σ0. by rewrite lookup_insert_ne. }
  exists (<[grid := generation g]> σ2). split; [|split].
  - unfold updateGrid.
    erewrite run_bind; cycle 1.
    { unfold np_copy. rewrite Hg. reflexivity. }
    fold nxt σ0.
    erewrite run_bind; cycle 1.
    { apply run_deref. unfold σ0. by rewrite lookup_insert_ne. }
    erewrite run_bind; cycle 1.
    { unfold range, shape0. rewrite Nat2Z.id. exact Hrun. }
    erewrite run_bind; [reflexivity|].
    unfold assign_all. rewrite Hg2, Hn2.
    rewrite decide_True; [reflexivity|].
    unfold generation. simpl. by rewrite length_imap.
  - by rewrite lookup_insert_eq.
  - intros l Hl [x Hx]. rewrite lookup_insert_ne by done.
    assert (l ≠ nxt) by congruence.
    rewrite Hframe2 by done. unfold σ0. by rewrite lookup_insert_ne.
Qed.

Lemma generation_cell g r c :
  in_bounds g r c = true → rectangular g →
  cell (generation g) r c = next_cell g r c.
Proof.
  intros Hin Hrect. unfold in_bounds, shape0, shape1 in Hin.
  unfold cell at 1.
  replace (r <? 0) with false by lia. replace (c <? 0) with false by lia.
  simpl. rewrite list_lookup_imap.
  destruct (lookup_lt_is_Some_2 (rows g) (Z.to_nat r) ltac:(lia)) as [row Hrow].
  rewrite Hrow. simpl. rewrite list_lookup_imap.
  assert (length row = ncols g) as Hlen
      by (eapply Forall_lookup_1 in Hrect; eauto).
  destruct (lookup_lt_is_Some_2 row (Z.to_nat c) ltac:(lia)) as [v ->].
  simpl. by rewrite !Z2Nat.id by lia.
Qed.

Lemma next_cell_binary g r c : next_cell g r c = 0 ∨ next_cell g r c = 1.
Proof. unfold next_cell. repeat case_match; auto. Qed.

Lemma generation_well_formed g : rectangular g → well_formed (generation g).
Proof.
  intros Hrect. split.
  - unfold rectangular, generation. simpl.
    apply Forall_lookup_2. intros r row. rewrite list_lookup_imap.
    destruct (rows g !! r) as [row'|] eqn:E; [|done]. simpl.
    intros [= <-]. rewrite length_imap.
    eapply Forall_lookup_1 in Hrect; eauto.
  - unfold binary, generation. simpl.
    apply Forall_lookup_2. intros r row. rewrite list_lookup_imap.
    destruct (rows g !! r) as [row'|] eqn:E; [|done]. simpl.
    intros [= <-]. apply Forall_lookup_2. intros c v.
    rewrite list_lookup_imap. destruct (row' !! c); [|done]. simpl.
    intros [= <-]. apply next_cell_binary.
Qed.

Lemma generation_shape g :
  shape0 (generation g) = shape0 g ∧ shape1 (generation g) = shape1 g.
Proof. unfold shape0, shape1, generation. simpl. by rewrite length_imap. Qed.

End step.

(** C1. For every well-formed grid held by a reference, [updateGrid] returns
    a grid with the same numbers of rows and columns in which every cell
    follows B3/S23 on the neighbour counts of the grid as it was when the
    call started: a live cell with exactly two or three live neighbours is
    alive, a live cell with any other count is dead, a dead cell with exactly
    three is alive, and every other dead cell is dead. *)
Theorem updateGrid_follows_B3S23 (σ : store) (grid : loc) (g : ndarray) :
  σ !! grid = Some g → well_formed g →
  ∃ (l : loc) (σ' : store) (g' : ndarray),
    updateGrid grid σ = Ok (l, σ') ∧ σ' !! l = Some g'
    ∧ shape0 g' = shape0 g ∧ shape1 g' = shape1 g ∧ well_formed g'
    ∧ ∀ r c, in_bounds g r c = true →
        let n := live_neighbours g r c in
        (cell g r c = 1 → n = 2 ∨ n = 3 → cell g' r c = 1)
        ∧ (cell g r c = 1 → ¬ (n = 2 ∨ n = 3) → cell g' r c = 0)
        ∧ (cell g r c = 0 → n = 3 → cell g' r c = 1)
        ∧ (cell g r c = 0 → n ≠ 3 → cell g' r c = 0).
Proof.
  intros Hg Hwf.
  destruct (updateGrid_run σ grid g Hg Hwf) as (σ' & Hrun & Hg' & _).
  exists grid, σ', (generation g).
  destruct (generation_shape g) as [Hs0 Hs1].
  split_and!; try done; [by apply generation_well_formed, Hwf|].
  intros r c Hin n. rewrite generation_cell by (done || apply Hwf).
  unfold next_cell. fold n. repeat split; intros; repeat case_match; lia.
Qed.

(** C10. [updateGrid] returns the very reference it was given, and after the
    call that object holds the next generation: the values it held before
    are gone from it (whenever the generation differs), while any other
    object, such as a copy taken before the call, is left as it was. *)
Theorem updateGrid_overwrites_argument (σ : store) (grid : loc) (g : ndarray) :
  σ !! grid = Some g → well_formed g →
  ∃ (l : loc) (σ' : store),
    updateGrid grid σ = Ok (l, σ')
    ∧ l = grid
    ∧ σ' !! grid = Some (generation g)
    ∧ (generation g ≠ g → σ' !! grid ≠ Some g)
    ∧ ∀ saved, saved ≠ grid → σ !! saved = Some g → σ' !! saved = Some g.
Proof.
  intros Hg Hwf.
  destruct (updateGrid_run σ grid g Hg Hwf) as (σ' & Hrun & Hg' & Hframe).
  exists grid, σ'. repeat split; try done.
  - rewrite Hg'. congruence.
  - intros saved Hne Hs. rewrite Hframe; eauto.
Qed.

Section padding.

Lemma zeros_replicate (n : nat) :
  (λ _ : Z, 0) <$> range (Z.of_nat n) = replicate n 0.
Proof.
  unfold range. rewrite Nat2Z.id. generalize 0%nat.
  induction n as [|n IH]; intros k; [done|]. simpl. by rewrite IH.
Qed.

Lemma zip_column_right (l : list (list Z)) :
  zip_with app l ((λ v, [v]) <$> replicate (length l) 0) = (λ row, row ++ [0]) <$> l.
Proof. induction l as [|row l IH]; [done|]. simpl. f_equal. exact IH. Qed.

Lemma zip_column_left (l : list (list Z)) :
  zip_with app ((λ v, [v]) <$> replicate (length l) 0) l = (λ row, 0 :: row) <$> l.
Proof. induction l as [|row l IH]; [done|]. simpl. f_equal. exact IH. Qed.

Lemma append_row_below a :
  np_append0 a (row_vector ((λ _, 0) <$> range (shape1 a)))
  = Ok (Array (ncols a) (rows a ++ [replicate (ncols a) 0])).
Proof.
  unfold shape1. rewrite zeros_replicate. unfold np_append0, row_vector.
  simpl. rewrite length_replicate. by rewrite decide_True.
Qed.

Lemma append_row_above a :
  np_append0 (row_vector ((λ _, 0) <$> range (shape1 a))) a
  = Ok (Array (ncols a) (replicate (ncols a) 0 :: rows a)).
Proof.
  unfold shape1. rewrite zeros_replicate. unfold np_append0, row_vector.
  simpl. rewrite length_replicate. by rewrite decide_True.
Qed.

Lemma append_column_right a :
  np_append1 a (column_vector ((λ _, 0) <$> range (shape0 a)))
  = Ok (Array (ncols a + 1) ((λ row, row ++ [0]) <$> rows a)).
Proof.
  unfold shape0. rewrite zeros_replicate. unfold np_append1, column_vector.
  cbn [rows ncols]. rewrite length_fmap, length_replicate.
  rewrite decide_True by done. by rewrite zip_column_right.
Qed.

Lemma append_column_left a :
  np_append1 (column_vector ((λ _, 0) <$> range (shape0 a))) a
  = Ok (Array (1 + ncols a) ((λ row, 0 :: row) <$> rows a)).
Proof.
  unfold shape0. rewrite zeros_replicate. unfold np_append1, column_vector.
  cbn [rows ncols]. rewrite length_fmap, length_replicate.
  rewrite decide_True by done. by rewrite zip_column_left.
Qed.

(** One turn of the loop of [addSpace] succeeds and adds one ring. *)
Lemma addSpace_turn (g : ndarray) :
  (e1 ← np_append0 g (row_vector ((λ _, 0) <$> range (shape1 g)));
   e2 ← np_append0 (row_vector ((λ _, 0) <$> range (shape1 e1))) e1;
   e3 ← np_append1 e2 (column_vector ((λ _, 0) <$> range (shape0 e2)));
   np_append1 (column_vector ((λ _, 0) <$> range (shape0 e3))) e3)
  = Ok (ringed g).
Proof.
  rewrite append_row_below. cbn [mbind result_bind].
  rewrite append_row_above. cbn [mbind result_bind].
  rewrite append_column_right. cbn [mbind result_bind].
  rewrite append_column_left. cbn [rows ncols].
  unfold ringed. rewrite <- list_fmap_compose. reflexivity.
Qed.

Lemma cell_outside g r c :
  rectangular g → in_bounds g r c = false → cell g r c = 0.
Proof.
  intros Hrect Hout. unfold in_bounds, shape0, shape1 in Hout. unfold cell.
  destruct (r <? 0) eqn:Hr; [done|]. destruct (c <? 0) eqn:Hc; [done|]. simpl.
  destruct (rows g !! Z.to_nat r) as [row|] eqn:Er; [|done]. simpl.
  destruct (row !! Z.to_nat c) as [v|] eqn:Ec; [|done].
  eapply Forall_lookup_1 in Hrect; [|exact Er].
  apply lookup_lt_Some in Er, Ec. lia.
Qed.

Lemma default_lookup_zeros (l : list Z) (i : nat) :
  Forall (λ v, v = 0) l → default 0 (l !! i) = 0.
Proof.
  intros Hl. destruct (l !! i) as [v|] eqn:E; [|done].
  by eapply Forall_lookup_1 in Hl; [|exact E].
Qed.

Lemma framed_zeros (n : nat) : Forall (λ v, v = 0) (0 :: replicate n 0 ++ [0]).
Proof.
  apply Forall_cons. split; [done|]. apply Forall_app. split.
  - by apply Forall_replicate.
  - by apply Forall_singleton.
Qed.

Lemma framed_row_lookup (row : list Z) (c : Z) :
  0 ≤ c →
  default 0 ((0 :: row ++ [0]) !! Z.to_nat c)
  = if c - 1 <? 0 then 0 else default 0 (row !! Z.to_nat (c - 1)).
Proof.
  intros Hc. destruct (decide (c = 0)) as [->|Hc0]; [reflexivity|].
  replace (c - 1 <? 0) with false by lia.
  replace (Z.to_nat c) with (S (Z.to_nat (c - 1))) by lia.
  rewrite lookup_cons_ne_0, Nat.pred_succ by lia.
  destruct (decide (Z.to_nat (c - 1) < length row)%nat).
  - by rewrite lookup_app_l by lia.
  - rewrite (lookup_ge_None_2 row) by lia.
    rewrite lookup_app_r by lia.
    by destruct (Z.to_nat (c - 1) - length row)%nat as [|[|k]].
Qed.

Lemma ringed_cell g r c : cell (ringed g) r c = cell g (r - 1) (c - 1).
Proof.
  unfold cell, ringed. cbn [rows].
  destruct (r <? 0) eqn:Hr.
  { cbn [orb]. by replace (r - 1 <? 0) with true by lia. }
  cbn [orb]. destruct (c <? 0) eqn:Hc.
  { replace (c - 1 <? 0) with true by lia. by rewrite orb_true_r. }
  rewrite list_lookup_fmap.
  destruct (decide (r = 0)) as [->|Hr0].
  { cbn. apply (default_lookup_zeros _ _ (framed_zeros (ncols g))). }
  replace (r - 1 <? 0) with false by lia. cbn [orb].
  replace (Z.to_nat r) with (S (Z.to_nat (r - 1))) by lia.
  rewrite lookup_cons_ne_0, Nat.pred_succ by lia.
  set (i := Z.to_nat (r - 1)).
  destruct (decide (i < length (rows g))%nat) as [Hi|Hi].
  - rewrite lookup_app_l by lia.
    destruct (lookup_lt_is_Some_2 (rows g) i Hi) as [row ->].
    cbn [fmap option_fmap option_map mbind option_bind].
    apply framed_row_lookup. lia.
  - rewrite (lookup_ge_None_2 (rows g)) by lia.
    cbn [mbind option_bind default].
    assert (default 0
      (((λ row : list Z, 0 :: row ++ [0]) <$>
          (rows g ++ [replicate (ncols g) 0]) !! i) ≫= lookup (Z.to_nat c)) = 0)
      as ->; [|by destruct (c - 1 <? 0)].
    destruct ((rows g ++ [replicate (ncols g) 0]) !! i) as [row|] eqn:E; [|done].
    rewrite lookup_app_r in E by lia.
    apply list_lookup_singleton_Some in E as [_ <-].
    cbn [fmap option_fmap option_map mbind option_bind].
    apply (default_lookup_zeros _ _ (framed_zeros (ncols g))).
Qed.

Lemma ringed_rectangular g : rectangular g → rectangular (ringed g).
Proof.
  intros Hrect. unfold rectangular, ringed. cbn [rows ncols].
  apply Forall_fmap, Forall_cons. split; [|apply Forall_app; split].
  - simpl. rewrite length_app, length_replicate. simpl. lia.
  - eapply Forall_impl; [exact Hrect|]. intros row Hlen. simpl in *.
    rewrite length_app. simpl. lia.
  - apply Forall_singleton. simpl. rewrite length_app, length_replicate.
    simpl. lia.
Qed.

Lemma ringed_shape g :
  shape0 (ringed g) = shape0 g + 2 ∧ shape1 (ringed g) = shape1 g + 2.
Proof.
  unfold shape0, shape1, ringed. cbn [rows ncols].
  rewrite length_fmap. simpl. rewrite length_app. simpl. lia.
Qed.

Lemma for_fold_iter {A S} (l : list A) (body : A → S → result S) (f : S → S) s :
  (∀ x s, body x s = Ok (f s)) →
  for_fold l body s = Ok (Nat.iter (length l) f s).
Proof.
  intros Hbody. revert s. induction l as [|x l IH]; intros s; [done|].
  cbn [for_fold]. rewrite Hbody. cbn [mbind result_bind].
  rewrite IH. cbn [length]. by rewrite Nat.iter_succ_r.
Qed.

Lemma addSpace_rings g (n : nat) :
  addSpace g (Z.of_nat n) = Ok (Nat.iter n ringed g).
Proof.
  unfold addSpace. erewrite for_fold_iter.
  - unfold range. by rewrite length_fmap, length_seq, Nat2Z.id.
  - intros _ e. apply addSpace_turn.
Qed.

Lemma rings_cell g (n : nat) r c :
  cell (Nat.iter n ringed g) r c = cell g (r - Z.of_nat n) (c - Z.of_nat n).
Proof.
  revert r c. induction n as [|n IH]; intros r c.
  - simpl. f_equal; lia.
  - change (Nat.iter (S n) ringed g) with (ringed (Nat.iter n ringed g)).
    rewrite ringed_cell, IH. f_equal; lia.
Qed.

Lemma rings_rectangular g (n : nat) :
  rectangular g → rectangular (Nat.iter n ringed g).
Proof. intros H. induction n; [done|]. simpl. by apply ringed_rectangular. Qed.

Lemma rings_shape g (n : nat) :
  shape0 (Nat.iter n ringed g) = shape0 g + 2 * Z.of_nat n
  ∧ shape1 (Nat.iter n ringed g) = shape1 g + 2 * Z.of_nat n.
Proof.
  induction n as [|n [IH0 IH1]]; [simpl; lia|].
  rewrite Nat2Z.inj_succ.
  change (Nat.iter (S n) ringed g) with (ringed (Nat.iter n ringed g)).
  destruct (ringed_shape (Nat.iter n ringed g)). lia.
Qed.

End padding.

(** C7. For every grid of [rows] rows and [cols] columns and every [n >= 0],
    [addSpace g n] returns a grid of [rows + 2n] rows and [cols + 2n]
    columns; its cell at [(r + n, c + n)] is the cell of [g] at [(r, c)] for
    every position [(r, c)] of [g], and every other cell of it, the border
    that was added, is dead. *)
Theorem addSpace_centres_content (g : ndarray) (n : Z) :
  rectangular g → 0 ≤ n →
  ∃ g' : ndarray,
    addSpace g n = Ok g'
    ∧ rectangular g'
    ∧ shape0 g' = shape0 g + 2 * n ∧ shape1 g' = shape1 g + 2 * n
    ∧ (∀ r c, in_bounds g r c = true → cell g' (r + n) (c + n) = cell g r c)
    ∧ (∀ r c, in_bounds g' r c = true → in_bounds g (r - n) (c - n) = false →
         cell g' r c = 0).
Proof.
  intros Hrect Hn. exists (Nat.iter (Z.to_nat n) ringed g).
  destruct (rings_shape g (Z.to_nat n)) as [H0 H1].
  split_and!.
  - rewrite <- (Z2Nat.id n) at 1 by done. apply addSpace_rings.
  - by apply rings_rectangular.
  - lia.
  - lia.
  - intros r c _. rewrite rings_cell. f_equal; lia.
  - intros r c _ Hout. rewrite rings_cell, Z2Nat.id by done.
    by apply cell_outside.
Qed.

(** C9, as stated, fails: for a grid of ten rows and two columns and a
    requested size of five the larger positive deficit is three, and
    [createAnimation] asks for five rings. *)
Lemma ring_count_exceeds_deficit :
  ¬ (∀ (g : ndarray) (size : Z),
       shape0 g < size ∨ shape1 g < size →
       ring_count g size
       = Some (Z.max (Z.max 0 (size - shape0 g)) (Z.max 0 (size - shape1 g)))).
Proof.
  intros H. specialize (H (dead_grid 10 2) 5). vm_compute in H.
  assert (Some 5 = Some 3) as [=] by (apply H; right; reflexivity).
Qed.

(** C9, amended. When the requested size exceeds the row count or the column
    count, [createAnimation] calls [addSpace] with the larger of the two
    absolute differences between the requested size and a dimension; that
    number is at least the larger positive deficit, and both dimensions of
    the padded grid are at least the requested size. When the grid already
    has the requested size in both dimensions nothing is added. *)
Theorem createAnimation_ring_count (g : ndarray) (size : Z) :
  (shape0 g < size ∨ shape1 g < size →
     let n := Z.max (Z.abs (size - shape0 g)) (Z.abs (size - shape1 g)) in
     ring_count g size = Some n
     ∧ Z.max (Z.max 0 (size - shape0 g)) (Z.max 0 (size - shape1 g)) ≤ n
     ∧ ∃ g', createAnimation_grid g size = Ok g'
             ∧ addSpace g n = Ok g'
             ∧ shape0 g' = shape0 g + 2 * n ∧ shape1 g' = shape1 g + 2 * n
             ∧ size ≤ shape0 g' ∧ size ≤ shape1 g')
  ∧ (size ≤ shape0 g ∧ size ≤ shape1 g →
     ring_count g size = None ∧ createAnimation_grid g size = Ok g).
Proof.
  split.
  - intros Hlt n.
    assert (ring_count g size = Some n) as Hn.
    { unfold ring_count. destruct (shape0 g <? size) eqn:E0; [done|].
      destruct (shape1 g <? size) eqn:E1; [done|]. lia. }
    split; [done|]. split; [lia|].
    exists (Nat.iter (Z.to_nat n) ringed g).
    assert (addSpace g n = Ok (Nat.iter (Z.to_nat n) ringed g)) as Ha.
    { rewrite <- (Z2Nat.id n) at 1 by lia. apply addSpace_rings. }
    destruct (rings_shape g (Z.to_nat n)) as [H0 H1].
    unfold createAnimation_grid. rewrite Hn.
    assert (0 ≤ shape0 g ∧ 0 ≤ shape1 g) by (unfold shape0, shape1; lia).
    split_and!; try done; lia.
  - intros [H0 H1]. unfold createAnimation_grid, ring_count.
    replace (shape0 g <? size) with false by lia.
    by replace (shape1 g <? size) with false by lia.
Qed.

(** C5. On the grid of one live cell [findBoundaries] returns no largest
    column: [maxCol] is still [-math.inf], below [minCol], where the largest
    column that holds a live cell is 0. *)
Theorem findBoundaries_single_cell :
  findBoundaries (Array 1 [[1]]) = Ok (0, 0, Int 0, NegInf)
  ∧ num_lt NegInf (Int 0) = true
  ∧ cell (Array 1 [[1]]) 0 0 = 1.
Proof. by vm_compute. Qed.

(** C3. On the grid of one live cell [writeRLE] writes the header
    [x = -inf, y = 1] and stops with a [TypeError] in [encodeGrid]; the file
    holds no pattern, and reading it back fails. *)
Theorem writeRLE_single_cell :
  writeRLE (Array 1 [[1]])
  = Some (txt "x = -inf, y = 1" ++ ["010"%char], Raise TypeError)
  ∧ parseRLE (txt "x = -inf, y = 1" ++ ["010"%char]) = Raise ValueError.
Proof. by vm_compute. Qed.

Section writing.

Lemma getitem_app_middle {A} (pre : list A) (x : A) (post : list A) :
  getitem (pre ++ x :: post) (Z.of_nat (length pre)) = Ok x.
Proof.
  destruct (getitem_inside (pre ++ x :: post) (Z.of_nat (length pre)))
    as (y & Hy & ->).
  { rewrite length_app. simpl. lia. }
  rewrite Nat2Z.id, list_lookup_middle in Hy by done. congruence.
Qed.

(** One turn of the loop on a group that is written. *)
Lemma writeRLE_loop_write fuel pre g post line f :
  (post = [] ∨ (∃ g2, post = [g2]) ∧ g.1 ≠ "b"%char
   ∨ (2 ≤ length post)%nat) →
  writeRLE_loop (S fuel) (pre ++ g :: post) (Z.of_nat (length pre)) line f
  = let '(line', f') :=
      if Z.of_nat (length (token_text g)) + Z.of_nat (length line) >? 70
      then (token_text g, f ++ (line ++ ["010"%char]))
      else (line ++ token_text g, f) in
    if bool_decide (post = []) then Some (f' ++ line', Ok ())
    else writeRLE_loop fuel (pre ++ g :: post)
           (Z.of_nat (length pre) + 1) line' f'.
Proof.
  intros Hpost. cbn [writeRLE_loop].
  rewrite getitem_app_middle. cbn [mbind result_bind mret result_ret].
  set (len := Z.of_nat (length (pre ++ g :: post))).
  assert (len = Z.of_nat (length pre) + 1 + Z.of_nat (length post)) as Hlen.
  { unfold len. rewrite length_app. simpl. lia. }
  assert ((if Z.of_nat (length pre) =? len - 2
           then mret (bool_decide (g.1 = "b"%char)) else mret false)
          = Ok false) as ->.
  { destruct Hpost as [-> | [[[g2 ->] Hb] | H2]]; simpl in Hlen.
    - by replace (_ =? _) with false by lia.
    - by rewrite bool_decide_eq_false_2 by done; destruct (_ =? _).
    - by replace (_ =? _) with false by lia. }
  destruct g as [tag count]. unfold token_text. cbn [fst snd].
  assert ((Z.of_nat (length pre) =? len - 1) = bool_decide (post = [])) as ->.
  { destruct post; simpl in Hlen.
    - rewrite bool_decide_eq_true_2 by done. lia.
    - rewrite bool_decide_eq_false_2 by done. lia. }
  destruct (count =? 1).
  - replace (1 + Z.of_nat (length line))
      with (Z.of_nat (length [tag]) + Z.of_nat (length line)) by (simpl; lia).
    by destruct (_ >? 70).
  - replace (Z.of_nat (length (str_int count)) + Z.of_nat (length line) + 1)
      with (Z.of_nat (length (str_int count ++ [tag])) + Z.of_nat (length line))
      by (rewrite length_app; simpl; lia).
    by destruct (_ >? 70).
Qed.

(** One turn of the loop on the run of dead cells that is left out. *)
Lemma writeRLE_loop_skip fuel pre g g2 line f :
  g.1 = "b"%char →
  writeRLE_loop (S fuel) (pre ++ [g; g2]) (Z.of_nat (length pre)) line f
  = writeRLE_loop fuel (pre ++ [g; g2]) (Z.of_nat (length pre) + 1) line f.
Proof.
  intros Hb. cbn [writeRLE_loop].
  rewrite getitem_app_middle. cbn [mbind result_bind mret result_ret].
  rewrite length_app. simpl length.
  destruct (Z.of_nat (length pre) =? Z.of_nat (length pre + 2) - 2) eqn:E;
    [|apply Z.eqb_neq in E; lia].
  by rewrite bool_decide_eq_true_2.
Qed.

(** The loop ends by itself, with as many turns as there are groups left,
    and leaves the tokens of [emitted] wrapped in the file. *)
Lemma writeRLE_loop_wrap rest :
  ∀ pre line f fuel,
    rest ≠ [] → (length rest ≤ fuel)%nat →
    writeRLE_loop fuel (pre ++ rest) (Z.of_nat (length pre)) line f
    = Some (wrap (token_text <$> emitted rest) line f, Ok ()).
Proof.
  induction rest as [|g rest IH]; intros pre line f fuel Hne Hfuel; [done|].
  destruct fuel as [|fuel]; [simpl in Hfuel; lia|]. simpl in Hfuel.
  assert (∀ line f, rest ≠ [] →
    writeRLE_loop fuel (pre ++ g :: rest) (Z.of_nat (length pre) + 1) line f
    = Some (wrap (token_text <$> emitted rest) line f, Ok ())) as Hnext.
  { intros line' f' Hrest.
    replace (pre ++ g :: rest) with ((pre ++ [g]) ++ rest)
      by (by rewrite <- app_assoc).
    replace (Z.of_nat (length pre) + 1) with (Z.of_nat (length (pre ++ [g])))
      by (rewrite length_app; simpl; lia).
    apply IH; [done|lia]. }
  destruct rest as [|g2 [|g3 rest]].
  - rewrite writeRLE_loop_write by auto. simpl.
    by destruct (_ >? 70).
  - destruct (decide (g.1 = "b"%char)) as [Hb|Hb].
    + rewrite writeRLE_loop_skip by done. rewrite Hnext by done.
      cbn [emitted]. by rewrite bool_decide_eq_true_2.
    + rewrite writeRLE_loop_write by eauto.
      cbn [emitted]. rewrite (bool_decide_eq_false_2 (g.1 = "b"%char)) by done.
      rewrite (bool_decide_eq_false_2 ([g2] = [])) by done.
      cbn [fmap list_fmap wrap].
      destruct (_ >? 70); by rewrite Hnext.
  - rewrite writeRLE_loop_write by (right; right; simpl; lia).
    change (emitted (g :: g2 :: g3 :: rest))
      with (g :: emitted (g2 :: g3 :: rest)).
    rewrite (bool_decide_eq_false_2 (g2 :: g3 :: rest = [])) by done.
    cbn [fmap list_fmap wrap].
    destruct (_ >? 70); by rewrite Hnext.
Qed.

Lemma fill_nonempty toks cur : fill toks cur ≠ [].
Proof.
  revert cur. induction toks as [|t toks IH]; intros cur; [done|].
  simpl. destruct (_ >? 70); [done|apply IH].
Qed.

Lemma join_with_cons sep l ls :
  ls ≠ [] → join_with sep (l :: ls) = l ++ sep :: join_with sep ls.
Proof. by destruct ls. Qed.

Lemma join_lines_cons l ls :
  ls ≠ [] → join_lines (l :: ls) = l ++ "010"%char :: join_lines ls.
Proof. apply join_with_cons. Qed.

Lemma wrap_fill toks cur f :
  wrap toks (concat cur) f = f ++ join_lines (@concat ascii <$> fill toks cur).
Proof.
  revert cur f. induction toks as [|t toks IH]; intros cur f; [done|].
  cbn [wrap fill]. destruct (_ >? 70).
  - cbn [fmap list_fmap]. rewrite join_lines_cons; cycle 1.
    { intros H. apply fmap_nil_inv in H. by apply fill_nonempty in H. }
    specialize (IH [t] (f ++ concat cur ++ ["010"%char])).
    simpl concat in IH. rewrite app_nil_r in IH. rewrite IH.
    by rewrite <- !app_assoc.
  - rewrite <- IH. by rewrite concat_app, (concat_cons t), app_nil_r.
Qed.

(** The lines hold the tokens, whole and in order. *)
Lemma fill_concat toks cur : concat (fill toks cur) = cur ++ toks.
Proof.
  revert cur. induction toks as [|t toks IH]; intros cur.
  - simpl. by rewrite !app_nil_r.
  - simpl. destruct (_ >? 70).
    + simpl. by rewrite IH.
    + rewrite IH. by rewrite <- app_assoc.
Qed.

(** No line is longer than 70 characters. *)
Lemma fill_fits toks cur :
  (length (concat cur) ≤ 70)%nat →
  Forall (λ t : list ascii, (length t ≤ 70)%nat) toks →
  Forall (λ L : list (list ascii), (length (concat L) ≤ 70)%nat) (fill toks cur).
Proof.
  revert cur. induction toks as [|t toks IH]; intros cur Hcur Htoks.
  - simpl. by apply Forall_singleton.
  - apply Forall_cons in Htoks as [Ht Htoks]. simpl.
    destruct (_ >? 70) eqn:E.
    + apply Forall_cons. split; [done|]. apply IH; [|done].
      simpl. rewrite app_nil_r. done.
    + apply IH; [|done]. rewrite concat_app, length_app. simpl.
      rewrite app_nil_r. lia.
Qed.

(** A line ends only where the next token would not fit. *)
Lemma fill_breaks toks cur i L L' :
  fill toks cur !! i = Some L → fill toks cur !! S i = Some L' →
  ∃ t, head L' = Some t ∧ (70 < length (concat L) + length t)%nat.
Proof.
  revert cur i. induction toks as [|t toks IH]; intros cur i HL HL'; [done|].
  simpl in HL, HL'. destruct (_ >? 70) eqn:E; [|by eapply IH].
  destruct i as [|i]; [|by eapply IH].
  injection (HL : Some cur = Some L) as <-.
  change (fill toks [t] !! 0%nat = Some L') in HL'.
  exists t. split; [|lia].
  assert (∀ c, head c = Some t →
                      ∀ M, fill toks c !! 0%nat = Some M → head M = Some t) as H.
  { clear. induction toks as [|u toks IH']; intros c Hc M HM.
    - by injection (HM : Some c = Some M) as <-.
    - simpl in HM. destruct (_ >? 70).
      + by injection (HM : Some c = Some M) as <-.
      + eapply IH'; [|exact HM]. by destruct c. }
  exact (H [t] eq_refl L' HL').
Qed.

Lemma digit_char_is_digit d : 0 ≤ d < 10 → is_digit (digit_char d) = true.
Proof.
  intros Hd.
  assert (d = 0 ∨ d = 1 ∨ d = 2 ∨ d = 3 ∨ d = 4 ∨ d = 5 ∨ d = 6 ∨ d = 7
          ∨ d = 8 ∨ d = 9) as H by lia.
  by repeat (destruct H as [->|H]; [reflexivity|]); subst.
Qed.

Lemma digits_are_digits fuel n :
  0 ≤ n → Forall (λ c, is_digit c = true) (digits fuel n).
Proof.
  revert n. induction fuel as [|fuel IH]; intros n Hn; [by constructor|].
  simpl. apply Forall_app. split.
  - destruct (n <? 10); [by constructor|]. apply IH. by apply Z.div_pos.
  - apply Forall_singleton, digit_char_is_digit. by apply Z.mod_pos_bound.
Qed.

Lemma digits_length fuel n (k : nat) :
  0 ≤ n < 10 ^ Z.of_nat k → (1 ≤ k)%nat → (length (digits fuel n) ≤ k)%nat.
Proof.
  revert n k. induction fuel as [|fuel IH]; intros n k Hn Hk; [simpl; lia|].
  simpl. rewrite length_app. simpl. destruct (n <? 10) eqn:E; [simpl; lia|].
  destruct k as [|[|k]]; [lia|simpl in Hn; lia|].
  specialize (IH (n / 10) (S k)).
  rewrite Nat2Z.inj_succ, Z.pow_succ_r in Hn by lia.
  assert (0 ≤ n / 10 < 10 ^ Z.of_nat (S k)) as H.
  { split; [apply Z.div_pos; lia|]. apply Z.div_lt_upper_bound; lia. }
  specialize (IH H ltac:(lia)). lia.
Qed.

(** The text of a count that fits a machine word has at most 19 digits. *)
Lemma str_int_length n :
  0 ≤ n < 2 ^ 63 → (length (str_int n) ≤ 19)%nat.
Proof.
  intros Hn. unfold str_int. replace (n <? 0) with false by lia.
  apply digits_length; [|lia]. change (Z.of_nat 19) with 19. lia.
Qed.

Lemma str_int_length_signed z :
  - 2 ^ 63 < z < 2 ^ 63 → (length (str_int z) ≤ 20)%nat.
Proof.
  intros Hz. unfold str_int. destruct (z <? 0) eqn:E.
  - cbn [length]. apply le_n_S. apply digits_length; [|lia].
    change (Z.of_nat 19) with 19. lia.
  - etrans; [apply digits_length with (k := 19%nat)|]; [|lia|lia].
    change (Z.of_nat 19) with 19. lia.
Qed.

Lemma str_int_digits n :
  0 ≤ n → Forall (λ c, is_digit c = true) (str_int n).
Proof.
  intros Hn. unfold str_int. replace (n <? 0) with false by lia.
  by apply digits_are_digits.
Qed.

Lemma str_int_no_newline z : no_newline (str_int z).
Proof.
  unfold no_newline, str_int. destruct (z <? 0) eqn:E.
  - intros H. apply elem_of_cons in H as [H|H]; [done|].
    pose proof (digits_are_digits (S (Z.to_nat (Z.log2 (- z)))) (- z)
                  ltac:(lia)) as Hd.
    rewrite Forall_forall in Hd. by apply Hd in H.
  - intros H.
    pose proof (digits_are_digits (S (Z.to_nat (Z.log2 z))) z ltac:(lia)) as Hd.
    rewrite Forall_forall in Hd. by apply Hd in H.
Qed.

Lemma split_where_nil sep s :
  Forall (λ c, sep c = false) s → split_where sep s = [s].
Proof.
  induction 1 as [|c s Hc _ IH]; [done|]. simpl. by rewrite Hc, IH.
Qed.

Lemma split_where_app sep s c s' :
  Forall (λ c, sep c = false) s → sep c = true →
  split_where sep (s ++ c :: s') = s :: split_where sep s'.
Proof.
  intros Hs Hc. induction Hs as [|d s Hd _ IH]; simpl.
  - by rewrite Hc.
  - by rewrite Hd, IH.
Qed.

Lemma not_elem_sep (sep : ascii) s :
  sep ∉ s → Forall (λ c, bool_decide (c = sep) = false) s.
Proof.
  intros Hs. apply Forall_forall. intros c Hc.
  apply bool_decide_eq_false_2. intros ->. by apply Hs.
Qed.

Lemma no_newline_sep s :
  no_newline s → Forall (λ c, bool_decide (c = "010"%char) = false) s.
Proof. apply not_elem_sep. Qed.

(** Splitting undoes joining. *)
Lemma split_join_with sep ls :
  ls ≠ [] → Forall (λ l, sep ∉ l) ls → split sep (join_with sep ls) = ls.
Proof.
  intros Hne Hls. induction Hls as [|l ls Hl Hls IH]; [done|].
  destruct ls as [|l' ls].
  - simpl. apply split_where_nil. by apply not_elem_sep.
  - rewrite join_with_cons by done. unfold split.
    rewrite split_where_app;
      [|by apply not_elem_sep|by apply bool_decide_eq_true_2].
    f_equal. by apply IH.
Qed.

(** The physical lines of lines joined. *)
Lemma split_join_lines ls :
  ls ≠ [] → Forall no_newline ls → split "010"%char (join_lines ls) = ls.
Proof. apply split_join_with. Qed.

Lemma for_break_elem {A} (l : list A) stop x y :
  for_break l stop x = Some y → y ∈ l ∨ x = Some y.
Proof.
  revert x. induction l as [|z l IH]; intros x H; [by right|].
  simpl in H. destruct (stop z).
  - injection H as ->. left. by left.
  - apply IH in H as [H|H]; [left; by right|].
    injection H as ->. left. by left.
Qed.

Lemma elem_of_range n y : y ∈ range n → 0 ≤ y < n.
Proof.
  unfold range. intros H. apply list_elem_of_fmap in H as (k & -> & Hk).
  apply elem_of_seq in Hk. lia.
Qed.

Lemma elem_of_range2 a b y : y ∈ range2 a b → a ≤ y < b.
Proof.
  unfold range2. intros H. apply list_elem_of_fmap in H as (k & -> & Hk).
  apply elem_of_seq in Hk. lia.
Qed.

Lemma length_range2 a b : length (range2 a b) = Z.to_nat (b - a).
Proof. unfold range2. by rewrite length_fmap, length_seq. Qed.

Lemma foldl_invariant {A B} (P : A → Prop) (f : A → B → A) (l : list B) a :
  P a → (∀ a x, x ∈ l → P a → P (f a x)) → P (foldl f a l).
Proof.
  revert a. induction l as [|x l IH]; intros a Ha Hf; [done|].
  simpl. apply IH.
  - apply Hf; [by left|done].
  - intros a' y Hy. apply Hf. by right.
Qed.

Lemma for_fold_invariant {A S} (P : S → Prop) (l : list A) body s s' :
  P s → (∀ x s s', x ∈ l → P s → body x s = Ok s' → P s') →
  for_fold l body s = Ok s' → P s'.
Proof.
  revert s. induction l as [|x l IH]; intros s Hs Hbody Hrun.
  - by injection Hrun as <-.
  - simpl in Hrun. destruct (body x s) as [s1|e] eqn:E; [|done].
    apply (IH s1); [|intros y ? ? ?; apply Hbody; by right|done].
    eapply Hbody; [by left|done|done].
Qed.

(** A loop that appends one item per turn. *)
Lemma for_fold_collect {A B C} (f : A → result B) (h : B → C) l s0 s' :
  for_fold l (λ x s, v ← f x; mret (s ++ [h v])) s0 = Ok s' ↔
  ∃ vs, Forall2 (λ x v, f x = Ok v) l vs ∧ s' = s0 ++ (h <$> vs).
Proof.
  revert s0. induction l as [|x l IH]; intros s0.
  - simpl. split.
    + intros [= <-]. exists []. split; [constructor|by rewrite app_nil_r].
    + intros (vs & Hvs & ->). apply Forall2_nil_inv_l in Hvs as ->.
      by rewrite app_nil_r.
  - cbn [for_fold]. split.
    + destruct (f x) as [v|e] eqn:E; [|done]. cbn. intros H.
      apply IH in H as (vs & Hvs & ->). exists (v :: vs).
      split; [by constructor|]. by rewrite <- app_assoc.
    + intros (vs & Hvs & ->).
      apply Forall2_cons_inv_l in Hvs as (v & vs' & Hv & Hvs & ->).
      rewrite Hv. cbn. apply IH. exists vs'. split; [done|].
      by rewrite <- app_assoc.
Qed.

Lemma scan_row_columns g row minmax :
  column_or Inf g minmax.1 → column_or NegInf g minmax.2 →
  column_or Inf g (scan_row g row minmax).1
  ∧ column_or NegInf g (scan_row g row minmax).2.
Proof.
  intros H1 H2. unfold scan_row.
  apply (foldl_invariant
           (λ mm, column_or Inf g mm.1 ∧ column_or NegInf g mm.2)); [done|].
  intros [minCol maxCol] col Hcol [Hmin Hmax]. apply elem_of_range in Hcol.
  cbn [fst snd] in *.
  assert (column_or Inf g (Int col) ∧ column_or NegInf g (Int col)) as [? ?]
      by (split; right; eauto).
  destruct (cell_at g row col =? 1); [|done].
  destruct (num_lt (Int col) minCol); [done|].
  by destruct (num_lt maxCol (Int col)).
Qed.

Lemma scan_rows_columns g rs minmax :
  column_or Inf g minmax.1 → column_or NegInf g minmax.2 →
  column_or Inf g (scan_rows g rs minmax).1
  ∧ column_or NegInf g (scan_rows g rs minmax).2.
Proof.
  revert minmax. induction rs as [|row rs IH]; intros minmax H1 H2; [done|].
  simpl. pose proof (scan_row_columns g row minmax H1 H2) as [H1' H2'].
  destruct (scan_row g row minmax) as [minCol maxCol].
  destruct (_ && _); [done|]. by apply IH.
Qed.

Lemma findBoundaries_columns g top bot minCol maxCol :
  findBoundaries g = Ok (top, bot, minCol, maxCol) →
  0 ≤ top < shape0 g ∧ 0 ≤ bot < shape0 g
  ∧ column_or Inf g minCol ∧ column_or NegInf g maxCol.
Proof.
  unfold findBoundaries.
  destruct (for_break (range _) _ _) as [t|] eqn:Et; [|done].
  destruct (for_break (reverse _) _ _) as [b|] eqn:Eb; [|done].
  pose proof (scan_rows_columns g (range2 t (b + 1)) (Inf, NegInf)
                ltac:(by left) ltac:(by left)) as [H1 H2].
  destruct (scan_rows _ _ _) as [mn mx]. intros [= <- <- <- <-].
  apply for_break_elem in Et as [Et|Et]; [|done].
  apply for_break_elem in Eb as [Eb|Eb]; [|done].
  rewrite elem_of_reverse in Eb. apply elem_of_range in Et, Eb. done.
Qed.

Lemma groupby_groups s :
  Forall (λ g : ascii * Z, g.1 ∈ s ∧ 1 ≤ g.2 ≤ Z.of_nat (length s)) (groupby s).
Proof.
  induction s as [|c s IH]; [constructor|].
  assert (∀ g : ascii * Z, g.1 ∈ s ∧ 1 ≤ g.2 ≤ Z.of_nat (length s) →
          g.1 ∈ c :: s ∧ 1 ≤ g.2 ≤ Z.of_nat (length (c :: s))) as Hweak.
  { intros g [H1 H2]. split; [by right|]. simpl length. lia. }
  simpl groupby. destruct (groupby s) as [|[c' n] gs].
  - apply Forall_singleton. split; [by left|]. simpl. lia.
  - apply Forall_cons in IH as [[Hc' Hn] IH]. simpl in Hc', Hn.
    case_bool_decide.
    + apply Forall_cons. split.
      * split; [by left|]. simpl fst. simpl snd. simpl length. lia.
      * eapply Forall_impl; [exact IH|]. exact Hweak.
    + apply Forall_cons. split; [|apply Forall_cons; split].
      * split; [by left|]. simpl. lia.
      * apply Hweak. done.
      * eapply Forall_impl; [exact IH|]. exact Hweak.
Qed.

Lemma encodeGrid_groups g top bot minCol maxCol w G :
  (∀ cols, range_num minCol (num_add maxCol (Int 1)) = Ok cols →
           Z.of_nat (length cols) ≤ w) →
  encodeGrid g top bot minCol maxCol = Ok G →
  Forall (group_within w) G.
Proof.
  intros Hw. unfold encodeGrid.
  apply for_fold_invariant; [constructor|].
  intros row acc acc' _ Hacc Hbody.
  destruct (range_num _ _) as [cols|] eqn:Ecols; [|done].
  cbn [mbind result_bind] in Hbody.
  destruct (for_fold cols _ []) as [rowString|] eqn:Erow; [|done].
  cbn [mbind result_bind] in Hbody.
  apply (for_fold_collect (λ col, getitem2 g row col)
           (λ cell, if cell =? 1 then "o"%char else "b"%char)) in Erow
    as (vs & Hvs & ->).
  simpl in Hbody.
  assert (Forall (group_within w) (groupby
            ((λ cell, if cell =? 1 then "o"%char else "b"%char) <$> vs)))
    as Hgroups.
  { eapply Forall_impl; [apply groupby_groups|].
    intros [tag n] [Htag Hn]. simpl in Htag, Hn.
    rewrite length_fmap in Hn. apply Forall2_length in Hvs.
    specialize (Hw cols eq_refl). split; simpl; [|lia].
    apply list_elem_of_fmap in Htag as (v & -> & _).
    destruct (v =? 1); set_solver. }
  assert (∀ t, t ∈ ["$"; "!"]%char → group_within w (t, 1)) as Hterm.
  { intros t Ht. split; simpl; [set_solver|lia]. }
  destruct (negb _); injection Hbody as <-;
    repeat (apply Forall_app; split); try done;
    apply Forall_singleton, Hterm; set_solver.
Qed.

Lemma emitted_Forall (P : ascii * Z → Prop) G :
  Forall P G → Forall P (emitted G).
Proof.
  induction 1 as [|g G Hg HG IH]; [constructor|].
  cbn [emitted]. destruct G as [|g2 [|g3 G]].
  - by apply Forall_singleton.
  - case_bool_decide; [done|]. by apply Forall_cons.
  - apply Forall_cons. split; [done|]. exact IH.
Qed.

Lemma no_newline_app a b : no_newline a → no_newline b → no_newline (a ++ b).
Proof. unfold no_newline. intros Ha Hb H. apply elem_of_app in H. tauto. Qed.

Lemma no_newline_concat L : Forall no_newline L → no_newline (concat L).
Proof.
  induction 1 as [|l L Hl _ IH]; simpl.
  - unfold no_newline. apply not_elem_of_nil.
  - by apply no_newline_app.
Qed.

Lemma str_no_newline a : no_newline (str a).
Proof.
  destruct a; simpl; [apply str_int_no_newline|..];
    by apply (bool_decide_unpack _).
Qed.

Lemma token_text_fits w g :
  w < 2 ^ 63 → group_within w g →
  (length (token_text g) ≤ 70)%nat ∧ no_newline (token_text g).
Proof.
  intros Hw [Htag Hn]. destruct g as [tag n]. simpl in Htag, Hn.
  assert (no_newline [tag]) as Hnl.
  { unfold no_newline. intros H. apply list_elem_of_singleton in H as <-.
    revert Htag. by apply (bool_decide_unpack _). }
  unfold token_text. simpl. destruct (n =? 1); [simpl; split; [lia|done]|].
  split.
  - rewrite length_app. simpl.
    pose proof (str_int_length n ltac:(lia)). lia.
  - apply no_newline_app; [apply str_int_no_newline|done].
Qed.

Lemma range_num_within g minCol maxCol cols :
  column_or Inf g minCol → column_or NegInf g maxCol →
  range_num minCol (num_add maxCol (Int 1)) = Ok cols →
  Z.of_nat (length cols) ≤ shape1 g.
Proof.
  intros [->|(a & -> & Ha)]; [done|].
  intros [->|(b & -> & Hb)]; [done|].
  simpl. intros [= <-]. rewrite length_range2. lia.
Qed.

(** The header line is short and has no newline. *)
Lemma header_fits g top bot minCol maxCol :
  shape0 g < 2 ^ 63 → shape1 g < 2 ^ 63 →
  findBoundaries g = Ok (top, bot, minCol, maxCol) →
  let header := txt "x = " ++ str (num_add (num_sub maxCol minCol) (Int 1))
                ++ txt ", y = " ++ str_int (bot - top + 1) in
  (length header ≤ 70)%nat ∧ no_newline header.
Proof.
  intros H0 H1 Hb header.
  apply findBoundaries_columns in Hb as (Htop & Hbot & Hmin & Hmax).
  assert (length (str (num_add (num_sub maxCol minCol) (Int 1))) ≤ 20)%nat.
  { destruct Hmin as [->|(a & -> & Ha)], Hmax as [->|(b & -> & Hb)];
      simpl; try lia.
    apply str_int_length_signed. lia. }
  pose proof (str_int_length_signed (bot - top + 1) ltac:(lia)).
  split.
  - unfold header. rewrite !length_app. simpl. lia.
  - unfold header. repeat apply no_newline_app;
      try apply str_no_newline; try apply str_int_no_newline;
      by apply (bool_decide_unpack _).
Qed.

End writing.

(** C6. Whatever [writeRLE] writes, no line of the file is longer than 70
    characters. When it ends by itself, the file is the header line followed
    by lines that are each made of whole tokens (the text of a run with its
    count, [$] or [!]), in the order of the groups, and a line ends only
    where the next token would have made it longer than 70 characters.
    (The dimensions of a numpy array are machine integers.) *)
Theorem writeRLE_wraps_at_70 (g : ndarray) :
  shape0 g < 2 ^ 63 → shape1 g < 2 ^ 63 →
  ∃ text out,
    writeRLE g = Some (text, out)
    ∧ Forall (λ line : list ascii, (length line ≤ 70)%nat)
        (split "010"%char text)
    ∧ (out = Ok () →
       ∃ top bot minCol maxCol RLEgroups header
         (lines : list (list (list ascii))),
         findBoundaries g = Ok (top, bot, minCol, maxCol)
         ∧ encodeGrid g top bot minCol maxCol = Ok RLEgroups
         ∧ concat lines = token_text <$> emitted RLEgroups
         ∧ split "010"%char text = header :: (@concat ascii <$> lines)
         ∧ ∀ i L L', lines !! i = Some L → lines !! S i = Some L' →
             ∃ t, head L' = Some t
                  ∧ (70 < length (concat L) + length t)%nat).
Proof.
  intros H0 H1. unfold writeRLE.
  destruct (findBoundaries g) as [[[[top bot] minCol] maxCol]|e] eqn:Hb.
  2:{ eexists _, _. split; [done|]. split; [|done].
      apply (Forall_singleton _ []). simpl. lia. }
  pose proof (header_fits g top bot minCol maxCol H0 H1 Hb) as [Hlen Hnl].
  set (header := txt "x = " ++ str (num_add (num_sub maxCol minCol) (Int 1))
                 ++ txt ", y = " ++ str_int (bot - top + 1)) in *.
  assert (∀ rest, txt "x = " ++ str (num_add (num_sub maxCol minCol) (Int 1))
                  ++ txt ", y = " ++ str_int (bot - top + 1) ++ rest
                  = header ++ rest) as Hhdr.
  { intros rest. unfold header. by rewrite <- !app_assoc. }
  rewrite Hhdr.
  assert (split "010"%char (header ++ ["010"%char]) = [header; []]) as Hsplit.
  { unfold split. rewrite split_where_app;
      [done|by apply no_newline_sep|done]. }
  destruct (encodeGrid g top bot minCol maxCol) as [G|e] eqn:He.
  2:{ eexists _, _. split; [done|]. split; [|done].
      rewrite Hsplit. apply Forall_cons. split; [done|].
      apply Forall_singleton. simpl. lia. }
  destruct (decide (G = [])) as [->|HG].
  { eexists _, _. split; [reflexivity|]. split; [|done].
    rewrite Hsplit. apply Forall_cons. split; [done|].
    apply Forall_singleton. simpl. lia. }
  pose proof (findBoundaries_columns _ _ _ _ _ Hb) as (_ & _ & Hmin & Hmax).
  pose proof (encodeGrid_groups g top bot minCol maxCol (shape1 g) G
                (λ cols, range_num_within g minCol maxCol cols Hmin Hmax) He)
    as Hgroups.
  apply emitted_Forall in Hgroups.
  assert (Forall (λ t : list ascii, (length t ≤ 70)%nat ∧ no_newline t)
            (token_text <$> emitted G)) as Htoks.
  { apply Forall_fmap. eapply Forall_impl; [exact Hgroups|].
    intros gr Hgr. by apply (token_text_fits (shape1 g)). }
  apply Forall_and in Htoks as [Hfit Hnonl].
  rewrite (writeRLE_loop_wrap G [] [] _ (S (length G)) HG ltac:(lia)).
  rewrite (wrap_fill _ []).
  set (lines := fill (token_text <$> emitted G) []).
  assert (split "010"%char
            ((header ++ ["010"%char]) ++ join_lines (@concat ascii <$> lines))
          = header :: (@concat ascii <$> lines)) as Hphys.
  { rewrite <- app_assoc.
    change (["010"%char] ++ ?l) with ("010"%char :: l).
    rewrite <- (join_lines_cons header); cycle 1.
    { intros H. apply fmap_nil_inv in H. by apply fill_nonempty in H. }
    apply split_join_lines; [done|]. apply Forall_cons. split; [done|].
    apply Forall_fmap, Forall_forall. intros L HL. simpl.
    apply no_newline_concat, Forall_forall. intros t Ht.
    rewrite Forall_forall in Hnonl. apply Hnonl.
    rewrite <- (app_nil_l (token_text <$> emitted G)).
    rewrite <- (fill_concat _ []). apply list_elem_of_In, in_concat.
    exists L. split; by apply list_elem_of_In. }
  eexists _, _. split; [reflexivity|]. split; [|intros _].
  - rewrite Hphys. apply Forall_cons. split; [done|].
    apply Forall_fmap. apply (fill_fits _ []); [simpl; lia|done].
  - exists top, bot, minCol, maxCol, G, header, lines.
    split_and!; try done.
    + unfold lines. by rewrite fill_concat.
    + intros i L L'. apply fill_breaks.
Qed.

Section reading.

Lemma digit_val_char d : 0 ≤ d < 10 → digit_val (digit_char d) = d.
Proof.
  intros Hd.
  assert (d = 0 ∨ d = 1 ∨ d = 2 ∨ d = 3 ∨ d = 4 ∨ d = 5 ∨ d = 6 ∨ d = 7
          ∨ d = 8 ∨ d = 9) as H by lia.
  by repeat (destruct H as [->|H]; [reflexivity|]); subst.
Qed.

(** Reading the digits of [n] gives [n] back. *)
Lemma int_digits_digits fuel n acc seen rest :
  0 ≤ n < 10 ^ Z.of_nat fuel → (1 ≤ fuel)%nat →
  int_digits (digits fuel n ++ rest) acc seen
  = int_digits rest (acc * 10 ^ Z.of_nat (length (digits fuel n)) + n) true.
Proof.
  revert n acc seen rest. induction fuel as [|fuel IH];
    intros n acc seen rest Hn Hfuel; [lia|].
  rewrite Nat2Z.inj_succ, Z.pow_succ_r in Hn by lia.
  pose proof (Z.mod_pos_bound n 10 ltac:(lia)) as Hmod.
  pose proof (Z.div_mod n 10 ltac:(lia)) as Hdiv.
  cbn [digits]. destruct (n <? 10) eqn:E.
  - cbn [app length int_digits].
    rewrite digit_char_is_digit, digit_val_char by done.
    f_equal. rewrite Z.mod_small by lia. change (10 ^ Z.of_nat 1) with 10. lia.
  - assert (0 ≤ n `div` 10 < 10 ^ Z.of_nat fuel) as Hq.
    { split; [apply Z.div_pos; lia|]. apply Z.div_lt_upper_bound; lia. }
    assert (1 ≤ n `div` 10) by (apply Z.div_le_lower_bound; lia).
    rewrite <- app_assoc. rewrite IH; [|done|]; cycle 1.
    { destruct fuel; [simpl in Hq; lia|lia]. }
    cbn [app int_digits].
    rewrite digit_char_is_digit, digit_val_char by done.
    f_equal. rewrite length_app. cbn [length].
    rewrite Nat2Z.inj_add, Z.pow_add_r by lia.
    change (10 ^ Z.of_nat 1) with 10. lia.
Qed.

Lemma log2_fuel n : 0 ≤ n → n < 10 ^ Z.of_nat (S (Z.to_nat (Z.log2 n))).
Proof.
  intros Hn. destruct (decide (n = 0)) as [->|Hn0]; [done|].
  rewrite Nat2Z.inj_succ, Z2Nat.id by apply Z.log2_nonneg.
  pose proof (Z.log2_spec n ltac:(lia)) as [_ H].
  eapply Z.lt_le_trans; [exact H|].
  apply Z.pow_le_mono_l. pose proof (Z.log2_nonneg n). lia.
Qed.

Lemma digits_nonempty fuel n : digits (S fuel) n ≠ [].
Proof. simpl. by destruct (if n <? 10 then [] else _). Qed.

Lemma str_int_not_space z : Forall (λ c, is_space c = false) (str_int z).
Proof.
  assert (∀ c, is_digit c = true → is_space c = false) as Hd.
  { intros c. unfold is_digit, is_space.
    generalize (nat_of_ascii c). intros n Hn.
    apply andb_true_iff in Hn as [H1 H2].
    apply Nat.leb_le in H1, H2.
    apply orb_false_iff. split; apply andb_false_iff.
    - right. apply Nat.leb_gt. lia.
    - right. apply Nat.leb_gt. lia. }
  unfold str_int. destruct (z <? 0) eqn:E.
  - apply Forall_cons. split; [done|].
    eapply Forall_impl; [apply digits_are_digits; lia|]. exact Hd.
  - eapply Forall_impl; [apply digits_are_digits; lia|]. exact Hd.
Qed.

Lemma lstrip_solid s : Forall (λ c, is_space c = false) s → lstrip s = s.
Proof. destruct 1 as [|c s Hc _]; [done|]. simpl. by rewrite Hc. Qed.

(** [strip] leaves alone a text that neither starts nor ends with white
    space. *)
Lemma strip_inner c s d :
  is_space c = false → is_space d = false →
  strip (c :: s ++ [d]) = c :: s ++ [d].
Proof.
  intros Hc Hd. unfold strip.
  assert (lstrip (c :: s ++ [d]) = c :: s ++ [d]) as ->
      by (cbn [lstrip]; by rewrite Hc).
  assert (reverse (c :: s ++ [d]) = d :: (reverse s ++ [c])) as Hr
      by (by rewrite reverse_cons, reverse_app).
  rewrite Hr. cbn [lstrip]. rewrite Hd, <- Hr. apply reverse_involutive.
Qed.

Lemma strip_solid s : Forall (λ c, is_space c = false) s → strip s = s.
Proof.
  intros Hs. unfold strip. rewrite (lstrip_solid s) by done.
  rewrite lstrip_solid by (apply Forall_forall; intros c Hc;
    rewrite elem_of_reverse in Hc; by eapply Forall_forall in Hs).
  apply reverse_involutive.
Qed.

Lemma int_str_int z : int (str_int z) = Ok z.
Proof.
  unfold int. rewrite strip_solid by apply str_int_not_space.
  unfold str_int. destruct (z <? 0) eqn:E.
  - rewrite bool_decide_eq_true_2 by done.
    rewrite <- (app_nil_r (digits _ _)).
    rewrite int_digits_digits by (first [lia | split; [lia|apply log2_fuel; lia]]).
    simpl. f_equal. lia.
  - pose proof (digits_nonempty (Z.to_nat (Z.log2 z)) z) as Hne.
    pose proof (digits_are_digits (S (Z.to_nat (Z.log2 z))) z ltac:(lia)) as Hd.
    destruct (digits _ z) as [|c s] eqn:Ed; [done|].
    apply Forall_cons in Hd as [Hc _].
    rewrite bool_decide_eq_false_2 by (intros ->; done).
    rewrite bool_decide_eq_false_2 by (intros ->; done).
    rewrite <- Ed. rewrite <- (app_nil_r (digits _ _)).
    rewrite int_digits_digits by (first [lia | split; [lia|apply log2_fuel; lia]]).
    simpl. done.
Qed.

(** The same with white space before the number, as in [x = 3]. *)
Lemma int_space_str_int z : int (" "%char :: str_int z) = Ok z.
Proof.
  transitivity (int (str_int z)); [|apply int_str_int].
  unfold int, strip. cbn [lstrip]. change (is_space " ") with true. done.
Qed.

Lemma file_lines_line l : no_newline l → l ≠ [] → file_lines l = [l].
Proof.
  intros Hl Hne. induction l as [|c l IH]; [done|]. cbn [file_lines].
  rewrite bool_decide_eq_false_2 by (intros ->; apply Hl; by left).
  destruct l as [|d l]; [done|].
  rewrite IH; [done| |done]. intros H. apply Hl. by right.
Qed.

Lemma file_lines_app l rest :
  no_newline l →
  file_lines (l ++ "010"%char :: rest) = (l ++ ["010"%char]) :: file_lines rest.
Proof.
  intros Hl. induction l as [|c l IH]; [done|]. cbn [app file_lines].
  rewrite bool_decide_eq_false_2 by (intros ->; apply Hl; by left).
  rewrite IH; [done|]. intros H. apply Hl. by right.
Qed.

Lemma last_snoc_cons {A} (c : A) s d : last (c :: s ++ [d]) = Some d.
Proof. by rewrite app_comm_cons, last_snoc. Qed.

Lemma strip_trimmed l : trimmed l → strip l = l.
Proof.
  intros (_ & (c & Hc & Hsp) & Hlast).
  destruct l as [|c' s]; [done|]. injection Hc as ->.
  destruct s as [|d s _] using rev_ind.
  - unfold strip. cbn [lstrip]. rewrite Hsp. cbn. by rewrite Hsp.
  - apply strip_inner; [done|]. apply Hlast, last_snoc_cons.
Qed.

Lemma strip_trimmed_newline l : trimmed l → strip (l ++ ["010"%char]) = l.
Proof.
  intros Hl. rewrite <- (strip_trimmed l Hl) at 2.
  destruct Hl as (_ & (c & Hc & Hsp) & _).
  destruct l as [|c' s]; [done|]. injection Hc as ->.
  unfold strip. cbn [app lstrip]. rewrite Hsp. f_equal.
  rewrite (reverse_cons (s ++ _) c), reverse_app, (reverse_cons s c).
  change (reverse ["010"%char]) with ["010"%char]. cbn [app lstrip].
  by change (is_space "010") with true.
Qed.

(** The lines [parseRLE] sees in a file of trimmed lines. *)
Lemma content_join_lines ls :
  Forall trimmed ls → strip <$> file_lines (join_lines ls) = ls.
Proof.
  induction 1 as [|l ls Hl Hls IH]; [done|].
  destruct ls as [|l' ls].
  - simpl. rewrite file_lines_line; [|apply Hl|].
    + simpl. by rewrite strip_trimmed.
    + destruct Hl as (_ & (c & Hc & _) & _). by destruct l.
  - rewrite join_lines_cons by done. rewrite file_lines_app by apply Hl.
    rewrite fmap_cons, IH. by rewrite strip_trimmed_newline.
Qed.

Lemma getitem_head {A} (l : list A) c : head l = Some c → getitem l 0 = Ok c.
Proof. destruct l; [done|]. by intros [= ->]. Qed.

Lemma getitem_last {A} (l : list A) d : last l = Some d → getitem l (-1) = Ok d.
Proof.
  intros Hl. destruct l as [|d' l _] using rev_ind; [done|].
  rewrite last_snoc in Hl. injection Hl as ->.
  unfold getitem, norm_index.
  assert (Z.of_nat (length (l ++ [d])) = Z.of_nat (length l) + 1) as ->
      by (rewrite length_app; simpl; lia).
  change (-1 <? 0) with true. cbv iota.
  destruct (Z.leb_spec 0 (-1 + (Z.of_nat (length l) + 1))); [|lia].
  destruct (Z.ltb_spec (-1 + (Z.of_nat (length l) + 1))
              (Z.of_nat (length l) + 1)); [|lia].
  cbn. replace (Z.to_nat (-1 + (Z.of_nat (length l) + 1))) with (length l) by lia.
  by rewrite list_lookup_middle.
Qed.

(** The loop over the lines on body lines of which the last, and only the
    last, ends with [!]. *)
Lemma parseRLE_lines_body lines final acc xv yv :
  Forall (λ l, body_line l ∧ ∃ d, last l = Some d ∧ d ≠ "!"%char) lines →
  body_line final → last final = Some "!"%char →
  parseRLE_lines (lines ++ [final]) acc xv yv
  = Ok (removelast (acc ++ concat (lines ++ [final])), xv, yv).
Proof.
  intros Hlines (c & Hc & Hc1 & Hc2) Hfinal. revert acc.
  induction Hlines as [|l lines [(b & Hb & Hb1 & Hb2) (d & Hd & Hd1)] _ IH];
    intros acc.
  - cbn [app parseRLE_lines]. rewrite (getitem_head _ _ Hc).
    rewrite !bool_decide_eq_false_2 by done. cbn.
    rewrite (getitem_last _ _ Hfinal). cbn. by rewrite app_nil_r.
  - cbn [app parseRLE_lines]. rewrite (getitem_head _ _ Hb).
    rewrite !bool_decide_eq_false_2 by done. cbn.
    rewrite (getitem_last _ _ Hd). rewrite bool_decide_eq_false_2 by done.
    rewrite IH. by rewrite <- app_assoc.
Qed.

Lemma str_int_numeric z : Forall numeric (str_int z).
Proof.
  unfold str_int. destruct (z <? 0) eqn:E.
  - apply Forall_cons. split; [by right|].
    eapply Forall_impl; [apply digits_are_digits; lia|]. by left.
  - eapply Forall_impl; [apply digits_are_digits; lia|]. by left.
Qed.

Lemma str_int_nonempty z : str_int z ≠ [].
Proof. unfold str_int. destruct (z <? 0); [done|apply digits_nonempty]. Qed.

(** A numeric character is none of the characters that structure a file. *)
Lemma numeric_plain c :
  numeric c →
  (c ∉ [","; "="; "!"; "$"; "b"; "o"; "#"; "x"; "010"]%char)
  ∧ is_space c = false.
Proof.
  intros [H| ->]; [|split; (by apply (bool_decide_unpack _))].
  split.
  - intros Hc. repeat (apply elem_of_cons in Hc as [->|Hc]; [done|]).
    by apply elem_of_nil in Hc.
  - revert H. unfold is_digit, is_space. generalize (nat_of_ascii c).
    intros n Hn. apply andb_true_iff in Hn as [H1 H2].
    apply Nat.leb_le in H1, H2.
    apply orb_false_iff. split; apply andb_false_iff; right;
      apply Nat.leb_gt; lia.
Qed.

Lemma str_int_without (c : ascii) z :
  c ∈ [","; "="; "!"; "$"; "b"; "o"; "#"; "x"; "010"]%char →
  Forall (λ d, bool_decide (d = c) = false) (str_int z).
Proof.
  intros Hc. eapply Forall_impl; [apply str_int_numeric|].
  intros d Hd. apply bool_decide_eq_false_2. intros ->.
  by apply numeric_plain in Hd as [Hd _].
Qed.

Lemma str_int_last z : ∃ d, last (str_int z) = Some d ∧ numeric d.
Proof.
  pose proof (str_int_nonempty z) as Hne.
  pose proof (str_int_numeric z) as Hnum.
  destruct (str_int z) as [|d s _] using rev_ind; [done|].
  exists d. rewrite last_snoc. split; [done|].
  apply Forall_app in Hnum as [_ Hd]. exact (proj1 (Forall_singleton _ _) Hd).
Qed.

Lemma header_line_last x y :
  ∃ d, last (header_line x y) = Some d ∧ numeric d.
Proof.
  destruct (str_int_last y) as (d & Hd & Hnum). exists d. split; [|done].
  unfold header_line. rewrite !app_assoc.
  destruct (str_int y) as [|d' s _] using rev_ind; [done|].
  rewrite last_snoc in Hd. injection Hd as ->.
  by rewrite app_assoc, last_snoc.
Qed.

Lemma header_line_trimmed x y : trimmed (header_line x y).
Proof.
  split; [|split].
  - unfold header_line. repeat apply no_newline_app;
      try apply str_int_no_newline; by apply (bool_decide_unpack _).
  - by exists "x"%char.
  - intros d Hd. destruct (header_line_last x y) as (d' & Hd' & Hnum).
    rewrite Hd in Hd'. injection Hd' as <-. by apply numeric_plain.
Qed.

Lemma strip_space l : strip (" "%char :: l) = strip l.
Proof. unfold strip. cbn [lstrip]. by change (is_space " ") with true. Qed.

Lemma field_trimmed (name : ascii) z :
  is_space name = false → name ≠ "010"%char →
  trimmed (name :: txt " = " ++ str_int z).
Proof.
  intros Hname Hnl. split; [|split].
  - apply (no_newline_app [name]).
    + unfold no_newline. intros H%list_elem_of_singleton. congruence.
    + apply no_newline_app; [by apply (bool_decide_unpack _)|].
      apply str_int_no_newline.
  - by exists name.
  - intros d Hd. destruct (str_int_last z) as (d' & Hd' & Hnum).
    destruct (str_int z) as [|e s _] using rev_ind; [done|].
    rewrite last_snoc in Hd'. injection Hd' as ->.
    change (name :: txt " = " ++ s ++ [d'])
      with ((name :: txt " = ") ++ s ++ [d']) in Hd.
    rewrite app_assoc, last_snoc in Hd. injection Hd as <-.
    by apply numeric_plain.
Qed.

(** The value of a field [name = z] of the header. *)
Lemma field_value (name : ascii) z :
  is_space name = false → name ≠ "010"%char → name ≠ "="%char →
  (v ← getitem (split "="%char (strip (name :: txt " = " ++ str_int z))) 1;
   int v) = Ok z.
Proof.
  intros Hname Hnl Heq. rewrite strip_trimmed by by apply field_trimmed.
  unfold split.
  change (name :: txt " = " ++ str_int z)
    with ([name; " "%char] ++ "="%char :: " "%char :: str_int z).
  rewrite split_where_app; cycle 1.
  { repeat constructor; by apply bool_decide_eq_false_2. }
  { done. }
  rewrite split_where_nil; cycle 1.
  { apply Forall_cons. split; [done|]. apply str_int_without. set_solver. }
  cbn. apply int_space_str_int.
Qed.

Lemma split_header_line x y :
  split ","%char (header_line x y)
  = ["x"%char :: txt " = " ++ str_int x;
     " "%char :: "y"%char :: txt " = " ++ str_int y].
Proof.
  unfold header_line, split. rewrite app_assoc.
  change (txt ", y = " ++ str_int y)
    with (","%char :: " "%char :: "y"%char :: txt " = " ++ str_int y).
  rewrite split_where_app; cycle 1.
  { apply Forall_app. split; [by repeat constructor|].
    apply str_int_without. set_solver. }
  { done. }
  rewrite split_where_nil; [done|].
  repeat (apply Forall_cons; split; [done|]).
  apply str_int_without. set_solver.
Qed.

(** The loop over the lines on the header line. *)
Lemma parseRLE_lines_header x y rest acc xv yv :
  parseRLE_lines (header_line x y :: rest) acc xv yv
  = parseRLE_lines rest acc (Some x) (Some y).
Proof.
  cbn [parseRLE_lines].
  rewrite (getitem_head _ "x"%char) by done.
  rewrite bool_decide_eq_false_2 by done.
  rewrite bool_decide_eq_true_2 by done.
  rewrite split_header_line.
  change (getitem [?a; ?b] 0) with (Ok a).
  change (getitem [?a; ?b] 1) with (Ok b).
  cbn [mbind result_bind]. rewrite strip_space.
  pose proof (field_value "x"%char x eq_refl ltac:(done) ltac:(done)) as Hx.
  pose proof (field_value "y"%char y eq_refl ltac:(done) ltac:(done)) as Hy.
  destruct (getitem (split "=" (strip ("x"%char :: _))) 1) as [vx|]; [|done].
  cbn [mbind result_bind] in Hx |- *. rewrite Hx. cbn [mbind result_bind].
  destruct (getitem (split "=" (strip ("y"%char :: _))) 1) as [vy|]; [|done].
  cbn [mbind result_bind] in Hy |- *. rewrite Hy. cbn [mbind result_bind mret result_ret].
  destruct (header_line_last x y) as (d & Hd & Hnum).
  rewrite (getitem_last _ _ Hd).
  rewrite bool_decide_eq_false_2; [done|].
  intros ->. apply numeric_plain in Hnum as [Hnum _]. set_solver.
Qed.

Lemma runs_tags runs trailing :
  runs_wf runs → Forall (λ c, is_tag c = false) trailing →
  filter (λ c, is_tag c) (concat (run_text <$> runs) ++ trailing) = snd <$> runs.
Proof.
  intros Hruns Htrail. induction Hruns as [|[text tag] runs [Htext Htag] _ IH].
  - simpl. induction Htrail as [|c s Hc _ IH]; [done|].
    rewrite filter_cons_False; [done|]. intros H. by rewrite Hc in H.
  - cbn [fmap list_fmap concat]. unfold run_text at 1. cbn [fst snd] in *.
    rewrite <- !app_assoc, filter_app. cbn [app].
    rewrite filter_cons_True by (by rewrite Htag). rewrite IH.
    assert (filter (λ c, is_tag c) text = []) as ->; [|done].
    clear -Htext. induction Htext as [|c s Hc _ IH]; [done|].
    rewrite filter_cons_False; [done|]. intros H. by rewrite Hc in H.
Qed.

Lemma runs_texts runs trailing :
  runs_wf runs → Forall (λ c, is_tag c = false) trailing →
  split_where is_tag (concat (run_text <$> runs) ++ trailing)
  = (fst <$> runs) ++ [trailing].
Proof.
  intros Hruns Htrail. induction Hruns as [|[text tag] runs [Htext Htag] _ IH].
  - simpl. by apply split_where_nil.
  - cbn [fmap list_fmap concat]. unfold run_text at 1. cbn [fst snd] in *.
    rewrite <- !app_assoc. cbn [app].
    rewrite split_where_app by done. by rewrite IH.
Qed.

(** A loop over the indices of two lists is a loop over their pairs. *)
Lemma for_fold_indexed_from {A B S} (body : A → B → S → result S)
    (rest1 : list A) :
  ∀ (rest2 : list B) pre1 pre2 s,
    length pre1 = length pre2 → (length rest1 ≤ length rest2)%nat →
    for_fold (Z.of_nat <$> seq (length pre1) (length rest1))
      (λ i acc, a ← getitem (pre1 ++ rest1) i;
                b ← getitem (pre2 ++ rest2) i;
                body a b acc) s
    = for_fold (zip rest1 rest2) (λ ab acc, body ab.1 ab.2 acc) s.
Proof.
  induction rest1 as [|a rest1 IH]; intros rest2 pre1 pre2 s Hpre Hlen; [done|].
  destruct rest2 as [|b rest2]; [simpl in Hlen; lia|].
  cbn [length seq fmap list_fmap for_fold zip zip_with].
  rewrite getitem_app_middle. rewrite Hpre, getitem_app_middle.
  cbn [mbind result_bind fst snd]. destruct (body a b s) as [s'|e]; [|done].
  specialize (IH rest2 (pre1 ++ [a]) (pre2 ++ [b]) s').
  rewrite !length_app, <- !app_assoc in IH. cbn [length app] in IH.
  rewrite Nat.add_1_r in IH. rewrite <- Hpre. apply IH; [|simpl in Hlen]; lia.
Qed.

Lemma for_fold_indexed {A B S} (body : A → B → S → result S) l1 l2 s :
  (length l1 ≤ length l2)%nat →
  for_fold (range (Z.of_nat (length l1)))
    (λ i acc, a ← getitem l1 i; b ← getitem l2 i; body a b acc) s
  = for_fold (zip l1 l2) (λ ab acc, body ab.1 ab.2 acc) s.
Proof.
  intros Hlen. unfold range. rewrite Nat2Z.id.
  by apply (for_fold_indexed_from body l1 l2 [] []).
Qed.

Lemma const_range {A} (v : A) n : (λ _ : Z, v) <$> range n = replicate (Z.to_nat n) v.
Proof.
  unfold range. generalize (Z.to_nat n). intros k. generalize 0%nat.
  induction k as [|k IH]; intros j; [done|]. simpl. f_equal. apply IH.
Qed.

Lemma int_raises s : (∃ n, int s = Ok n) ∨ int s = Raise ValueError.
Proof. unfold int. destruct (match strip s with [] => _ | _ => _ end); eauto. Qed.

Lemma run_count_int text :
  match int text with
  | Ok n => Ok n
  | Raise ValueError => Ok 1
  | Raise e => Raise e
  end = Ok (run_count text).
Proof. unfold run_count. by destruct (int_raises text) as [[n ->]| ->]. Qed.

(** The loop over the runs of a row. *)
Lemma parseRLE_row_loop runs trailing acc :
  for_fold (zip (snd <$> runs) ((fst <$> runs) ++ [trailing]))
    (λ ab gridLine,
       curCt ← match int ab.2 with
               | Ok n => Ok n
               | Raise ValueError => Ok 1
               | Raise e => Raise e
               end;
       if bool_decide (ab.1 = "b"%char)
       then mret (gridLine ++ ((λ _, 0) <$> range curCt))
       else mret (gridLine ++ ((λ _, 1) <$> range curCt))) acc
  = Ok (acc ++ concat (cells_of_run <$> runs)).
Proof.
  revert acc. induction runs as [|[text tag] runs IH]; intros acc.
  - simpl. by rewrite app_nil_r.
  - cbn [fmap list_fmap app zip zip_with for_fold fst snd].
    rewrite run_count_int. cbn [mbind result_bind].
    cbn [concat]. unfold cells_of_run at 1. cbn [fst snd].
    case_bool_decide; cbn [mret result_ret mbind result_bind];
      rewrite const_range, IH; by rewrite <- app_assoc.
Qed.

Lemma parseRLE_row_runs x runs trailing :
  runs_wf runs → Forall (λ c, is_tag c = false) trailing →
  parseRLE_row (Some x) (concat (run_text <$> runs) ++ trailing)
  = Ok (pad_row x (concat (cells_of_run <$> runs))).
Proof.
  intros Hruns Htrail. unfold parseRLE_row.
  rewrite runs_tags, runs_texts by done.
  rewrite (for_fold_indexed (λ curTag text gridLine,
    curCt ← match int text with
            | Ok n => Ok n
            | Raise ValueError => Ok 1
            | Raise e => Raise e
            end;
    if bool_decide (curTag = "b"%char)
    then mret (gridLine ++ ((λ _, 0) <$> range curCt))
    else mret (gridLine ++ ((λ _, 1) <$> range curCt))));
    [|rewrite length_app, !length_fmap; simpl; lia].
  rewrite parseRLE_row_loop. cbn [mbind result_bind app].
  unfold pad_row. rewrite const_range.
  destruct (Z.of_nat _ =? x) eqn:E; [|done]. cbn [negb].
  apply Z.eqb_eq in E. rewrite E, Z.sub_diag. simpl. by rewrite app_nil_r.
Qed.

(** [parseRLE] on a document: the rows are those of the pieces of the body,
    the final [!] taken off, between two [$]. *)
Lemma parseRLE_document x y lines final rows :
  Forall (λ l, trimmed l ∧ body_line l
               ∧ ∃ d, last l = Some d ∧ d ≠ "!"%char) lines →
  trimmed final → body_line final → last final = Some "!"%char →
  Forall2 (λ chunk row, parseRLE_row (Some x) chunk = Ok row)
    (split "$"%char (removelast (concat (lines ++ [final])))) rows →
  parseRLE (document x y (lines ++ [final])) = np_array rows.
Proof.
  intros Hlines Htrim Hbody Hlast Hrows. unfold parseRLE, document.
  rewrite content_join_lines; cycle 1.
  { apply Forall_cons. split; [apply header_line_trimmed|].
    apply Forall_app. split; [|by apply Forall_singleton].
    eapply Forall_impl; [exact Hlines|]. by intros l [? _]. }
  rewrite parseRLE_lines_header.
  rewrite parseRLE_lines_body; [|..|done|done]; cycle 1.
  { eapply Forall_impl; [exact Hlines|]. by intros l (_ & ? & ?). }
  cbn [mbind result_bind app].
  destruct (for_fold _ _ []) as [grid|e] eqn:E.
  - apply (for_fold_collect (parseRLE_row (Some x)) (λ r, r)) in E
      as (vs & Hvs & ->).
    rewrite list_fmap_id. cbn [mbind result_bind app]. f_equal.
    clear -Hvs Hrows. revert rows Hrows.
    induction Hvs as [|c v cs vs Hv _ IH]; intros rows Hrows.
    + by apply Forall2_nil_inv_l in Hrows as ->.
    + apply Forall2_cons_inv_l in Hrows as (r & rows' & Hr & Hrows & ->).
      f_equal; [congruence|by apply IH].
  - exfalso.
    assert (for_fold (split "$" (removelast (concat (lines ++ [final]))))
              (λ chunk grid, gridLine ← parseRLE_row (Some x) chunk;
                             mret (grid ++ [gridLine])) []
            = Ok ([] ++ ((λ r, r) <$> rows))) as E'.
    { apply (for_fold_collect (parseRLE_row (Some x)) (λ r, r)). eauto. }
    congruence.
Qed.

Lemma np_array_rectangle (rows : list (list Z)) (w : nat) :
  rows ≠ [] → Forall (λ row, length row = w) rows →
  np_array rows = Ok (Array w rows).
Proof.
  intros Hne Hrows. destruct rows as [|row rows]; [done|]. unfold np_array.
  pose proof (proj1 (Forall_cons _ _ _) Hrows) as [Hrow _].
  rewrite (proj2 (forallb_forall _ _)); [by rewrite Hrow|].
  intros r Hr. apply list_elem_of_In in Hr.
  rewrite Forall_forall in Hrows. apply Nat.eqb_eq.
  rewrite Hrow. by apply Hrows.
Qed.

Lemma is_tag_true c : is_tag c = true → c = "b"%char ∨ c = "o"%char.
Proof.
  unfold is_tag. intros H. apply orb_true_iff in H as [H|H];
    apply bool_decide_eq_true in H; auto.
Qed.




Lemma solid_trimmed l :
  l ≠ [] → Forall (λ c, is_space c = false) l → trimmed l.
Proof.
  intros Hne Hl. split; [|split].
  - intros H. rewrite Forall_forall in Hl. by apply Hl in H.
  - destruct l as [|c l]; [done|]. exists c. split; [done|].
    by apply Forall_cons in Hl as [? _].
  - intros d Hd. rewrite Forall_forall in Hl. apply Hl.
    destruct l as [|e l' _] using rev_ind; [done|].
    rewrite last_snoc in Hd. injection Hd as ->.
    apply elem_of_app. right. by left.
Qed.




Lemma lstrip_spaces s :
  ∃ pre, s = pre ++ lstrip s ∧ Forall (λ c, is_space c = true) pre.
Proof.
  induction s as [|c s (pre & Hs & Hpre)]; [by exists []|].
  cbn [lstrip]. destruct (is_space c) eqn:E.
  - exists (c :: pre). split; [by rewrite Hs at 1|by constructor].
  - by exists [].
Qed.

(** What [strip] takes off is white space. *)
Lemma strip_spaces s :
  ∃ pre post, s = pre ++ strip s ++ post
              ∧ Forall (λ c, is_space c = true) (pre ++ post).
Proof.
  destruct (lstrip_spaces s) as (pre & Hs & Hpre).
  destruct (lstrip_spaces (reverse (lstrip s))) as (post & Hr & Hpost).
  exists pre, (reverse post). split.
  - rewrite Hs at 1. f_equal. unfold strip.
    rewrite <- reverse_app, <- Hr. by rewrite reverse_involutive.
  - apply Forall_app. split; [done|].
    apply Forall_forall. intros c Hc. rewrite elem_of_reverse in Hc.
    rewrite Forall_forall in Hpost. by apply Hpost.
Qed.



Lemma counted_run_count g : 1 ≤ g.2 → run_count (counted_run g).1 = g.2.
Proof.
  intros Hg. unfold counted_run, run_count. cbn [fst].
  destruct (g.2 =? 1) eqn:E.
  - apply Z.eqb_eq in E. by rewrite E.
  - by rewrite int_str_int.
Qed.

Lemma counted_run_wf g :
  is_tag g.1 = true → 1 ≤ g.2 →
  Forall plain (counted_run g).1 ∧ is_tag (counted_run g).2 = true.
Proof.
  intros Htag Hn. split; [|done]. unfold counted_run. cbn [fst].
  destruct (g.2 =? 1); [constructor|].
  eapply Forall_impl; [apply str_int_numeric|].
  intros c Hc. apply numeric_plain in Hc as [Hc Hsp].
  split_and!; [|set_solver|done].
  unfold is_tag. apply orb_false_iff.
  split; apply bool_decide_eq_false_2; set_solver.
Qed.

Lemma counted_run_text g : run_text (counted_run g) = token_text g.
Proof. unfold run_text, counted_run, token_text. simpl. by destruct (_ =? 1). Qed.

Lemma counted_run_cells g :
  1 ≤ g.2 →
  cells_of_run (counted_run g)
  = replicate (Z.to_nat g.2) (if bool_decide (g.1 = "b"%char) then 0 else 1).
Proof. intros Hg. unfold cells_of_run. by rewrite counted_run_count. Qed.

(** The first character of a text made of digits, tags and terminators. *)
Lemma body_line_chars l :
  l ≠ [] →
  Forall (λ c, numeric c ∨ c ∈ ["b"; "o"; "$"; "!"]%char) l → body_line l.
Proof.
  intros Hne Hl. destruct l as [|c l]; [done|]. exists c. split; [done|].
  apply Forall_cons in Hl as [[Hc|Hc] _].
  - apply numeric_plain in Hc as [Hc _]. split; intros ->; set_solver.
  - split; intros ->; set_solver.
Qed.

End reading.

Section boundaries.

Lemma foldl_add a l : foldl Z.add a l = a + foldl Z.add 0 l.
Proof.
  revert a. induction l as [|y l IH]; intros a; cbn [foldl]; [lia|].
  rewrite (IH (a + y)), (IH (0 + y)). lia.
Qed.

Lemma sum_cons x l : Py.sum (x :: l) = x + Py.sum l.
Proof. unfold Py.sum. simpl. apply foldl_add. Qed.

(** A row of dead and live cells has a positive sum when it has a live
    cell, and only then. *)
Lemma sum_positive l :
  Forall (λ v, v = 0 ∨ v = 1) l → (Py.sum l >? 0) = true ↔ 1 ∈ l.
Proof.
  intros Hl. assert (0 ≤ Py.sum l ∧ (0 < Py.sum l ↔ 1 ∈ l)) as [_ H].
  { induction Hl as [|x l Hx _ [IH0 IH]].
    { split; [done|]. split; [by intros H|intros H; by apply elem_of_nil in H]. }
    rewrite sum_cons. split; [lia|]. rewrite elem_of_cons.
    destruct Hx as [-> | ->]; [|split; [by left|lia]].
    split; [intros H; right; apply IH; lia|].
    intros [H|H]; [done|]. apply IH in H. lia. }
  rewrite <- H. split; [intros E; apply Z.gtb_gt in E|intros E; apply Z.gtb_gt]; lia.
Qed.

Lemma cell_at_cell g r c : 0 ≤ r → 0 ≤ c → cell_at g r c = cell g r c.
Proof.
  intros Hr Hc. unfold cell_at, row_at, cell.
  destruct (Z.ltb_spec r 0), (Z.ltb_spec c 0); try lia. simpl.
  by destruct (rows g !! Z.to_nat r).
Qed.

Lemma live_row_sum g r :
  well_formed g → 0 ≤ r < shape0 g →
  (Py.sum (row_at g r) >? 0) = true ↔ live_row g r.
Proof.
  intros [Hrect Hbin] Hr. unfold shape0 in Hr.
  destruct (lookup_lt_is_Some_2 (rows g) (Z.to_nat r) ltac:(lia)) as [row Hrow].
  assert (length row = ncols g) as Hlen
      by (eapply Forall_lookup_1 in Hrect; eauto).
  assert (row_at g r = row) as -> by (unfold row_at; by rewrite Hrow).
  rewrite sum_positive by (eapply Forall_lookup_1 in Hbin; eauto).
  unfold live_row, live_at, in_bounds, cell, shape0, shape1. split.
  - intros [i Hi]%list_elem_of_lookup. exists (Z.of_nat i).
    pose proof (lookup_lt_Some _ _ _ Hi).
    destruct (Z.leb_spec 0 r), (Z.ltb_spec r (Z.of_nat (length (rows g)))),
      (Z.leb_spec 0 (Z.of_nat i)), (Z.ltb_spec (Z.of_nat i) (Z.of_nat (ncols g)));
      try lia.
    split; [done|]. destruct (Z.ltb_spec r 0); [lia|]. simpl.
    rewrite Hrow, Nat2Z.id. simpl. rewrite Hi.
    by destruct (Z.ltb_spec (Z.of_nat i) 0); [lia|].
  - intros (c & Hin & Hc).
    destruct (Z.ltb_spec r 0); [lia|]. destruct (Z.ltb_spec c 0); [done|].
    simpl in Hc. rewrite Hrow in Hc. simpl in Hc.
    destruct (row !! Z.to_nat c) as [v|] eqn:E; [|done]. simpl in Hc. subst v.
    apply list_elem_of_lookup. eauto.
Qed.

(** A loop that stops at the first index that satisfies [stop]. *)
Lemma for_break_first stop (m : nat) :
  ∀ (k : nat) x,
    (∃ r, (k ≤ r < k + m)%nat ∧ stop (Z.of_nat r) = true) →
    ∃ y : nat,
      for_break (Z.of_nat <$> seq k m) stop x = Some (Z.of_nat y)
      ∧ (k ≤ y < k + m)%nat ∧ stop (Z.of_nat y) = true
      ∧ ∀ r, (k ≤ r < y)%nat → stop (Z.of_nat r) = false.
Proof.
  induction m as [|m IH]; intros k x (r & Hr & Hstop); [lia|].
  cbn [seq fmap list_fmap for_break]. destruct (stop (Z.of_nat k)) eqn:E.
  - exists k. split; [done|]. split; [lia|]. split; [done|]. intros; lia.
  - destruct (IH (S k) (Some (Z.of_nat k))) as (y & Hrun & Hy & Hsy & Hfirst).
    { exists r. split; [|done]. destruct (decide (r = k)) as [->|]; [congruence|lia]. }
    exists y. split; [done|]. split; [lia|]. split; [done|].
    intros r' Hr'. destruct (decide (r' = k)) as [->|]; [done|].
    apply Hfirst. lia.
Qed.

(** The same from the last index down. *)
Lemma for_break_last stop (n : nat) :
  ∀ x,
    (∃ r, (r < n)%nat ∧ stop (Z.of_nat r) = true) →
    ∃ y : nat,
      for_break (reverse (Z.of_nat <$> seq 0 n)) stop x = Some (Z.of_nat y)
      ∧ (y < n)%nat ∧ stop (Z.of_nat y) = true
      ∧ ∀ r, (y < r < n)%nat → stop (Z.of_nat r) = false.
Proof.
  induction n as [|n IH]; intros x (r & Hr & Hstop); [lia|].
  rewrite seq_S, fmap_app, reverse_app. cbn [fmap list_fmap reverse rev_append app].
  change (0 + n)%nat with n.
  change (rev_append [Z.of_nat n] []) with [Z.of_nat n].
  cbn [app for_break]. destruct (stop (Z.of_nat n)) eqn:E.
  - exists n. split; [done|]. split; [lia|]. split; [done|]. intros; lia.
  - destruct (IH (Some (Z.of_nat n))) as (y & Hrun & Hy & Hsy & Hlast).
    { exists r. split; [|done]. destruct (decide (r = n)) as [->|]; [congruence|lia]. }
    exists y. split; [done|]. split; [lia|]. split; [done|].
    intros r' Hr'. destruct (decide (r' = n)) as [->|]; [done|].
    apply Hlast. lia.
Qed.

Lemma foldl_prefix_invariant {A B} (P : list B → A → Prop) (f : A → B → A) l :
  ∀ pre a,
    P pre a → (∀ pre x a, P pre a → P (pre ++ [x]) (f a x)) →
    P (pre ++ l) (foldl f a l).
Proof.
  induction l as [|x l IH]; intros pre a Ha Hstep.
  - by rewrite app_nil_r.
  - simpl. rewrite cons_middle, app_assoc. apply IH; [|done]. by apply Hstep.
Qed.

(** The scan of a row keeps the smallest column that holds a live cell. *)
Lemma scan_row_smallest g seen row minmax :
  smallest_column g seen minmax.1 →
  smallest_column g
    (λ r c, seen r c ∨ (r = row ∧ c ∈ range (shape1 g)))
    (scan_row g row minmax).1.
Proof.
  intros Hmin. unfold scan_row.
  apply (foldl_prefix_invariant
           (λ pre mm, smallest_column g
                        (λ r c, seen r c ∨ (r = row ∧ c ∈ pre)) mm.1)
           _ (range (shape1 g)) []).
  { destruct minmax.1; simpl in *; [|intros r c [H|[_ H]]; [eauto|set_solver]|done..].
    destruct Hmin as [(r & Hr & Hl) Hle]. split; [eauto|].
    intros r' c' [H|[_ H]]; [eauto|set_solver]. }
  clear. intros pre col [minCol maxCol] H. cbn [fst] in *.
  assert (∀ r c, seen r c ∨ r = row ∧ c ∈ pre ++ [col] ↔
                 (seen r c ∨ r = row ∧ c ∈ pre) ∨ (r = row ∧ c = col)) as Hseen.
  { intros r c. rewrite elem_of_app, list_elem_of_singleton. tauto. }
  destruct (cell_at g row col =? 1) eqn:E.
  - apply Z.eqb_eq in E. destruct minCol as [m| | |]; simpl in *; try done.
    + destruct H as [(r & Hr & Hl) Hle]. destruct (Z.ltb_spec col m).
      * simpl. split; [exists row; split; [right; set_solver|done]|].
        intros r' c' Hs Hc. apply Hseen in Hs as [Hs|[-> ->]]; [|lia].
        specialize (Hle r' c' Hs Hc). lia.
      * assert (smallest_column g
                  (λ r c, seen r c ∨ r = row ∧ c ∈ pre ++ [col]) (Int m)).
        { split; [exists r; split; [|done]; apply Hseen; by left|].
          intros r' c' Hs Hc. apply Hseen in Hs as [Hs|[-> ->]]; [|lia].
          by apply (Hle r' c'). }
        by destruct (num_lt maxCol (Int col)).
    + split; [exists row; split; [right; set_solver|done]|].
      intros r' c' Hs Hc. apply Hseen in Hs as [Hs|[-> ->]]; [|lia].
      exfalso. by apply (H r' c').
  - apply Z.eqb_neq in E. destruct minCol as [m| | |]; simpl in *; try done.
    + destruct H as [(r & Hr & Hl) Hle].
      split; [exists r; split; [|done]; apply Hseen; by left|].
      intros r' c' Hs Hc. apply Hseen in Hs as [Hs|[-> ->]]; [|done].
      by apply (Hle r' c').
    + intros r' c' Hs. apply Hseen in Hs as [Hs|[-> ->]]; [|done].
      by apply (H r' c').
Qed.

Lemma smallest_column_ext g seen seen' minCol :
  (∀ r c, seen r c ↔ seen' r c) →
  smallest_column g seen minCol → smallest_column g seen' minCol.
Proof.
  intros Hext. destruct minCol as [m| | |]; simpl; try done.
  - intros [(r & Hr & Hl) Hle]. split; [exists r; split; [by apply Hext|done]|].
    intros r' c' Hs. apply Hle. by apply Hext.
  - intros H r c Hs. apply (H r c). by apply Hext.
Qed.

(** The scan of the rows keeps the smallest column too; when it leaves
    early that column is 0, which no column is below. *)
Lemma scan_rows_smallest g rs :
  ∀ seen minmax,
    smallest_column g seen minmax.1 →
    smallest_column g
      (λ r c, seen r c ∨ (r ∈ rs ∧ c ∈ range (shape1 g)))
      (scan_rows g rs minmax).1.
Proof.
  induction rs as [|row rs IH]; intros seen minmax Hmin.
  - simpl. eapply smallest_column_ext; [|exact Hmin].
    intros r c. split; [by left|]. intros [H|[H _]]; [done|].
    by apply elem_of_nil in H.
  - cbn [scan_rows].
    pose proof (scan_row_smallest g seen row minmax Hmin) as Hrow.
    destruct (scan_row g row minmax) as [minCol maxCol]. cbn [fst] in Hrow.
    destruct (num_eq minCol (Int 0) && _) eqn:E.
    + apply andb_true_iff in E as [E _].
      destruct minCol as [m| | |]; try done. simpl in E.
      apply Z.eqb_eq in E as ->. cbn [fst].
      destruct Hrow as [(r & Hr & Hl) Hle]. split.
      * exists r. split; [|done]. destruct Hr as [Hr|[-> Hr]]; [by left|].
        right. split; [by left|done].
      * intros r' c' [Hs|[Hr' Hc']] Hc.
        -- apply (Hle r' c'); [by left|done].
        -- apply elem_of_range in Hc'. lia.
    + eapply smallest_column_ext; [|apply (IH _ (minCol, maxCol) Hrow)].
      intros r c. rewrite elem_of_cons. tauto.
Qed.

Lemma range2_elem a b y : a ≤ y < b → y ∈ range2 a b.
Proof.
  intros Hy. unfold range2. apply list_elem_of_fmap.
  exists (Z.to_nat (y - a)). split; [lia|]. apply elem_of_seq. lia.
Qed.

Lemma range_elem n y : 0 ≤ y < n → y ∈ range n.
Proof.
  intros Hy. unfold range. apply list_elem_of_fmap.
  exists (Z.to_nat y). split; [lia|]. apply elem_of_seq. lia.
Qed.

Lemma in_bounds_iff g r c :
  in_bounds g r c = true ↔ 0 ≤ r < shape0 g ∧ 0 ≤ c < shape1 g.
Proof.
  unfold in_bounds. rewrite !andb_true_iff, !Z.leb_le, !Z.ltb_lt. tauto.
Qed.

Lemma live_at_cell_at g r c :
  live_at g r c ↔ (0 ≤ r < shape0 g ∧ 0 ≤ c < shape1 g) ∧ cell_at g r c = 1.
Proof.
  unfold live_at. rewrite in_bounds_iff. split.
  - intros [Hb Hc]. split; [done|]. by rewrite cell_at_cell by lia.
  - intros [Hb Hc]. split; [done|]. by rewrite <- cell_at_cell by lia.
Qed.

(** On a grid with a live cell, [findBoundaries] returns the first and the
    last row that hold a live cell and the smallest column that holds one. *)
Lemma findBoundaries_rows_and_minCol g :
  well_formed g → (∃ r, live_row g r) →
  ∃ top bot m maxCol,
    findBoundaries g = Ok (top, bot, Int m, maxCol)
    ∧ live_row g top ∧ (∀ r, live_row g r → top ≤ r)
    ∧ live_row g bot ∧ (∀ r, live_row g r → r ≤ bot)
    ∧ (∃ r, live_at g r m) ∧ (∀ r c, live_at g r c → m ≤ c).
Proof.
  intros Hwf [r0 Hr0].
  assert (∀ r, live_row g r → 0 ≤ r < shape0 g) as Hrange.
  { intros r [c Hc]. apply live_at_cell_at in Hc. lia. }
  set (stop := λ t, Py.sum (row_at g t) >? 0).
  assert (∀ r : nat, (r < length (rows g))%nat →
            stop (Z.of_nat r) = true ↔ live_row g (Z.of_nat r)) as Hstop.
  { intros r Hr. apply live_row_sum; [done|]. unfold shape0. lia. }
  assert (∃ r : nat, (r < length (rows g))%nat ∧ stop (Z.of_nat r) = true)
    as (n0 & Hn0 & Hs0).
  { pose proof (Hrange r0 Hr0) as H. unfold shape0 in H.
    exists (Z.to_nat r0). split; [lia|]. apply Hstop; [lia|].
    by rewrite Z2Nat.id by lia. }
  destruct (for_break_first stop (length (rows g)) 0 None)
    as (t & Htop & Ht & Hst & Hfirst); [exists n0; split; [lia|done]|].
  destruct (for_break_last stop (length (rows g)) None)
    as (b & Hbot & Hb & Hsb & Hlast); [by exists n0|].
  assert (live_row g (Z.of_nat t)) as Hlt by (apply Hstop; [lia|done]).
  assert (live_row g (Z.of_nat b)) as Hlb by (by apply Hstop).
  assert (∀ r, live_row g r → Z.of_nat t ≤ r ≤ Z.of_nat b) as Hbetween.
  { intros r Hr. pose proof (Hrange r Hr) as H. unfold shape0 in H.
    assert (stop (Z.of_nat (Z.to_nat r)) = true) as Hsr.
    { apply Hstop; [lia|]. by rewrite Z2Nat.id by lia. }
    split.
    - destruct (Z.le_gt_cases (Z.of_nat t) r); [done|].
      rewrite (Hfirst (Z.to_nat r)) in Hsr by lia. done.
    - destruct (Z.le_gt_cases r (Z.of_nat b)); [done|].
      rewrite (Hlast (Z.to_nat r)) in Hsr by lia. done. }
  pose proof (scan_rows_smallest g (range2 (Z.of_nat t) (Z.of_nat b + 1))
                (λ _ _, False) (Inf, NegInf)) as Hscan.
  unfold findBoundaries, range, shape0. rewrite Nat2Z.id.
  fold stop. rewrite Htop, Hbot.
  destruct (scan_rows _ _ _) as [minCol maxCol]. cbn [fst] in Hscan.
  assert (∀ r c, live_at g r c →
            (False ∨ r ∈ range2 (Z.of_nat t) (Z.of_nat b + 1)
                     ∧ c ∈ range (shape1 g)) ∧ cell_at g r c = 1) as Hseen.
  { intros r c Hl. pose proof (Hbetween r (ex_intro _ c Hl)).
    apply live_at_cell_at in Hl as [[_ Hc] Hv]. split; [|done].
    right. split; [apply range2_elem; lia|by apply range_elem]. }
  specialize (Hscan ltac:(by intros ? ? [])).
  destruct minCol as [m| | |]; simpl in Hscan; try done; cycle 1.
  { destruct Hlt as [c Hc]. apply Hseen in Hc as [Hs Hv]. by apply Hscan in Hs. }
  destruct Hscan as [(r & Hr & Hv) Hle].
  exists (Z.of_nat t), (Z.of_nat b), m, maxCol.
  split_and!; try done.
  - intros r' Hr'. by apply Hbetween.
  - intros r' Hr'. by apply Hbetween.
  - exists r. apply live_at_cell_at. split; [|done].
    destruct Hr as [[]|[Hr Hm]].
    apply elem_of_range2 in Hr. apply elem_of_range in Hm.
    unfold shape0. lia.
  - intros r' c' Hl. apply Hseen in Hl as [Hs Hv']. by apply (Hle r' c').
Qed.

End boundaries.

Section roundtrip.

Lemma scan_row_box g row minmax :
  box_columns (shape1 g) minmax → box_columns (shape1 g) (scan_row g row minmax).
Proof.
  intros H. unfold scan_row. apply foldl_invariant; [done|].
  intros [minCol maxCol] col Hcol Hbox. apply elem_of_range in Hcol.
  destruct (cell_at g row col =? 1); [|done].
  destruct minCol as [a| | |], maxCol as [b| | |]; simpl in *; try done.
  - destruct (Z.ltb_spec col a); [simpl; lia|].
    destruct (Z.ltb_spec b col); simpl; lia.
  - destruct (Z.ltb_spec col a); simpl; lia.
Qed.

Lemma scan_rows_box g rs minmax :
  box_columns (shape1 g) minmax → box_columns (shape1 g) (scan_rows g rs minmax).
Proof.
  revert minmax. induction rs as [|row rs IH]; intros minmax H; [done|].
  simpl. pose proof (scan_row_box g row minmax H) as H'.
  destruct (scan_row g row minmax) as [minCol maxCol].
  destruct (_ && _); [done|]. by apply IH.
Qed.

(** A box with two finite columns lies inside the grid. *)
Lemma findBoundaries_finite_box g top bot a b :
  findBoundaries g = Ok (top, bot, Int a, Int b) →
  0 ≤ top ≤ bot ∧ bot < shape0 g ∧ 0 ≤ a ≤ b ∧ b < shape1 g.
Proof.
  intros Hb.
  pose proof (findBoundaries_columns _ _ _ _ _ Hb) as (Htop & Hbot & _ & _).
  unfold findBoundaries in Hb.
  destruct (for_break (range _) _ _) as [t|]; [|done].
  destruct (for_break (reverse _) _ _) as [b'|]; [|done].
  pose proof (scan_rows_box g (range2 t (b' + 1)) (Inf, NegInf) I) as Hbox.
  destruct (scan_rows _ _ _) as [mn mx] eqn:Escan.
  injection Hb as -> -> -> ->. simpl in Hbox.
  assert (top ≤ bot); [|lia].
  destruct (Z.le_gt_cases top bot) as [?|Hgt]; [done|].
  unfold range2 in Escan. replace (Z.to_nat (bot + 1 - top)) with 0%nat in Escan by lia.
  done.
Qed.

Lemma for_fold_append {A B} (f : A → list B) (l : list A) body s :
  (∀ x s, x ∈ l → body x s = Ok (s ++ f x)) →
  for_fold l body s = Ok (s ++ concat (f <$> l)).
Proof.
  revert s. induction l as [|x l IH]; intros s Hbody.
  - simpl. by rewrite app_nil_r.
  - cbn [for_fold]. rewrite Hbody by (by left). cbn [mbind result_bind].
    rewrite IH by (intros y s' Hy; apply Hbody; by right).
    cbn [fmap list_fmap concat]. by rewrite <- app_assoc.
Qed.

(** [encodeGrid] on a box inside the grid. *)
Lemma encodeGrid_box g top bot a b :
  rectangular g →
  0 ≤ top → bot < shape0 g → 0 ≤ a → b < shape1 g →
  encodeGrid g top bot (Int a) (Int b)
  = Ok (concat (row_groups g a b bot <$> range2 top (bot + 1))).
Proof.
  intros Hrect Htop Hbot Ha Hb. unfold encodeGrid.
  rewrite (for_fold_append (row_groups g a b bot)); [done|].
  intros row acc Hrow. apply elem_of_range2 in Hrow.
  cbn [num_add range_num mbind result_bind].
  assert (for_fold (range2 a (b + 1)) (λ col rowString,
            cell ← getitem2 g row col;
            mret (rowString ++ [if cell =? 1 then "o"%char else "b"%char])) []
          = Ok (row_string g a b row)) as ->.
  { apply (for_fold_collect (λ col, getitem2 g row col)
             (λ cell, if cell =? 1 then "o"%char else "b"%char)).
    exists ((λ col, cell g row col) <$> range2 a (b + 1)). split.
    - apply Forall2_fmap_r, Forall_Forall2_diag, Forall_forall.
      intros col Hcol. apply elem_of_range2 in Hcol.
      apply getitem2_inside; [done|]. unfold in_bounds.
      destruct (Z.leb_spec 0 row), (Z.ltb_spec row (shape0 g)),
        (Z.leb_spec 0 col), (Z.ltb_spec col (shape1 g)); first [lia|done].
    - unfold row_string. by rewrite <- list_fmap_compose. }
  cbn [mbind result_bind]. unfold row_groups.
  destruct (negb (row =? bot)); by rewrite <- app_assoc.
Qed.

Lemma emitted_two pre g h :
  emitted (pre ++ [g; h])
  = pre ++ (if bool_decide (g.1 = "b"%char) then [h] else [g; h]).
Proof.
  induction pre as [|x pre IH]; [done|].
  cbn [app emitted]. rewrite IH.
  destruct pre as [|y [|z pre]]; try done.
Qed.

Lemma body_token_chars t :
  body_token t →
  Forall (λ c, is_space c = false) t
  ∧ Forall (λ c, numeric c ∨ c ∈ ["b"; "o"; "$"; "!"]%char) t
  ∧ ∃ d, last t = Some d ∧ d ≠ "!"%char.
Proof.
  intros [Hne Ht].
  assert (∀ c, numeric c ∨ c ∈ ["b"; "o"; "$"]%char →
               is_space c = false ∧ c ≠ "!"%char) as Hc.
  { intros c [Hc|Hc].
    - apply numeric_plain in Hc as [Hc ?]. split; [done|]. intros ->. set_solver.
    - split; [|intros ->; set_solver].
      repeat (apply elem_of_cons in Hc as [->|Hc]; [done|]).
      by apply elem_of_nil in Hc. }
  split_and!.
  - eapply Forall_impl; [exact Ht|]. intros c H. by apply Hc in H as [? _].
  - eapply Forall_impl; [exact Ht|]. intros c [H|H]; [by left|right; set_solver].
  - destruct t as [|d t _] using rev_ind; [done|]. exists d.
    rewrite last_snoc. split; [done|].
    apply Forall_app in Ht as [_ Hd].
    pose proof (proj1 (Forall_singleton _ _) Hd) as Hd'.
    by apply Hc in Hd' as [_ ?].
Qed.

(** A line of whole body tokens is a line [parseRLE] takes for the body. *)
Lemma body_tokens_line L :
  L ≠ [] → Forall body_token L →
  trimmed (concat L) ∧ body_line (concat L)
  ∧ ∃ d, last (concat L) = Some d ∧ d ≠ "!"%char.
Proof.
  intros Hne HL.
  assert (concat L ≠ []) as Hne'.
  { destruct L as [|t L]; [done|]. apply Forall_cons in HL as [[Ht _] _].
    simpl. by destruct t. }
  assert (Forall (λ c, is_space c = false) (concat L)) as Hsp.
  { apply Forall_concat. eapply Forall_impl; [exact HL|].
    intros t Ht. by apply body_token_chars in Ht as [? _]. }
  split_and!.
  - by apply solid_trimmed.
  - apply body_line_chars; [done|]. apply Forall_concat.
    eapply Forall_impl; [exact HL|].
    intros t Ht. by apply body_token_chars in Ht as (_ & ? & _).
  - destruct L as [|t L _] using rev_ind; [done|].
    apply Forall_app in HL as [_ Ht].
    pose proof (proj1 (Forall_singleton _ _) Ht) as Ht'.
    destruct (body_token_chars t Ht') as (_ & _ & d & Hd & Hd').
    exists d. split; [|done]. rewrite concat_app. simpl. rewrite app_nil_r.
    destruct t as [|e t _] using rev_ind; [done|].
    rewrite last_snoc in Hd. injection Hd as ->.
    by rewrite app_assoc, last_snoc.
Qed.

(** The lines that hold body tokens followed by the final [!]: all but the
    last are lines of body tokens, and the last ends with the [!]. *)
Lemma fill_body_tokens ts :
  ∀ cur,
    Forall body_token ts → Forall body_token cur →
    Forall (λ t : list ascii, (length t ≤ 70)%nat) ts →
    ∃ init final,
      fill (ts ++ [["!"%char]]) cur = init ++ [final ++ [["!"%char]]]
      ∧ Forall (λ L, L ≠ [] ∧ Forall body_token L) init
      ∧ Forall body_token final.
Proof.
  induction ts as [|t ts IH]; intros cur Hts Hcur Hlen.
  - cbn [app fill]. destruct (_ >? 70) eqn:E.
    + exists [cur], []. split_and!; [done| |done].
      apply Forall_singleton. split; [|done].
      intros ->. by vm_compute in E.
    + by exists [], cur.
  - apply Forall_cons in Hts as [Ht Hts]. apply Forall_cons in Hlen as [Hl Hlen].
    cbn [app fill]. destruct (_ >? 70) eqn:E.
    + destruct (IH [t]) as (init & final & Hfill & Hinit & Hfinal);
        [done|by apply Forall_singleton|done|].
      exists (cur :: init), final. rewrite Hfill. split_and!; [done| |done].
      apply Forall_cons. split; [|done]. split; [|done].
      intros ->. cbn [concat length] in E. apply Z.gtb_gt in E. lia.
    + destruct (IH (cur ++ [t])) as (init & final & Hfill & Hinit & Hfinal);
        [done| |done|by exists init, final].
      apply Forall_app. split; [done|by apply Forall_singleton].
Qed.

(** Reading back the runs of a row written with their counts. *)
Lemma parseRLE_row_counted x (runs : list (ascii * Z)) :
  Forall (λ g : ascii * Z, is_tag g.1 = true ∧ 1 ≤ g.2) runs →
  parseRLE_row (Some x) (concat (token_text <$> runs))
  = Ok (pad_row x (expand runs)).
Proof.
  intros Hruns.
  pose proof (parseRLE_row_runs x (counted_run <$> runs) []) as H.
  rewrite app_nil_r, <- list_fmap_compose in H.
  rewrite (list_fmap_ext (run_text ∘ counted_run) token_text runs) in H
    by (intros; apply counted_run_text).
  rewrite H; [| |constructor].
  - unfold expand. do 3 f_equal. rewrite <- list_fmap_compose.
    apply Forall_fmap_ext_1. eapply Forall_impl; [exact Hruns|].
    intros g [_ Hg]. by apply counted_run_cells.
  - apply Forall_fmap. eapply Forall_impl; [exact Hruns|].
    intros g [Htag Hg]. destruct (counted_run_wf g Htag Hg) as [Hp ?].
    split; [|done]. eapply Forall_impl; [exact Hp|]. by intros c [? _].
Qed.

(** [groupby] gives the runs of the string. *)
Lemma groupby_expand s :
  Forall (λ c, is_tag c = true) s →
  expand (groupby s) = (λ c, if bool_decide (c = "b"%char) then 0 else 1) <$> s.
Proof.
  induction 1 as [|c s Hc _ IH]; [done|].
  pose proof (groupby_groups s) as Hg.
  cbn [groupby]. destruct (groupby s) as [|[c' n] gs]; [by destruct s|].
  apply Forall_cons in Hg as [[_ Hn] _]. simpl in Hn.
  rewrite fmap_cons, <- IH. unfold expand. case_bool_decide as E.
  - subst c'. cbn [fmap list_fmap concat fst snd].
    replace (Z.to_nat (n + 1)) with (S (Z.to_nat n)) by lia. done.
  - done.
Qed.

Lemma groupby_tags s :
  Forall (λ c, is_tag c = true) s →
  Forall (λ g : ascii * Z, is_tag g.1 = true ∧ 1 ≤ g.2) (groupby s).
Proof.
  intros Hs. eapply Forall_impl; [apply groupby_groups|].
  intros g [Hg Hn]. split; [|lia]. rewrite Forall_forall in Hs. by apply Hs.
Qed.

Lemma groupby_nonempty s : s ≠ [] → groupby s ≠ [].
Proof.
  destruct s as [|c s]; [done|]. intros _. simpl.
  destruct (groupby s) as [|[c' n] gs]; [done|]. by case_bool_decide.
Qed.

Lemma expand_app r1 r2 : expand (r1 ++ r2) = expand r1 ++ expand r2.
Proof. unfold expand. by rewrite fmap_app, concat_app. Qed.

(** Leaving out a last run of dead cells is undone by the filling of the
    row. *)
Lemma without_dead_end_padded runs :
  Forall (λ g : ascii * Z, is_tag g.1 = true ∧ 1 ≤ g.2) runs →
  pad_row (Z.of_nat (length (expand runs))) (expand (without_dead_end runs))
  = expand runs.
Proof.
  intros Hruns. unfold without_dead_end.
  destruct runs as [|[tag n] runs _] using rev_ind.
  { done. }
  rewrite last_snoc. cbn [fst]. case_bool_decide as E.
  - subst tag. rewrite removelast_last, expand_app. unfold pad_row.
    rewrite length_app. f_equal.
    assert (expand [("b"%char, n)] = replicate (Z.to_nat n) 0) as ->
        by (unfold expand; simpl; by rewrite app_nil_r).
    rewrite length_replicate. f_equal. lia.
  - unfold pad_row. rewrite Z.sub_diag. simpl. by rewrite app_nil_r.
Qed.

Lemma without_dead_end_tags runs :
  Forall (λ g : ascii * Z, is_tag g.1 = true ∧ 1 ≤ g.2) runs →
  Forall (λ g : ascii * Z, is_tag g.1 = true ∧ 1 ≤ g.2) (without_dead_end runs).
Proof.
  intros Hruns. unfold without_dead_end.
  destruct runs as [|g runs _] using rev_ind; [done|].
  rewrite last_snoc. case_bool_decide; [|done].
  rewrite removelast_last. by apply Forall_app in Hruns as [? _].
Qed.

Lemma join_with_snoc sep ls l :
  join_with sep (ls ++ [l]) = concat ((λ x, x ++ [sep]) <$> ls) ++ l.
Proof.
  induction ls as [|x ls IH]; [done|].
  cbn [app]. rewrite join_with_cons by (by destruct ls).
  rewrite IH. cbn [fmap list_fmap concat]. by rewrite <- !app_assoc.
Qed.

Lemma concat_concat {A} (L : list (list (list A))) :
  concat (@concat A <$> L) = concat (concat L).
Proof.
  induction L as [|l L IH]; [done|].
  cbn [fmap list_fmap concat]. by rewrite concat_app, IH.
Qed.

Lemma emitted_body_groups rows final :
  final ≠ [] →
  emitted (body_groups rows final)
  = concat ((λ runs, runs ++ [("$"%char, 1)]) <$> rows)
    ++ without_dead_end final ++ [("!"%char, 1)].
Proof.
  intros Hne. unfold body_groups, without_dead_end.
  destruct final as [|g final _] using rev_ind; [done|].
  rewrite last_snoc, <- !app_assoc. cbn [app].
  rewrite (app_assoc _ final), emitted_two.
  case_bool_decide.
  - by rewrite removelast_last, <- app_assoc.
  - by rewrite <- !app_assoc.
Qed.

Lemma token_body_token g :
  g.1 ∈ ["b"; "o"; "$"]%char → 1 ≤ g.2 < 2 ^ 63 →
  body_token (token_text g) ∧ (length (token_text g) ≤ 70)%nat.
Proof.
  intros Htag Hn.
  assert (group_within g.2 g) as Hw by (split; [set_solver|lia]).
  apply token_text_fits in Hw as [Hlen _]; [|lia]. split; [|done].
  unfold token_text. destruct (g.2 =? 1).
  - split; [done|]. apply Forall_singleton. by right.
  - split; [by destruct (str_int g.2)|]. apply Forall_app. split.
    + eapply Forall_impl; [apply str_int_numeric|]. by left.
    + apply Forall_singleton. by right.
Qed.

Lemma tag_is_body_tag c : is_tag c = true → c ∈ ["b"; "o"; "$"]%char.
Proof. intros [-> | ->]%is_tag_true; set_solver. Qed.

(** The text of the runs of a row holds no [$]. *)
Lemma runs_text_no_dollar runs :
  Forall (λ g : ascii * Z, is_tag g.1 = true ∧ 1 ≤ g.2) runs →
  "$"%char ∉ concat (token_text <$> runs).
Proof.
  intros Hruns H. apply list_elem_of_In, in_concat in H as (t & Ht & Hc).
  apply list_elem_of_In, list_elem_of_fmap in Ht as (g & -> & Hg).
  rewrite Forall_forall in Hruns. apply Hruns in Hg as [Htag Hn].
  apply list_elem_of_In in Hc. unfold token_text in Hc.
  assert ("$"%char ∉ [g.1]) as Hnot.
  { intros Hin. apply list_elem_of_singleton in Hin.
    apply is_tag_true in Htag as [E|E]; rewrite E in Hin; done. }
  destruct (g.2 =? 1); [done|].
  apply elem_of_app in Hc as [Hc|Hc]; [|done].
  pose proof (str_int_numeric g.2) as Hnum. rewrite Forall_forall in Hnum.
  apply Hnum, numeric_plain in Hc as [Hc _]. set_solver.
Qed.

Lemma rows_text rows :
  concat (token_text <$> concat ((λ runs, runs ++ [("$"%char, 1)]) <$> rows))
  = concat ((λ x, x ++ ["$"%char])
              <$> ((λ runs, concat (token_text <$> runs)) <$> rows)).
Proof.
  induction rows as [|runs rows IH]; [done|].
  rewrite !fmap_cons. cbn [concat]. rewrite fmap_app, concat_app, IH.
  by rewrite fmap_app, concat_app.
Qed.

(** Writing the groups of a body in lines of 70 and reading the document
    back gives the rows. *)
Lemma body_roundtrip (w : nat) y rows final :
  Forall (row_runs w) rows → row_runs w final → final ≠ [] →
  parseRLE (document (Z.of_nat w) y
    (@concat ascii <$> fill (token_text <$> emitted (body_groups rows final)) []))
  = Ok (Array w (expand <$> (rows ++ [final]))).
Proof.
  intros Hrows [Hfinal Hlen] Hne.
  rewrite emitted_body_groups by done.
  set (wde := without_dead_end final).
  assert (Forall (λ g : ascii * Z, is_tag g.1 = true ∧ 1 ≤ g.2 < 2 ^ 63) wde)
    as Hwde.
  { unfold wde, without_dead_end.
    destruct final as [|g f _] using rev_ind; [done|].
    rewrite last_snoc. case_bool_decide; [|done].
    rewrite removelast_last. by apply Forall_app in Hfinal as [? _]. }
  set (body := concat ((λ runs, runs ++ [("$"%char, 1)]) <$> rows) ++ wde).
  assert (Forall (λ g : ascii * Z, g.1 ∈ ["b"; "o"; "$"]%char
                                   ∧ 1 ≤ g.2 < 2 ^ 63) body) as Hbody.
  { unfold body. apply Forall_app. split.
    - apply Forall_concat, Forall_fmap.
      eapply Forall_impl; [exact Hrows|]. intros runs [Hruns _]. simpl.
      apply Forall_app. split.
      + eapply Forall_impl; [exact Hruns|]. intros g [? ?].
        split; [by apply tag_is_body_tag|done].
      + apply Forall_singleton. split; [set_solver|done].
    - eapply Forall_impl; [exact Hwde|]. intros g [? ?].
      split; [by apply tag_is_body_tag|done]. }
  rewrite app_assoc. fold body. rewrite fmap_app.
  change (token_text <$> [("!"%char, 1)]) with [["!"%char]].
  destruct (fill_body_tokens (token_text <$> body) [])
    as (init & last_line & Hfill & Hinit & Hlast).
  { apply Forall_fmap. eapply Forall_impl; [exact Hbody|].
    intros g [? ?]. by apply token_body_token. }
  { constructor. }
  { apply Forall_fmap. eapply Forall_impl; [exact Hbody|].
    intros g [? ?]. by apply token_body_token. }
  assert (concat (token_text <$> body)
          = join_with "$"%char
              ((λ runs, concat (token_text <$> runs)) <$> (rows ++ [wde])))
    as Htext.
  { unfold body. rewrite fmap_app, concat_app, rows_text.
    rewrite fmap_app.
    change ((λ runs, concat (token_text <$> runs)) <$> [wde])
      with [concat (token_text <$> wde)].
    by rewrite join_with_snoc. }
  rewrite Hfill, fmap_app. cbn [fmap list_fmap].
  rewrite concat_app. cbn [concat]. rewrite app_nil_r.
  rewrite (parseRLE_document (Z.of_nat w) y (@concat ascii <$> init)
             (concat last_line ++ ["!"%char])
             ((λ runs, pad_row (Z.of_nat w) (expand runs)) <$> (rows ++ [wde]))).
  - rewrite np_array_rectangle with (w := w).
    + do 2 f_equal. rewrite !fmap_app. f_equal.
      * apply Forall_fmap_ext_1. eapply Forall_impl; [exact Hrows|].
        intros runs [_ Hl]. simpl. unfold pad_row.
        rewrite Hl, Z.sub_diag. simpl. by rewrite app_nil_r.
      * simpl. f_equal. rewrite <- Hlen. unfold wde.
        apply without_dead_end_padded.
        eapply Forall_impl; [exact Hfinal|]. intros g [? ?]. split; [done|lia].
    + intros H. apply fmap_nil_inv in H. by destruct rows.
    + apply Forall_fmap, Forall_app. split.
      * eapply Forall_impl; [exact Hrows|]. intros runs [_ Hl]. simpl.
        unfold pad_row. rewrite Hl, Z.sub_diag. simpl. by rewrite app_nil_r.
      * apply Forall_singleton. simpl. rewrite <- Hlen at 1. unfold wde.
        rewrite without_dead_end_padded; [done|].
        eapply Forall_impl; [exact Hfinal|]. intros g [? ?]. split; [done|lia].
  - apply Forall_fmap. eapply Forall_impl; [exact Hinit|].
    intros L [HL1 HL2]. by apply body_tokens_line.
  - apply solid_trimmed; [by destruct (concat last_line)|].
    apply Forall_app. split; [|by apply Forall_singleton].
    apply Forall_concat. eapply Forall_impl; [exact Hlast|].
    intros t Ht. by apply body_token_chars in Ht as [? _].
  - apply body_line_chars; [by destruct (concat last_line)|].
    apply Forall_app. split; [|apply Forall_singleton; right; set_solver].
    apply Forall_concat. eapply Forall_impl; [exact Hlast|].
    intros t Ht. by apply body_token_chars in Ht as (_ & ? & _).
  - apply last_snoc.
  - assert (concat ((@concat ascii <$> init) ++ [concat last_line ++ ["!"%char]])
            = concat (token_text <$> body) ++ ["!"%char]) as ->.
    { transitivity (concat (@concat ascii <$> (init ++ [last_line ++ [["!"%char]]]))).
      { rewrite fmap_app. cbn [fmap list_fmap]. do 3 f_equal.
        rewrite concat_app. by simpl. }
      rewrite <- Hfill, concat_concat, fill_concat. cbn [app].
      rewrite concat_app. by simpl. }
    rewrite removelast_last, Htext.
    assert (Forall (λ runs : list (ascii * Z),
                      Forall (λ g : ascii * Z, is_tag g.1 = true ∧ 1 ≤ g.2) runs)
              (rows ++ [wde])) as Hall.
    { apply Forall_app. split.
      - eapply Forall_impl; [exact Hrows|]. intros runs [Hr _].
        eapply Forall_impl; [exact Hr|]. intros g [? ?]. split; [done|lia].
      - apply Forall_singleton.
        eapply Forall_impl; [exact Hwde|]. intros g [? ?]. split; [done|lia]. }
    rewrite split_join_with; cycle 1.
    { intros H. apply fmap_nil_inv in H. by destruct rows. }
    { apply Forall_fmap. eapply Forall_impl; [exact Hall|].
      intros runs Hr. by apply runs_text_no_dollar. }
    apply Forall2_fmap, Forall_Forall2_diag.
    eapply Forall_impl; [exact Hall|]. intros runs Hr.
    by apply parseRLE_row_counted.
Qed.

Lemma range2_snoc a b : a ≤ b → range2 a (b + 1) = range2 a b ++ [b].
Proof.
  intros Hab. unfold range2.
  replace (Z.to_nat (b + 1 - a)) with (Z.to_nat (b - a) + 1)%nat by lia.
  rewrite seq_app, fmap_app. simpl. do 2 f_equal. lia.
Qed.

Lemma row_string_tags g a b row :
  Forall (λ c, is_tag c = true) (row_string g a b row).
Proof.
  unfold row_string. apply Forall_fmap, Forall_forall. intros col _. simpl.
  by destruct (_ =? 1).
Qed.

Lemma row_string_length g a b row :
  length (row_string g a b row) = Z.to_nat (b + 1 - a).
Proof. unfold row_string. by rewrite length_fmap, length_range2. Qed.

(** The runs of a row of the box are runs that can be written, and they
    stand for the cells of the row. *)
Lemma row_string_runs g a b row :
  b + 1 - a < 2 ^ 63 →
  row_runs (Z.to_nat (b + 1 - a)) (groupby (row_string g a b row)).
Proof.
  intros Hw. split.
  - pose proof (row_string_tags g a b row) as Htags.
    eapply Forall_impl; [apply groupby_groups|]. intros gr [Htag Hn].
    rewrite row_string_length in Hn. split; [|lia].
    rewrite Forall_forall in Htags. by apply Htags.
  - rewrite groupby_expand by apply row_string_tags.
    by rewrite length_fmap, row_string_length.
Qed.

Lemma row_string_cells g a b row :
  binary g →
  expand (groupby (row_string g a b row))
  = (λ col, cell g row col) <$> range2 a (b + 1).
Proof.
  intros Hbin. rewrite groupby_expand by apply row_string_tags.
  unfold row_string. rewrite <- list_fmap_compose.
  apply list_fmap_ext. intros _ col _. simpl.
  by destruct (cell_binary g row col Hbin) as [-> | ->].
Qed.

(** What [encodeGrid] returns on a box, as the groups of a body. *)
Lemma row_groups_body g top bot a b :
  top ≤ bot →
  concat (row_groups g a b bot <$> range2 top (bot + 1))
  = body_groups ((λ row, groupby (row_string g a b row)) <$> range2 top bot)
      (groupby (row_string g a b bot)).
Proof.
  intros Htb. rewrite range2_snoc by done. rewrite fmap_app, concat_app.
  unfold body_groups. f_equal.
  - rewrite <- list_fmap_compose. f_equal. apply Forall_fmap_ext_1, Forall_forall.
    intros row Hrow. apply elem_of_range2 in Hrow. unfold row_groups. simpl.
    destruct (Z.eqb_spec row bot); [lia|done].
  - simpl. unfold row_groups. rewrite Z.eqb_refl. simpl. by rewrite app_nil_r.
Qed.

(** On a grid whose box [findBoundaries] gives with two finite columns,
    [writeRLE] ends by itself and [parseRLE] reads what it wrote back as the
    grid cut to that box. *)
Lemma writeRLE_parseRLE_finite_box g top bot a b :
  well_formed g → shape1 g < 2 ^ 63 →
  findBoundaries g = Ok (top, bot, Int a, Int b) →
  ∃ text, writeRLE g = Some (text, Ok ())
          ∧ parseRLE text = Ok (crop g top bot a b).
Proof.
  intros [Hrect Hbin] Hw Hb.
  pose proof (findBoundaries_finite_box _ _ _ _ _ Hb) as (Htop & Hbot & Ha & Hb').
  set (w := Z.to_nat (b + 1 - a)).
  set (rows := (λ row, groupby (row_string g a b row)) <$> range2 top bot).
  set (final := groupby (row_string g a b bot)).
  assert (final ≠ []) as Hne.
  { apply groupby_nonempty. intros H. apply (f_equal length) in H.
    rewrite row_string_length in H. simpl in H. lia. }
  unfold writeRLE. rewrite Hb.
  rewrite encodeGrid_box by (done || lia).
  rewrite row_groups_body by lia. fold rows final.
  assert (body_groups rows final ≠ []) as HG.
  { unfold body_groups. intros H. apply app_eq_nil in H as [_ H].
    by apply app_eq_nil in H as [_ H]. }
  rewrite (writeRLE_loop_wrap (body_groups rows final) [] [] _
             (S (length (body_groups rows final))) HG ltac:(lia)).
  rewrite (wrap_fill _ []).
  eexists. split; [reflexivity|].
  cbn [num_sub num_neg num_add str].
  assert (∀ body, (txt "x = " ++ str_int (b + - a + 1) ++ txt ", y = "
                   ++ str_int (bot - top + 1) ++ ["010"%char])
                  ++ join_lines body
                  = document (Z.of_nat w) (bot - top + 1) body ∨ body = [])
    as Hdoc.
  { intros body. destruct body as [|l body]; [by right|left].
    unfold document. rewrite (join_with_cons _ (header_line _ _)) by done.
    unfold header_line. replace (Z.of_nat w) with (b + - a + 1) by lia.
    rewrite <- !app_assoc. reflexivity. }
  destruct (Hdoc (@concat ascii <$>
              fill (token_text <$> emitted (body_groups rows final)) []))
    as [-> | Hnil].
  2:{ apply fmap_nil_inv in Hnil. by apply fill_nonempty in Hnil. }
  rewrite (body_roundtrip w (bot - top + 1) rows final); [|..|done].
  - unfold crop. f_equal. f_equal; [lia|].
    rewrite (range2_snoc top bot) by lia. unfold rows, final.
    rewrite !fmap_app, <- list_fmap_compose. f_equal.
    + apply list_fmap_ext. intros _ row _. simpl. by apply row_string_cells.
    + simpl. f_equal. by apply row_string_cells.
  - unfold rows. apply Forall_fmap, Forall_forall. intros row _. simpl.
    apply row_string_runs. lia.
  - apply row_string_runs. lia.
Qed.

End roundtrip.





(** * Further properties of the boundary search *)

(** X1. On a well-formed grid with a live cell [findBoundaries] returns the
    first and the last row that hold a live cell and the smallest column
    that holds one. *)
Theorem findBoundaries_finds_rows_and_smallest_column (g : ndarray) :
  well_formed g → (∃ r, live_row g r) →
  ∃ top bot m maxCol,
    findBoundaries g = Ok (top, bot, Int m, maxCol)
    ∧ live_row g top ∧ (∀ r, live_row g r → top ≤ r)
    ∧ live_row g bot ∧ (∀ r, live_row g r → r ≤ bot)
    ∧ (∃ r, live_at g r m) ∧ (∀ r c, live_at g r c → m ≤ c).
Proof. apply findBoundaries_rows_and_minCol. Qed.

Section dead_grids.

Lemma for_break_never {A} (l : list A) stop x :
  Forall (λ y, stop y = false) l →
  for_break l stop x = match last l with Some y => Some y | None => x end.
Proof.
  intros Hl. revert x. induction Hl as [|y l Hy Hl IH]; intros x; [done|].
  cbn [for_break]. rewrite Hy, IH. destruct l as [|z l]; [done|].
  rewrite last_cons_cons. destruct (last (z :: l)) eqn:E; [done|].
  by apply last_None in E.
Qed.

Lemma last_range (n : nat) :
  last (Z.of_nat <$> seq 0 (S n)) = Some (Z.of_nat n).
Proof.
  rewrite seq_S, fmap_app. cbn [fmap list_fmap]. by rewrite last_snoc.
Qed.

Lemma last_reverse_range (n : nat) :
  last (reverse (Z.of_nat <$> seq 0 (S n))) = Some 0.
Proof. by rewrite last_reverse. Qed.

Lemma scan_row_dead g row minmax :
  (∀ c, 0 ≤ c < shape1 g → cell_at g row c ≠ 1) →
  scan_row g row minmax = minmax.
Proof.
  intros Hdead. unfold scan_row.
  apply (foldl_invariant (λ mm, mm = minmax)); [done|].
  intros mm col Hcol ->. apply elem_of_range in Hcol.
  destruct minmax as [minCol maxCol].
  by rewrite (proj2 (Z.eqb_neq _ _) (Hdead col Hcol)).
Qed.

Lemma scan_rows_dead g rs :
  (∀ r c, r ∈ rs → 0 ≤ c < shape1 g → cell_at g r c ≠ 1) →
  scan_rows g rs (Inf, NegInf) = (Inf, NegInf).
Proof.
  induction rs as [|row rs IH]; intros Hdead; [done|].
  cbn [scan_rows]. rewrite scan_row_dead by (intros; apply Hdead; [by left|done]).
  cbn. apply IH. intros r c Hr. apply Hdead. by right.
Qed.

Lemma findBoundaries_dead g :
  well_formed g → (∀ r, ¬ live_row g r) →
  findBoundaries g
  = if shape0 g =? 0 then Raise UnboundLocalError
    else Ok (shape0 g - 1, 0, Inf, NegInf).
Proof.
  intros Hwf Hdead. unfold findBoundaries.
  assert (Forall (λ r, (Py.sum (row_at g r) >? 0) = false)
            (range (shape0 g))) as Hstop.
  { apply Forall_forall. intros r Hr%elem_of_range.
    destruct (Py.sum (row_at g r) >? 0) eqn:E; [|done].
    apply live_row_sum in E; [|done..]. by apply Hdead in E. }
  rewrite (for_break_never _ _ None Hstop).
  rewrite (for_break_never (reverse _) _ None)
    by (by apply Forall_reverse).
  unfold range, shape0 in *. rewrite Nat2Z.id.
  destruct (length (rows g)) as [|n] eqn:En; [done|].
  rewrite last_range, last_reverse_range.
  destruct (Z.eqb_spec (Z.of_nat (S n)) 0) as [|_]; [lia|].
  rewrite scan_rows_dead; [do 4 f_equal; lia|].
  intros r c Hr%elem_of_range2 Hc Hlive.
  apply (Hdead r). exists c. apply live_at_cell_at.
  unfold shape0. rewrite En. split; [lia|done].
Qed.

Lemma dead_grid_dead (n m : nat) r : ¬ live_row (dead_grid n m) r.
Proof.
  intros (c & _ & Hc). unfold cell, dead_grid in Hc. cbn [rows] in Hc.
  destruct ((r <? 0) || (c <? 0)); [done|].
  destruct (replicate n (replicate m 0) !! Z.to_nat r) as [row|] eqn:E;
    [|done].
  apply lookup_replicate in E as [-> _]. simpl in Hc.
  destruct (replicate m 0 !! Z.to_nat c) as [v|] eqn:E; [|done].
  apply lookup_replicate in E as [-> _]. done.
Qed.

End dead_grids.

(** X2. On a well-formed grid without a live cell [findBoundaries] finds no
    box: with no row at all [top] is never bound and the function raises
    [UnboundLocalError]; otherwise it returns the last row as [top], the
    first row as [bot] and the two infinities it started from as
    columns. *)
Theorem findBoundaries_without_live_cell (g : ndarray) :
  well_formed g → (∀ r, ¬ live_row g r) →
  findBoundaries g
  = if shape0 g =? 0 then Raise UnboundLocalError
    else Ok (shape0 g - 1, 0, Inf, NegInf).
Proof. apply findBoundaries_dead. Qed.

(** X3. [writeRLE] never ends normally on a well-formed grid without a live
    cell, and writes no pattern: with no row nothing is written and
    [UnboundLocalError] is raised; with one row the header
    [x = -inf, y = 1] is written and [range] raises [TypeError]; with more
    rows the header [x = -inf, y = 2 - rows] is written and the first group
    is missing, an [IndexError]. *)
Theorem writeRLE_without_live_cell (g : ndarray) :
  well_formed g → (∀ r, ¬ live_row g r) →
  writeRLE g
  = if shape0 g =? 0 then Some ([], Raise UnboundLocalError)
    else Some (txt "x = -inf, y = " ++ str_int (2 - shape0 g) ++ ["010"%char],
               Raise (if shape0 g =? 1 then TypeError else IndexError)).
Proof.
  intros Hwf Hdead. unfold writeRLE. rewrite findBoundaries_dead by done.
  destruct (Z.eqb_spec (shape0 g) 0) as [|Hn]; [done|].
  replace (0 - (shape0 g - 1) + 1) with (2 - shape0 g) by lia.
  destruct (Z.eqb_spec (shape0 g) 1) as [E|E].
  - rewrite E. reflexivity.
  - assert (range2 (shape0 g - 1) (0 + 1) = []) as Hrows.
    { unfold range2. replace (Z.to_nat _) with 0%nat; [done|].
      unfold shape0 in *. lia. }
    unfold encodeGrid. rewrite Hrows. reflexivity.
Qed.

Section exact_box.

Lemma scan_row_cells g row minmax :
  scan_row g row minmax = foldl (scan_cell g row) minmax (range (shape1 g)).
Proof.
  unfold scan_row. generalize (range (shape1 g)). intros l. revert minmax.
  induction l as [|col l IH]; intros [minCol maxCol]; [done|].
  cbn [foldl]. by rewrite IH.
Qed.

Lemma foldl_split_invariant {A B} (P : list B → A → Prop) (f : A → B → A) l :
  ∀ a,
    P [] a →
    (∀ pre x post a, l = pre ++ x :: post → P pre a → P (pre ++ [x]) (f a x)) →
    P l (foldl f a l).
Proof.
  induction l as [|x l IH] using rev_ind; intros a Ha Hstep; [done|].
  rewrite foldl_app. cbn [foldl]. apply (Hstep l x []); [done|].
  apply IH; [done|]. intros pre y post b -> Hb.
  apply (Hstep pre y (post ++ [x])); [|done]. by rewrite <- app_assoc.
Qed.

Lemma range_split n pre x post :
  range n = pre ++ x :: post → 0 ≤ x < n ∧ ∀ y, y ∈ pre → y < x.
Proof.
  intros Hsplit.
  assert (∀ i v, range n !! i = Some v → v = Z.of_nat i ∧ Z.of_nat i < n) as Hlook.
  { intros i v. unfold range. rewrite list_lookup_fmap.
    destruct (seq 0 (Z.to_nat n) !! i) as [k|] eqn:E; [|done].
    apply lookup_seq in E as [-> ?]. intros [= <-]. lia. }
  assert (range n !! length pre = Some x) as Hx
      by (by rewrite Hsplit, list_lookup_middle).
  apply Hlook in Hx as [-> ?]. split; [lia|].
  intros y [i Hi]%list_elem_of_lookup.
  pose proof (lookup_lt_Some _ _ _ Hi).
  assert (range n !! i = Some y) as Hy
      by (rewrite Hsplit; by apply lookup_app_l_Some).
  apply Hlook in Hy as [-> ?]. lia.
Qed.

Lemma scan_cell_smallest g seen row col minmax :
  smallest_column g seen minmax.1 →
  smallest_column g (λ r c, seen r c ∨ (r = row ∧ c = col))
    (scan_cell g row minmax col).1.
Proof.
  destruct minmax as [minCol maxCol]. cbn [fst]. intros H. unfold scan_cell.
  destruct (cell_at g row col =? 1) eqn:E.
  - apply Z.eqb_eq in E. destruct minCol as [m| | |]; simpl in *; try done.
    + destruct H as [(r & Hr & Hl) Hle]. destruct (Z.ltb_spec col m).
      * simpl. split; [exists row; split; [by right|done]|].
        intros r' c' [Hs|[-> ->]] Hc; [|lia]. specialize (Hle r' c' Hs Hc). lia.
      * assert (smallest_column g (λ r c, seen r c ∨ r = row ∧ c = col) (Int m)).
        { split; [exists r; split; [by left|done]|].
          intros r' c' [Hs|[-> ->]] Hc; [|lia]. by apply (Hle r' c'). }
        by destruct (num_lt maxCol (Int col)).
    + split; [exists row; split; [by right|done]|].
      intros r' c' [Hs|[-> ->]] Hc; [|lia]. exfalso. by apply (H r' c').
  - apply Z.eqb_neq in E. destruct minCol as [m| | |]; simpl in *; try done.
    + destruct H as [(r & Hr & Hl) Hle].
      split; [exists r; split; [by left|done]|].
      intros r' c' [Hs|[-> ->]] Hc; [|done]. by apply (Hle r' c').
    + intros r' c' [Hs|[-> ->]]; [|done]. by apply (H r' c').
Qed.

(** A live cell that lowers [minCol] leaves [maxCol] alone: it is left of
    every live cell read before it. Any other live cell raises [maxCol] to
    its column when it is beyond. *)
Lemma scan_cell_largest g seen row col minmax :
  (∀ r c, seen r c → before r c row col) →
  smallest_column g seen minmax.1 → largest_column g seen minmax.2 →
  largest_column g (λ r c, seen r c ∨ (r = row ∧ c = col))
    (scan_cell g row minmax col).2.
Proof.
  destruct minmax as [minCol maxCol]. cbn [fst snd].
  intros Hbefore Hmin [Hwit Hmax].
  assert (∀ r c, seen r c →
            (∀ r' c', seen r' c' → cell_at g r' c' = 1 →
                      before r' c' r c → c < c') →
            ∀ r' c', seen r' c' ∨ r' = row ∧ c' = col →
                     cell_at g r' c' = 1 → before r' c' r c → c < c') as Hold.
  { intros r c Hs Hex r' c' [Hs'|[-> ->]] Hc' Hb; [by apply (Hex r' c')|].
    apply Hbefore in Hs. unfold before in *. lia. }
  assert (match maxCol with
          | NegInf => True
          | Int b => ∃ r, (seen r b ∨ r = row ∧ b = col) ∧ cell_at g r b = 1
          | _ => False
          end) as Hwit'.
  { destruct maxCol; try done. destruct Hwit as (r & Hr & Hl).
    exists r. split; [by left|done]. }
  unfold scan_cell. destruct (cell_at g row col =? 1) eqn:E.
  2:{ apply Z.eqb_neq in E. cbn [snd]. split; [done|].
      intros r c [Hs|[-> ->]] Hc; [|done].
      destruct (Hmax r c Hs Hc) as [H|H]; [by left|right; by apply Hold]. }
  apply Z.eqb_eq in E.
  destruct (num_lt (Int col) minCol) eqn:Elt.
  - cbn [snd]. split; [done|].
    intros r c [Hs|[-> ->]] Hc.
    + destruct (Hmax r c Hs Hc) as [H|H]; [by left|right; by apply Hold].
    + right. intros r' c' [Hs'|[-> ->]] Hc' Hb; [|unfold before in Hb; lia].
      destruct minCol as [m| | |]; simpl in *; try done.
      * destruct Hmin as [_ Hle]. specialize (Hle r' c' Hs' Hc').
        apply Z.ltb_lt in Elt. lia.
      * exfalso. by apply (Hmin r' c').
  - destruct (num_lt maxCol (Int col)) eqn:Egt; cbn [snd].
    + split; [exists row; split; [by right|done]|].
      intros r c [Hs|[-> ->]] Hc.
      * destruct (Hmax r c Hs Hc) as [H|H]; [left|right; by apply Hold].
        destruct maxCol as [b| | |]; simpl in *; try done.
        apply Z.ltb_ge in H. apply Z.ltb_lt in Egt. apply Z.ltb_ge. lia.
      * left. simpl. apply Z.ltb_ge. lia.
    + split; [done|].
      intros r c [Hs|[-> ->]] Hc.
      * destruct (Hmax r c Hs Hc) as [H|H]; [by left|right; by apply Hold].
      * by left.
Qed.

Lemma largest_column_ext g seen seen' maxCol :
  (∀ r c, seen r c ↔ seen' r c) →
  largest_column g seen maxCol → largest_column g seen' maxCol.
Proof.
  intros Hext [Hwit Hmax]. split.
  - destruct maxCol; try done. destruct Hwit as (r & Hr & Hl).
    exists r. split; [by apply Hext|done].
  - intros r c Hs%Hext Hc. destruct (Hmax r c Hs Hc) as [H|H]; [by left|right].
    intros r' c' Hs'%Hext. by apply H.
Qed.

Lemma scan_row_largest g seen row minmax :
  (∀ r c, seen r c → r < row) →
  smallest_column g seen minmax.1 → largest_column g seen minmax.2 →
  largest_column g
    (λ r c, seen r c ∨ (r = row ∧ c ∈ range (shape1 g)))
    (scan_row g row minmax).2.
Proof.
  intros Hrows Hmin Hmax. rewrite scan_row_cells.
  apply (foldl_split_invariant
           (λ pre mm,
              smallest_column g (λ r c, seen r c ∨ (r = row ∧ c ∈ pre)) mm.1
              ∧ largest_column g (λ r c, seen r c ∨ (r = row ∧ c ∈ pre)) mm.2)).
  - assert (∀ r c, seen r c ↔ seen r c ∨ r = row ∧ c ∈ @nil Z) as Hext.
    { intros r c. split; [by left|]. intros [H|[_ H]]; [done|].
      by apply elem_of_nil in H. }
    split; [by eapply smallest_column_ext|by eapply largest_column_ext].
  - intros pre col post mm Hsplit [Hs Hl].
    apply range_split in Hsplit as [_ Hpre].
    assert (∀ r c, (seen r c ∨ r = row ∧ c ∈ pre) ∨ r = row ∧ c = col ↔
                   seen r c ∨ r = row ∧ c ∈ pre ++ [col]) as Hext.
    { intros r c. rewrite elem_of_app, list_elem_of_singleton. tauto. }
    split.
    + eapply smallest_column_ext; [exact Hext|]. by apply scan_cell_smallest.
    + eapply largest_column_ext; [exact Hext|].
      apply scan_cell_largest; [|done..].
      intros r c [H|[-> H]]; [left; by apply (Hrows r c)|right].
      split; [done|by apply Hpre].
Qed.

Lemma range2_nil a b : b ≤ a → range2 a b = [].
Proof. intros H. unfold range2. by replace (Z.to_nat (b - a)) with 0%nat by lia. Qed.

Lemma range2_cons a b : a < b → range2 a b = a :: range2 (a + 1) b.
Proof.
  intros H. unfold range2.
  replace (Z.to_nat (b - a)) with (S (Z.to_nat (b - (a + 1)))) by lia.
  cbn [seq fmap list_fmap]. f_equal; [lia|].
  rewrite <- fmap_S_seq, <- list_fmap_compose.
  apply list_fmap_ext. intros _ k _. simpl. lia.
Qed.

(** The scan of the rows keeps the largest column in the same sense; when
    it leaves early that column is the last one, which no column is
    beyond. *)
Lemma scan_rows_largest g (n : nat) :
  ∀ lo hi seen minmax,
    n = Z.to_nat (hi - lo) →
    (∀ r c, seen r c → r < lo) →
    smallest_column g seen minmax.1 → largest_column g seen minmax.2 →
    largest_column g
      (λ r c, seen r c ∨ (r ∈ range2 lo hi ∧ c ∈ range (shape1 g)))
      (scan_rows g (range2 lo hi) minmax).2.
Proof.
  induction n as [|n IH]; intros lo hi seen minmax Hn Hrows Hmin Hmax.
  - rewrite range2_nil by lia. simpl.
    eapply largest_column_ext; [|exact Hmax].
    intros r c. split; [by left|]. intros [H|[H _]]; [done|].
    by apply elem_of_nil in H.
  - rewrite range2_cons by lia. cbn [scan_rows].
    pose proof (scan_row_smallest g seen lo minmax Hmin) as Hs.
    pose proof (scan_row_largest g seen lo minmax Hrows Hmin Hmax) as Hl.
    destruct (scan_row g lo minmax) as [minCol maxCol]. cbn [fst snd] in Hs, Hl.
    destruct (num_eq minCol (Int 0) && _) eqn:E.
    + apply andb_true_iff in E as [_ E].
      destruct maxCol as [b| | |]; try done. simpl in E.
      apply Z.eqb_eq in E as ->. cbn [snd].
      destruct Hl as [(r & Hr & Hlive) Hle]. split.
      * exists r. split; [|done]. destruct Hr as [Hr|[-> Hr]]; [by left|].
        right. split; [by left|done].
      * intros r' c' [Hs'|[Hr' Hc']] Hc.
        -- destruct (Hle r' c' (or_introl Hs') Hc) as [H|H]; [by left|right].
           intros r2 c2 [H2|[H2 Hc2]] Hlive2 Hb.
           ++ apply (H r2 c2); [by left|done..].
           ++ apply elem_of_cons in H2 as [->|H2].
              ** apply (H lo c2); [by right|done..].
              ** apply elem_of_range2 in H2. apply Hrows in Hs'.
                 unfold before in Hb. lia.
        -- apply elem_of_cons in Hr' as [->|Hr'].
           ++ destruct (Hle lo c' (or_intror (conj eq_refl Hc')) Hc) as [H|H];
                [by left|right].
              intros r2 c2 [H2|[H2 Hc2]] Hlive2 Hb.
              ** apply (H r2 c2); [by left|done..].
              ** apply elem_of_cons in H2 as [->|H2].
                 --- apply (H lo c2); [by right|done..].
                 --- apply elem_of_range2 in H2. unfold before in Hb. lia.
           ++ left. apply elem_of_range in Hc'. simpl. apply Z.ltb_ge. lia.
    + eapply largest_column_ext;
        [|apply (IH (lo + 1) hi
                   (λ r c, seen r c ∨ r = lo ∧ c ∈ range (shape1 g))
                   (minCol, maxCol)); [lia| |exact Hs|exact Hl]].
      * intros r c. rewrite elem_of_cons. tauto.
      * intros r c [H|[-> _]]; [apply Hrows in H|]; lia.
Qed.

Lemma findBoundaries_exact g r b :
  well_formed g →
  live_at g r b → (∀ r' c', live_at g r' c' → c' ≤ b) →
  (∃ r' c', live_at g r' c' ∧ before r' c' r b) →
  ∃ top bot a,
    findBoundaries g = Ok (top, bot, Int a, Int b)
    ∧ live_row g top ∧ (∀ r, live_row g r → top ≤ r)
    ∧ live_row g bot ∧ (∀ r, live_row g r → r ≤ bot)
    ∧ (∃ r, live_at g r a) ∧ (∀ r c, live_at g r c → a ≤ c).
Proof.
  intros Hwf Hlive Hmax (r' & c' & Hlive' & Hb).
  destruct (findBoundaries_rows_and_minCol g Hwf
              (ex_intro _ r (ex_intro _ b Hlive)))
    as (top & bot & a & maxCol & Hfb & Htop & Hfirst & Hbot & Hlast & Ha & Hsmall).
  exists top, bot, a. split; [|done].
  enough (maxCol = Int b) as <- by done.
  pose proof Hfb as Hscan. unfold findBoundaries in Hscan.
  destruct (for_break (range _) _ _) as [t|]; [|done].
  destruct (for_break (reverse _) _ _) as [b'|]; [|done].
  destruct (scan_rows g (range2 t (b' + 1)) (Inf, NegInf)) as [mn mx] eqn:Es.
  injection Hscan as -> -> -> ->.
  pose proof (scan_rows_largest g _ top (bot + 1) (λ _ _, False) (Inf, NegInf)
                eq_refl) as Hl.
  rewrite Es in Hl. cbn [fst snd] in Hl.
  destruct Hl as [Hwit Hle];
    [by intros ? ? []|by intros ? ? []|split; [done|by intros ? ? []]|].
  assert (∀ r0 c0, live_at g r0 c0 →
            (False ∨ r0 ∈ range2 top (bot + 1) ∧ c0 ∈ range (shape1 g))
            ∧ cell_at g r0 c0 = 1) as Hseen.
  { intros r0 c0 Hl0.
    pose proof (Hfirst r0 (ex_intro _ c0 Hl0)).
    pose proof (Hlast r0 (ex_intro _ c0 Hl0)).
    apply live_at_cell_at in Hl0 as [[_ Hc] Hv]. split; [|done].
    right. split; [apply range2_elem; lia|by apply range_elem]. }
  assert (∀ r0 c0,
            (False ∨ r0 ∈ range2 top (bot + 1) ∧ c0 ∈ range (shape1 g)) →
            cell_at g r0 c0 = 1 → live_at g r0 c0) as Hback.
  { intros r0 c0 [[]|[Hr0%elem_of_range2 Hc0%elem_of_range]] Hv.
    destruct Htop as [ct Hct%live_at_cell_at].
    destruct Hbot as [cb Hcb%live_at_cell_at].
    apply live_at_cell_at. split; [lia|done]. }
  destruct (Hseen r b Hlive) as [Hs Hv].
  destruct (Hle r b Hs Hv) as [H|H].
  - destruct maxCol as [b2| | |]; simpl in *; try done.
    destruct Hwit as (r2 & Hs2 & Hv2).
    pose proof (Hmax r2 b2 (Hback r2 b2 Hs2 Hv2)).
    apply Z.ltb_ge in H. f_equal. lia.
  - exfalso. destruct (Hseen r' c' Hlive') as [Hs' Hv'].
    specialize (H r' c' Hs' Hv' Hb). specialize (Hmax r' c' Hlive'). lia.
Qed.

End exact_box.

(** X4. [findBoundaries] returns the bounding box of the live cells (first
    and last live row, smallest and largest live column) on every
    well-formed grid in which the largest live column holds a live cell
    that is not the first live cell in reading order. *)
Theorem findBoundaries_bounding_box (g : ndarray) (r b : Z) :
  well_formed g →
  live_at g r b → (∀ r' c', live_at g r' c' → c' ≤ b) →
  (∃ r' c', live_at g r' c' ∧ before r' c' r b) →
  ∃ top bot a,
    findBoundaries g = Ok (top, bot, Int a, Int b)
    ∧ live_row g top ∧ (∀ r, live_row g r → top ≤ r)
    ∧ live_row g bot ∧ (∀ r, live_row g r → r ≤ bot)
    ∧ (∃ r, live_at g r a) ∧ (∀ r c, live_at g r c → a ≤ c).
Proof. apply findBoundaries_exact. Qed.

(** X5. Whenever [findBoundaries] returns two finite columns on a
    well-formed grid, [writeRLE] ends normally and [parseRLE] reads the
    text it wrote back as the grid cut to the returned box. *)
Theorem writeRLE_then_parseRLE (g : ndarray) (top bot a b : Z) :
  well_formed g → shape1 g < 2 ^ 63 →
  findBoundaries g = Ok (top, bot, Int a, Int b) →
  ∃ text, writeRLE g = Some (text, Ok ())
          ∧ parseRLE text = Ok (crop g top bot a b).
Proof. apply writeRLE_parseRLE_finite_box. Qed.

(** * Further properties of the encoder *)

Section encoding.

Lemma groupby_alternating s : alternating (groupby s).
Proof.
  induction s as [|c s IH]; [by intros i g h H|].
  cbn [groupby]. destruct (groupby s) as [|[c' n] groups] eqn:E.
  { intros [|i] g h; [by intros _ H|done]. }
  case_bool_decide as Hc.
  - subst c'. intros [|i] g h Hg Hh.
    + injection Hg as <-. apply (IH 0%nat (c, n) h); [done|exact Hh].
    + by apply (IH (S i) g h).
  - intros [|i] g h Hg Hh.
    + injection Hg as <-. by injection Hh as <-.
    + by apply (IH i g h).
Qed.

End encoding.

(** X6. On a box inside a well-formed grid [encodeGrid] returns, row by row
    from [top] to [bot], the runs of the row between the columns [minCol]
    and [maxCol], followed by [$], or by [!] after the last row. The runs
    of a row are its run-length code: live or dead with a count of at
    least one, two runs in a row never of the same kind, and together the
    cells of the row. *)
Theorem encodeGrid_run_lengths (g : ndarray) (top bot a b : Z) :
  well_formed g → 0 ≤ top → bot < shape0 g → 0 ≤ a → b < shape1 g →
  ∃ runs : Z → list (ascii * Z),
    encodeGrid g top bot (Int a) (Int b)
    = Ok (concat ((λ row, runs row
                          ++ [(if row =? bot then "!"%char else "$"%char, 1)])
                    <$> range2 top (bot + 1)))
    ∧ ∀ row,
        Forall (λ run : ascii * Z, is_tag run.1 = true ∧ 1 ≤ run.2) (runs row)
        ∧ alternating (runs row)
        ∧ expand (runs row) = (λ col, cell g row col) <$> range2 a (b + 1).
Proof.
  intros [Hrect Hbin] Htop Hbot Ha Hb.
  exists (λ row, groupby (row_string g a b row)). split.
  - rewrite encodeGrid_box by done. f_equal. f_equal.
    apply list_fmap_ext. intros _ row _. unfold row_groups.
    by destruct (row =? bot).
  - intros row. split_and!.
    + apply groupby_tags, row_string_tags.
    + apply groupby_alternating.
    + by apply row_string_cells.
Qed.

(** * Further properties of padding and of the generation step *)

(** X7. Padding twice is padding once with the sum of the ring counts. *)
Theorem addSpace_twice (g : ndarray) (m n : Z) :
  0 ≤ m → 0 ≤ n →
  (g' ← addSpace g m; addSpace g' n) = addSpace g (m + n).
Proof.
  intros Hm Hn.
  rewrite <- (Z2Nat.id m), <- (Z2Nat.id n), <- Nat2Z.inj_add by done.
  rewrite !addSpace_rings. cbn. rewrite addSpace_rings.
  by rewrite (Nat.add_comm (Z.to_nat m)), Nat.iter_add.
Qed.

Section padded_step.

Lemma ringed_binary g : binary g → binary (ringed g).
Proof.
  intros Hbin. unfold binary, ringed. cbn [rows].
  apply Forall_fmap, Forall_cons. split.
  { simpl. apply Forall_cons. split; [by left|]. apply Forall_app.
    split; [|by repeat constructor]. apply Forall_replicate. by left. }
  apply Forall_app. split.
  - eapply Forall_impl; [exact Hbin|]. intros row Hrow. simpl.
    apply Forall_cons. split; [by left|]. apply Forall_app.
    split; [done|by repeat constructor].
  - apply Forall_singleton. simpl. apply Forall_cons. split; [by left|].
    apply Forall_app. split; [|by repeat constructor].
    apply Forall_replicate. by left.
Qed.

Lemma rings_well_formed g (n : nat) :
  well_formed g → well_formed (Nat.iter n ringed g).
Proof.
  intros [Hrect Hbin]. split; [by apply rings_rectangular|].
  induction n as [|n IH]; [done|]. by apply ringed_binary.
Qed.

Lemma live_inside_rings g (n : nat) r c :
  rectangular g →
  live_inside (Nat.iter n ringed g) (r, c)
  = live_inside g (r - Z.of_nat n, c - Z.of_nat n).
Proof.
  intros Hrect. unfold live_inside. cbn [fst snd]. rewrite rings_cell.
  destruct (in_bounds g (r - Z.of_nat n) (c - Z.of_nat n)) eqn:E.
  - apply in_bounds_iff in E. rewrite andb_true_l.
    replace (in_bounds _ r c) with true; [done|].
    symmetry. apply in_bounds_iff.
    destruct (rings_shape g n) as [-> ->]. lia.
  - by rewrite cell_outside, andb_false_r by done.
Qed.

Lemma count_related {A B} (f : A → bool) (h : B → bool) l1 l2 :
  Forall2 (λ x y, f x = h y) l1 l2 →
  length (filter (λ x, f x) l1) = length (filter (λ y, h y) l2).
Proof.
  induction 1 as [|x y l1 l2 Hxy _ IH]; [done|].
  rewrite !filter_cons, Hxy. destruct (h y); simpl; by rewrite IH.
Qed.

Lemma live_neighbours_rings g (n : nat) r c :
  rectangular g →
  live_neighbours (Nat.iter n ringed g) (r + Z.of_nat n) (c + Z.of_nat n)
  = live_neighbours g r c.
Proof.
  intros Hrect. unfold live_neighbours. f_equal.
  apply count_related. unfold moore.
  repeat constructor; rewrite live_inside_rings by done; f_equal; f_equal; lia.
Qed.

Lemma next_cell_rings g (n : nat) r c :
  rectangular g →
  next_cell (Nat.iter n ringed g) (r + Z.of_nat n) (c + Z.of_nat n)
  = next_cell g r c.
Proof.
  intros Hrect. unfold next_cell.
  rewrite live_neighbours_rings, rings_cell by done.
  by replace (r + Z.of_nat n - Z.of_nat n) with r by lia;
     replace (c + Z.of_nat n - Z.of_nat n) with c by lia.
Qed.

End padded_step.

(** X8. One generation on a padded grid agrees, on the cells of the grid
    that was padded, with one generation on that grid itself: the dead
    cells [checkArray] sees beyond the border stand for the rings of dead
    cells that [addSpace] adds. *)
Theorem updateGrid_after_addSpace (σ τ : store) (grid padded : loc)
    (g g' : ndarray) (n : Z) :
  well_formed g → 0 ≤ n → addSpace g n = Ok g' →
  σ !! grid = Some g → τ !! padded = Some g' →
  ∃ (σ' τ' : store) (h h' : ndarray),
    updateGrid grid σ = Ok (grid, σ') ∧ σ' !! grid = Some h
    ∧ updateGrid padded τ = Ok (padded, τ') ∧ τ' !! padded = Some h'
    ∧ ∀ r c, in_bounds g r c = true → cell h' (r + n) (c + n) = cell h r c.
Proof.
  intros Hwf Hn Hpad Hg Hg'.
  assert (n = Z.of_nat (Z.to_nat n)) as Hk by lia.
  set (k := Z.to_nat n) in *. clearbody k. subst n.
  rewrite addSpace_rings in Hpad. injection Hpad as <-.
  pose proof (rings_well_formed g k Hwf) as Hwf'.
  destruct (updateGrid_run σ grid g Hg Hwf) as (σ' & Hrun & Hh & _).
  destruct (updateGrid_run τ padded _ Hg' Hwf') as (τ' & Hrun' & Hh' & _).
  exists σ', τ', (generation g), (generation (Nat.iter k ringed g)).
  split_and!; try done.
  intros r c Hin. destruct Hwf as [Hrect _].
  assert (in_bounds (Nat.iter k ringed g) (r + Z.of_nat k) (c + Z.of_nat k)
          = true) as Hin'.
  { apply in_bounds_iff in Hin. apply in_bounds_iff.
    destruct (rings_shape g k) as [-> ->]. lia. }
  rewrite (generation_cell _ _ _ Hin' (proj1 Hwf')).
  rewrite (generation_cell _ _ _ Hin Hrect). by apply next_cell_rings.
Qed.

Section small_patterns.

Lemma moore_NoDup r c : NoDup ((r, c) :: moore r c).
Proof.
  unfold moore. repeat (apply NoDup_cons; split); [..|apply NoDup_nil_2];
    rewrite ?elem_of_cons, elem_of_nil; intros H;
    repeat destruct H as [H|H]; try done; injection H; lia.
Qed.

Lemma live_inside_position g p : live_inside g p = true → p ∈ positions g.
Proof.
  destruct p as [r c]. unfold live_inside. cbn [fst snd].
  intros [[Hr Hc]%in_bounds_iff _]%andb_true_iff.
  unfold positions. apply list_elem_of_bind. exists r.
  split; [|by apply range_elem]. apply list_elem_of_fmap.
  exists c. split; [done|by apply range_elem].
Qed.

(** The live neighbours of a cell, and the cell itself when it is alive,
    are among the live cells of the grid. *)
Lemma live_neighbours_population g r c :
  live_neighbours g r c + Z.b2z (live_inside g (r, c)) ≤ population g.
Proof.
  unfold live_neighbours, population.
  assert (length (filter (λ p, live_inside g p) ((r, c) :: moore r c))
          ≤ length (filter (λ p, live_inside g p) (positions g)))%nat as Hle.
  { apply submseteq_length, NoDup_submseteq.
    - apply NoDup_filter, moore_NoDup.
    - intros p [Hp _]%list_elem_of_filter. apply list_elem_of_filter.
      split; [done|]. apply live_inside_position. by apply Is_true_true. }
  rewrite filter_cons in Hle.
  destruct (live_inside g (r, c)) eqn:E.
  - rewrite decide_True in Hle by done. simpl in *. lia.
  - rewrite decide_False in Hle by (by intros []). simpl in *. lia.
Qed.

Lemma next_cell_small g r c :
  in_bounds g r c = true → population g ≤ 2 → next_cell g r c = 0.
Proof.
  intros Hin Hpop. pose proof (live_neighbours_population g r c) as Hle.
  unfold next_cell, live_inside in *. cbn [fst snd] in Hle. rewrite Hin in Hle.
  destruct (cell g r c =? 1); simpl in Hle.
  - replace (live_neighbours g r c <? 2) with true; [done|].
    symmetry. apply Z.ltb_lt. lia.
  - replace (live_neighbours g r c =? 3) with false; [done|].
    symmetry. apply Z.eqb_neq. lia.
Qed.

End small_patterns.

(** X9. A pattern of fewer than three live cells dies out: after
    [updateGrid] on a well-formed grid with at most two live cells every
    cell is dead. *)
Theorem updateGrid_small_pattern_dies (σ : store) (grid : loc) (g : ndarray) :
  σ !! grid = Some g → well_formed g → population g ≤ 2 →
  ∃ (σ' : store) (g' : ndarray),
    updateGrid grid σ = Ok (grid, σ') ∧ σ' !! grid = Some g'
    ∧ shape0 g' = shape0 g ∧ shape1 g' = shape1 g
    ∧ ∀ r c, cell g' r c = 0.
Proof.
  intros Hg Hwf Hpop.
  destruct (updateGrid_run σ grid g Hg Hwf) as (σ' & Hrun & Hg' & _).
  exists σ', (generation g). destruct (generation_shape g) as [H0 H1].
  split_and!; try done. intros r c.
  destruct (in_bounds g r c) eqn:Hin.
  - rewrite generation_cell by (done || apply Hwf). by apply next_cell_small.
  - apply cell_outside; [apply generation_well_formed, Hwf|].
    unfold in_bounds in *. by rewrite H0, H1.
Qed.

Section animation.

Lemma fresh_not_held (σ : store) l : is_Some (σ !! l) → l ≠ fresh (dom σ).
Proof.
  intros Hl ->. apply elem_of_dom in Hl. by apply is_fresh in Hl.
Qed.

(** The loop of [createAnimation]: every turn shows the next generation of
    the grid it works on, and touches no other object. *)
Lemma createAnimation_loop grid (l : list Z) :
  ∀ (σ : store) g frames,
    σ !! grid = Some g → well_formed g →
    ∃ σ' : store,
      for_foldM l (λ _ frames,
        updated ← updateGrid grid;
        shown ← deref updated;
        mret (frames ++ [shown])) frames σ
      = Ok (frames ++ ((λ j, Nat.iter j generation g) <$> seq 1 (length l)), σ')
      ∧ ∀ o, o ≠ grid → is_Some (σ !! o) → σ' !! o = σ !! o.
Proof.
  induction l as [|x l IH]; intros σ g frames Hg Hwf.
  { exists σ. split; [by rewrite app_nil_r|done]. }
  destruct (updateGrid_run σ grid g Hg Hwf) as (σ1 & Hrun & Hg1 & Hframe).
  destruct (IH σ1 (generation g) (frames ++ [generation g]) Hg1)
    as (σ' & Hloop & Hframe'); [apply generation_well_formed, Hwf|].
  exists σ'. split.
  - cbn [for_foldM]. erewrite run_bind; cycle 1.
    { erewrite run_bind by exact Hrun. erewrite run_bind by (by apply run_deref).
      reflexivity. }
    rewrite Hloop. f_equal. f_equal. rewrite <- app_assoc. f_equal.
    cbn [length seq fmap list_fmap app]. f_equal.
    rewrite <- (fmap_S_seq 1), <- list_fmap_compose.
    apply list_fmap_ext. intros _ j _. cbn [compose]. by rewrite Nat.iter_succ_r.
  - intros o Ho Hs. rewrite Hframe'; [by apply Hframe|done|].
    by rewrite Hframe.
Qed.

End animation.

(** X10. [createAnimation] shows the grid it prepared (the given grid,
    padded when it is smaller than the requested size) and then, one call of
    [updateGrid] after the other, each of its next generations; the grid
    handed in and every other array that existed before the call are left
    as they were. *)
Theorem createAnimation_shows_generations (σ : store) (inGrid : loc)
    (g : ndarray) (gridSize generations : Z) :
  σ !! inGrid = Some g → well_formed g →
  ∃ (start : ndarray) (σ' : store),
    createAnimation_grid g gridSize = Ok start
    ∧ createAnimation_frames inGrid gridSize generations σ
      = Ok ((λ j, Nat.iter j generation start)
              <$> seq 0 (S (Z.to_nat generations)), σ')
    ∧ ∀ o, is_Some (σ !! o) → σ' !! o = σ !! o.
Proof.
  intros Hg Hwf. unfold createAnimation_frames, createAnimation_grid, ring_count.
  set (n := Z.max (Z.abs (gridSize - shape0 g)) (Z.abs (gridSize - shape1 g))).
  set (l := fresh (dom σ)).
  assert (∀ o, is_Some (σ !! o) → o ≠ l) as Hfresh
      by (intros o Ho; by apply fresh_not_held).
  assert (∀ start, well_formed start →
            ∃ σ' : store,
              (shown ← deref l;
               for_foldM (range generations) (λ _ frames,
                 updated ← updateGrid l;
                 shown ← deref updated;
                 mret (frames ++ [shown])) [shown]) (<[l := start]> σ)
              = Ok ((λ j, Nat.iter j generation start)
                      <$> seq 0 (S (Z.to_nat generations)), σ')
              ∧ ∀ o, is_Some (σ !! o) → σ' !! o = σ !! o) as Hrest.
  { intros start Hstart.
    destruct (createAnimation_loop l (range generations) (<[l := start]> σ)
                start [start]) as (σ' & Hloop & Hframe);
      [by rewrite lookup_insert_eq|done|].
    exists σ'. split.
    - erewrite run_bind by (apply run_deref; by rewrite lookup_insert_eq).
      rewrite Hloop. unfold range. by rewrite length_fmap, length_seq.
    - intros o Ho. pose proof (Hfresh o Ho).
      rewrite Hframe; [by rewrite lookup_insert_ne| done|].
      by rewrite lookup_insert_ne. }
  rewrite (run_bind _ _ σ g σ) by (by apply run_deref).
  destruct ((shape0 g <? gridSize) || (shape1 g <? gridSize)) eqn:E.
  - assert (addSpace g n = Ok (Nat.iter (Z.to_nat n) ringed g)) as Hpad.
    { rewrite <- (Z2Nat.id n) at 1 by lia. apply addSpace_rings. }
    destruct (Hrest (Nat.iter (Z.to_nat n) ringed g)) as (σ' & Hrun & Hframe);
      [by apply rings_well_formed|].
    exists (Nat.iter (Z.to_nat n) ringed g), σ'. split; [done|].
    split; [|done]. erewrite run_bind; [exact Hrun|].
    erewrite run_bind by (by apply run_lift). reflexivity.
  - destruct (Hrest g Hwf) as (σ' & Hrun & Hframe).
    exists g, σ'. split; [done|]. split; [|done].
    erewrite run_bind; [exact Hrun|]. unfold np_copy. by rewrite Hg.
Qed.

(** * Further properties of the reader *)

Section line_reading.

(** What the loop over the lines does after a first part of the file depends
    on the rest through the loop alone. *)
Lemma parseRLE_lines_prefix pre L1 L2 :
  (∀ acc xv yv, parseRLE_lines L1 acc xv yv = parseRLE_lines L2 acc xv yv) →
  ∀ acc xv yv,
    parseRLE_lines (pre ++ L1) acc xv yv = parseRLE_lines (pre ++ L2) acc xv yv.
Proof.
  intros H. induction pre as [|line pre IH]; intros acc xv yv; [apply H|].
  cbn [app parseRLE_lines]. repeat case_match; try done; apply IH.
Qed.

Lemma parseRLE_same_lines file1 file2 :
  parseRLE_lines (strip <$> file_lines file1) [] None None
  = parseRLE_lines (strip <$> file_lines file2) [] None None →
  parseRLE file1 = parseRLE file2.
Proof. intros H. unfold parseRLE. by rewrite H. Qed.

Lemma file_lines_nonempty s : s ≠ [] → file_lines s ≠ [].
Proof.
  destruct s as [|c s]; [done|]. intros _. cbn [file_lines].
  case_bool_decide; [done|]. by destruct (file_lines s).
Qed.

Lemma file_lines_cons c s :
  file_lines (c :: s)
  = if bool_decide (c = "010"%char) then [c] :: file_lines s
    else match file_lines s with
         | line :: lines => (c :: line) :: lines
         | [] => [[c]]
         end.
Proof. reflexivity. Qed.

(** A text that ends with a newline ends a line. *)
Lemma file_lines_complete pre rest :
  pre = [] ∨ last pre = Some "010"%char →
  file_lines (pre ++ rest) = file_lines pre ++ file_lines rest.
Proof.
  intros [->|Hlast]; [done|].
  induction pre as [|c pre IH]; [done|].
  destruct pre as [|d pre].
  { injection Hlast as ->. done. }
  rewrite last_cons_cons in Hlast. specialize (IH Hlast).
  change ((c :: d :: pre) ++ rest) with (c :: ((d :: pre) ++ rest)).
  rewrite !(file_lines_cons c), IH. case_bool_decide; [done|].
  destruct (file_lines (d :: pre)) eqn:E; [|done].
  by apply file_lines_nonempty in E.
Qed.

Lemma lstrip_app_cases s t :
  lstrip (s ++ t) = if decide (lstrip s = []) then lstrip t else lstrip s ++ t.
Proof.
  induction s as [|c s IH]; [done|]. cbn [app lstrip].
  destruct (is_space c); [done|]. by rewrite decide_False.
Qed.

Lemma lstrip_head s c : head (lstrip s) = Some c → is_space c = false.
Proof.
  induction s as [|d s IH]; [done|]. cbn [lstrip].
  destruct (is_space d) eqn:E; [done|]. by intros [= <-].
Qed.

Lemma lstrip_snoc s c :
  is_space c = false → ∃ s', lstrip (s ++ [c]) = s' ++ [c].
Proof.
  intros Hc. induction s as [|d s IH].
  - exists []. cbn. by rewrite Hc.
  - cbn [app lstrip]. destruct (is_space d); [done|]. by exists (d :: s).
Qed.

(** [strip] leaves the first character that is no white space first. *)
Lemma strip_head s c : head (lstrip s) = Some c → head (strip s) = Some c.
Proof.
  intros Hc. pose proof (lstrip_head s c Hc) as Hsp. unfold strip.
  destruct (lstrip s) as [|c' u]; [done|]. injection Hc as ->.
  rewrite reverse_cons.
  destruct (lstrip_snoc (reverse u) c Hsp) as [s' ->].
  by rewrite reverse_snoc.
Qed.

(** [strip] drops white space at the end, a newline for one. *)
Lemma strip_app_space s c : is_space c = true → strip (s ++ [c]) = strip s.
Proof.
  intros Hc. unfold strip. rewrite lstrip_app_cases.
  destruct (decide (lstrip s = [])) as [->|Hne].
  - cbn. by rewrite Hc.
  - rewrite reverse_snoc. cbn [lstrip]. by rewrite Hc.
Qed.










End line_reading.

(** X11. [parseRLE] passes over comment lines: a line whose first character
    after white space is [#] can be taken out of the file, wherever it
    stands and whatever it holds, without any change to what [parseRLE]
    returns or raises. *)
Theorem parseRLE_skips_comment_lines (pre comment post : list ascii) :
  pre = [] ∨ last pre = Some "010"%char →
  no_newline comment → head (lstrip comment) = Some "#"%char →
  parseRLE (pre ++ comment ++ "010"%char :: post) = parseRLE (pre ++ post).
Proof.
  intros Hpre Hnl Hhash. apply parseRLE_same_lines.
  rewrite !(file_lines_complete pre) by done. rewrite file_lines_app by done.
  rewrite !fmap_app, fmap_cons. apply parseRLE_lines_prefix.
  intros acc xv yv. cbn [parseRLE_lines].
  rewrite (getitem_head _ "#"%char); [by rewrite bool_decide_eq_true_2|].
  apply strip_head. rewrite lstrip_app_cases.
  destruct (lstrip comment); [done|]. by rewrite decide_False.
Qed.






Section header_errors.

Lemma getitem_raises {A} (l : list A) i e : getitem l i = Raise e → e = IndexError.
Proof.
  unfold getitem, norm_index.
  destruct ((0 <=? _) && _); cbn; [|by intros [= <-]].
  destruct (l !! _); [done|by intros [= <-]].
Qed.

Lemma strip_subset s c : c ∈ strip s → c ∈ s.
Proof.
  intros Hc. destruct (strip_spaces s) as (pre & post & Hs & _).
  rewrite Hs, !elem_of_app. auto.
Qed.

End header_errors.

(** X19. A header line must hold a comma: on a file whose first line starts
    with [x] and holds none, [parseRLE] raises [IndexError] (the second
    size, or an [=], is missing) or [ValueError] (the first size is no
    integer), whatever else the file holds. *)
Theorem parseRLE_header_without_comma (line rest : list ascii) :
  no_newline line → head (strip line) = Some "x"%char → ","%char ∉ line →
  parseRLE (line ++ "010"%char :: rest) = Raise IndexError
  ∨ parseRLE (line ++ "010"%char :: rest) = Raise ValueError.
Proof.
  intros Hnl Hx Hcomma. unfold parseRLE.
  rewrite file_lines_app, fmap_cons by done.
  rewrite (strip_app_space line "010"%char eq_refl).
  cbn [parseRLE_lines]. rewrite (getitem_head _ _ Hx).
  rewrite bool_decide_eq_false_2 by done.
  rewrite bool_decide_eq_true_2 by done.
  assert (split ","%char (strip line) = [strip line]) as ->.
  { apply split_where_nil, Forall_forall. intros c Hc.
    apply bool_decide_eq_false_2. intros ->. by apply Hcomma, strip_subset. }
  change (getitem [strip line] 0) with (Ok (strip line)).
  change (getitem [strip line] 1) with (@Raise (list ascii) IndexError).
  cbn [mbind result_bind].
  destruct (getitem (split "="%char (strip (strip line))) 1) as [v0|e] eqn:E.
  - cbn [mbind result_bind]. destruct (int_raises v0) as [[n ->]| ->];
      [by left|by right].
  - apply getitem_raises in E as ->. by left.
Qed.

Section decoded_grids.

Lemma parseRLE_row_binary xvalue chunk row :
  parseRLE_row xvalue chunk = Ok row → Forall (λ v, v = 0 ∨ v = 1) row.
Proof.
  unfold parseRLE_row.
  destruct (for_fold _ _ []) as [gridLine|e] eqn:E; [|done].
  apply (for_fold_invariant (Forall (λ v, v = 0 ∨ v = 1))) in E; cycle 1.
  { constructor. }
  { intros i line line' _ Hline Hbody.
    destruct (getitem (filter _ chunk) i) as [curTag|]; [|done].
    cbn [mbind result_bind] in Hbody.
    destruct (getitem (split_where _ chunk) i) as [text|]; [|done].
    cbn [mbind result_bind] in Hbody. rewrite run_count_int in Hbody.
    cbn [mbind result_bind] in Hbody.
    destruct (bool_decide _); injection Hbody as <-;
      (apply Forall_app; split; [done|]); apply Forall_fmap, Forall_true;
      intros ?; simpl; auto. }
  cbn [mbind result_bind]. destruct xvalue as [x|]; [|done].
  destruct (negb _); intros [= <-]; [|done].
  apply Forall_app. split; [done|]. apply Forall_fmap, Forall_true.
  intros ?. by left.
Qed.

Lemma np_array_rectangular grid g :
  np_array grid = Ok g → rectangular g ∧ rows g = grid.
Proof.
  unfold np_array. destruct grid as [|row grid].
  { intros [= <-]. split; [constructor|done]. }
  destruct (forallb _ _) eqn:E; [|done]. intros [= <-]. split; [|done].
  unfold rectangular. cbn [rows ncols].
  apply Is_true_true, forallb_True in E. eapply Forall_impl; [exact E|].
  intros r Hr. by apply Is_true_true, Nat.eqb_eq in Hr.
Qed.

End decoded_grids.

(** X21. Whatever the file holds, a grid that [parseRLE] returns is
    well-formed: its rows have one length and its cells are 0 or 1. *)
Theorem parseRLE_returns_well_formed (file : list ascii) (g : ndarray) :
  parseRLE file = Ok g → well_formed g.
Proof.
  unfold parseRLE.
  destruct (parseRLE_lines _ [] None None) as [[[RLEstring xvalue] yvalue]|];
    [|done].
  cbn [mbind result_bind].
  destruct (for_fold _ _ []) as [grid|] eqn:E; [|done].
  cbn [mbind result_bind]. intros [Hrect Hrows]%np_array_rectangular.
  split; [done|]. unfold binary. rewrite Hrows.
  apply (for_fold_invariant (Forall (Forall (λ v, v = 0 ∨ v = 1)))) in E;
    [done|constructor|].
  intros chunk rows rows' _ Hbin Hbody.
  destruct (parseRLE_row xvalue chunk) as [gridLine|] eqn:Hrow; [|done].
  injection Hbody as <-. apply Forall_app. split; [done|].
  apply Forall_singleton. by eapply parseRLE_row_binary.
Qed.

Section written_file.

Lemma filter_char_absent (c : ascii) l :
  Forall (λ d, bool_decide (d = c) = false) l → filter (λ d, d = c) l = [].
Proof.
  induction 1 as [|d l Hd _ IH]; [done|].
  rewrite filter_cons_False; [done|]. intros ->.
  by rewrite bool_decide_eq_true_2 in Hd.
Qed.

Lemma join_lines_filter (c : ascii) ls :
  c ≠ "010"%char →
  filter (λ d, d = c) (join_lines ls) = filter (λ d, d = c) (concat ls).
Proof.
  intros Hc. induction ls as [|l ls IH]; [done|].
  destruct ls as [|l' ls]; [cbn [join_with concat]; by rewrite app_nil_r|].
  rewrite join_lines_cons by done.
  rewrite filter_app, filter_cons_False, IH by congruence.
  cbn [concat]. by rewrite !filter_app.
Qed.

Lemma token_text_dollars (g : ascii * Z) :
  filter (λ d, d = "$"%char) (token_text g)
  = if bool_decide (g.1 = "$"%char) then ["$"%char] else [].
Proof.
  assert (filter (λ d, d = "$"%char) [g.1]
          = if bool_decide (g.1 = "$"%char) then ["$"%char] else []) as Htag.
  { rewrite filter_cons. case_bool_decide as H1; case_decide as H2; try done.
    cbn. by rewrite H1. }
  unfold token_text. destruct (g.2 =? 1); [done|].
  rewrite filter_app, Htag, filter_char_absent; [done|].
  apply str_int_without. set_solver.
Qed.

Lemma tokens_dollars (G : list (ascii * Z)) :
  length (filter (λ d, d = "$"%char) (concat (token_text <$> G)))
  = length (filter (λ g : ascii * Z, g.1 = "$"%char) G).
Proof.
  induction G as [|g G IH]; [done|].
  cbn [fmap list_fmap concat]. rewrite filter_app, length_app, IH.
  rewrite token_text_dollars, filter_cons.
  case_bool_decide; case_decide; done.
Qed.

Lemma runs_dollars (runs : list (ascii * Z)) :
  Forall (λ g : ascii * Z, is_tag g.1 = true ∧ 1 ≤ g.2) runs →
  filter (λ g : ascii * Z, g.1 = "$"%char) runs = [].
Proof.
  induction 1 as [|g runs [Hg _] _ IH]; [done|].
  rewrite filter_cons_False; [done|]. intros E. by rewrite E in Hg.
Qed.

Lemma rows_dollars (rows : list (list (ascii * Z))) :
  Forall (Forall (λ g : ascii * Z, is_tag g.1 = true ∧ 1 ≤ g.2)) rows →
  length (filter (λ g : ascii * Z, g.1 = "$"%char)
            (concat ((λ runs, runs ++ [("$"%char, 1)]) <$> rows)))
  = length rows.
Proof.
  induction 1 as [|runs rows Hruns _ IH]; [done|].
  cbn [fmap list_fmap concat]. rewrite !filter_app, !length_app, IH.
  by rewrite runs_dollars.
Qed.

End written_file.

(** X20. Whenever [findBoundaries] returns two finite columns on a
    well-formed grid, the file [writeRLE] writes starts with the line
    [x = width, y = height] of the returned box, and what follows holds one
    [$] for every row of the box but the last. *)
Theorem writeRLE_header_and_rows (g : ndarray) (top bot a b : Z) :
  well_formed g →
  findBoundaries g = Ok (top, bot, Int a, Int b) →
  ∃ body,
    writeRLE g
    = Some (header_line (b - a + 1) (bot - top + 1) ++ "010"%char :: body, Ok ())
    ∧ Z.of_nat (length (filter (λ d, d = "$"%char) body)) = bot - top.
Proof.
  intros [Hrect Hbin] Hb.
  pose proof (findBoundaries_finite_box _ _ _ _ _ Hb) as (Htop & Hbot & Ha & Hb').
  set (rows := (λ row, groupby (row_string g a b row)) <$> range2 top bot).
  set (final := groupby (row_string g a b bot)).
  assert (final ≠ []) as Hne.
  { apply groupby_nonempty. intros H. apply (f_equal length) in H.
    rewrite row_string_length in H. simpl in H. lia. }
  unfold writeRLE. rewrite Hb.
  rewrite encodeGrid_box by (done || lia).
  rewrite row_groups_body by lia. fold rows final.
  assert (body_groups rows final ≠ []) as HG.
  { unfold body_groups. intros H. apply app_eq_nil in H as [_ H].
    by apply app_eq_nil in H as [_ H]. }
  rewrite (writeRLE_loop_wrap (body_groups rows final) [] [] _
             (S (length (body_groups rows final))) HG ltac:(lia)).
  rewrite (wrap_fill _ []).
  cbn [num_sub num_neg num_add str].
  eexists. split.
  { unfold header_line. replace (b + - a + 1) with (b - a + 1) by lia.
    rewrite <- !app_assoc. reflexivity. }
  rewrite join_lines_filter by done.
  rewrite concat_concat, fill_concat, app_nil_l, tokens_dollars.
  rewrite emitted_body_groups by done.
  rewrite !filter_app, !length_app, rows_dollars; cycle 1.
  { unfold rows. apply Forall_fmap, Forall_forall. intros row _. simpl.
    apply groupby_tags, row_string_tags. }
  rewrite runs_dollars
    by (apply without_dead_end_tags, groupby_tags, row_string_tags).
  unfold rows. rewrite length_fmap, length_range2. simpl. lia.
Qed.

(** * File names *)

Section file_names.

Variable exists_ : list ascii → bool.
Variables basename ext : list ascii.

Lemma unique_file_loop_first (m : nat) :
  ∀ (i fuel : nat),
    (∀ j, (i ≤ j < i + m)%nat → exists_ (candidate basename ext j) = true) →
    exists_ (candidate basename ext (i + m)) = false →
    (m < fuel)%nat →
    unique_file_loop exists_ fuel basename ext (Z.of_nat i)
      (candidate basename ext i)
    = Some (candidate basename ext (i + m)).
Proof.
  induction m as [|m IH]; intros i fuel Hbusy Hfree Hfuel;
    (destruct fuel as [|fuel]; [lia|]); cbn [unique_file_loop].
  - rewrite Nat.add_0_r in *. by rewrite Hfree.
  - rewrite Hbusy by lia.
    replace (Z.of_nat i + 1) with (Z.of_nat (S i)) by lia.
    change (basename ++ "_"%char :: str_int (Z.of_nat i) ++ "."%char :: ext)
      with (candidate basename ext (S i)).
    replace (i + S m)%nat with (S i + m)%nat in * by lia.
    apply IH; [|done|lia]. intros j Hj. apply Hbusy. lia.
Qed.

Lemma candidate_inj i j :
  candidate basename ext i = candidate basename ext j → i = j.
Proof.
  destruct i as [|i], j as [|j]; cbn [candidate]; intros H; [done|..].
  - by apply app_inv_head in H.
  - by apply app_inv_head in H.
  - apply app_inv_head in H. injection H as H.
    assert (int (str_int (Z.of_nat i)) = int (str_int (Z.of_nat j))) as Hint.
    { f_equal. apply (f_equal (take (length (str_int (Z.of_nat i))))) in H as H1.
      apply (f_equal length) in H as H2.
      rewrite !length_app in H2. cbn [length] in H2.
      rewrite take_app_length in H1. rewrite H1.
      replace (length (str_int (Z.of_nat i)))
        with (length (str_int (Z.of_nat j))) by lia.
      by rewrite take_app_length. }
    rewrite !int_str_int in Hint. injection Hint as Hint. lia.
Qed.

Lemma first_false (f : nat → bool) (n : nat) :
  (∀ j, (j < n)%nat → f j = true)
  ∨ ∃ m, (m < n)%nat ∧ f m = false ∧ ∀ j, (j < m)%nat → f j = true.
Proof.
  induction n as [|n [IH|IH]].
  - left. intros; lia.
  - destruct (f n) eqn:E.
    + left. intros j Hj. destruct (decide (j = n)) as [->|]; [done|].
      apply IH. lia.
    + right. exists n. split; [lia|]. by split.
  - right. destruct IH as (m & ? & ? & ?). exists m. split; [lia|]. by split.
Qed.

End file_names.

(** X17. [unique_file] tries the plain name and then the numbered names in
    order, counting from 0, and returns the first that does not exist. *)
Theorem unique_file_first_free (exists_ : list ascii → bool)
    (basename ext : list ascii) (i fuel : nat) :
  (∀ j, (j < i)%nat → exists_ (candidate basename ext j) = true) →
  exists_ (candidate basename ext i) = false →
  (i < fuel)%nat →
  unique_file exists_ fuel basename ext = Some (candidate basename ext i).
Proof.
  intros Hbusy Hfree Hfuel.
  apply (unique_file_loop_first exists_ basename ext i 0 fuel); [|done..].
  intros j Hj. apply Hbusy. lia.
Qed.

(** X18. Whatever files exist, [unique_file] ends after at most one turn
    more than there are files, and the name it returns is none of
    theirs. *)
Theorem unique_file_is_new (files : list (list ascii))
    (basename ext : list ascii) :
  ∃ name,
    unique_file (λ path, bool_decide (path ∈ files)) (S (length files))
      basename ext = Some name
    ∧ name ∉ files.
Proof.
  destruct (first_false
              (λ i, bool_decide (candidate basename ext i ∈ files))
              (S (length files))) as [Hall|(m & Hm & Hfree & Hbusy)].
  - exfalso.
    assert (candidate basename ext <$> seq 0 (S (length files)) ⊆+ files) as Hsub.
    { apply NoDup_submseteq.
      - apply NoDup_fmap_2; [|apply NoDup_seq].
        intros i j. apply candidate_inj.
      - intros name (i & -> & Hi%elem_of_seq)%list_elem_of_fmap.
        eapply bool_decide_unpack, Is_true_true, Hall. lia. }
    apply submseteq_length in Hsub. rewrite length_fmap, length_seq in Hsub. lia.
  - exists (candidate basename ext m). split.
    + apply (unique_file_loop_first _ basename ext m 0 (S (length files)));
        [|done|lia].
      intros j Hj. apply Hbusy. lia.
    + by apply bool_decide_eq_false in Hfree.
Qed.


(** * The theorems at sample inputs *)


Lemma updateGrid_follows_B3S23_blinker :
  blinker_store !! 1%positive = Some blinker ∧ well_formed blinker
  ∧ ∃ l (σ' : store) g',
      updateGrid 1%positive blinker_store = Ok (l, σ')
      ∧ σ' !! l = Some g' ∧ shape0 g' = 3 ∧ shape1 g' = 3.
Proof.
  assert (blinker_store !! 1%positive = Some blinker) as Hl
      by (vm_compute; reflexivity).
  assert (well_formed blinker) as Hwf by by_computation.
  split; [done|]. split; [done|].
  destruct (updateGrid_follows_B3S23 blinker_store 1%positive blinker Hl Hwf)
    as (l & σ' & g' & Hrun & Hg' & H0 & H1 & _).
  exists l, σ', g'. auto.
Defined.

Lemma updateGrid_overwrites_argument_blinker :
  blinker_store !! 1%positive = Some blinker ∧ well_formed blinker
  ∧ ∃ l (σ' : store),
      updateGrid 1%positive blinker_store = Ok (l, σ')
      ∧ l = 1%positive
      ∧ σ' !! 1%positive = Some (generation blinker)
      ∧ σ' !! 1%positive ≠ Some blinker.
Proof.
  assert (blinker_store !! 1%positive = Some blinker) as Hl
      by (vm_compute; reflexivity).
  assert (well_formed blinker) as Hwf by by_computation.
  split; [done|]. split; [done|].
  destruct (updateGrid_overwrites_argument blinker_store 1%positive blinker
              Hl Hwf) as (l & σ' & Hrun & Hret & Hg' & Hgone & _).
  exists l, σ'. split_and!; [done|done|done|].
  apply Hgone. by vm_compute.
Defined.

Lemma addSpace_centres_content_corner :
  rectangular corner ∧ 0 ≤ 2
  ∧ ∃ g', addSpace corner 2 = Ok g'
          ∧ shape0 g' = 6 ∧ shape1 g' = 6 ∧ cell g' 2 2 = 1.
Proof.
  split; [by_computation|]. split; [lia|].
  destruct (addSpace_centres_content corner 2 ltac:(by_computation) ltac:(lia))
    as (g' & Hrun & _ & H0 & H1 & Hin & _).
  exists g'. split_and!; [done|done|done|]. exact (Hin 0 0 eq_refl).
Defined.

Lemma writeRLE_wraps_at_70_wide :
  shape0 wide < 2 ^ 63 ∧ shape1 wide < 2 ^ 63
  ∧ ∃ text,
      writeRLE wide = Some (text, Ok ())
      ∧ Forall (λ line : list ascii, (length line ≤ 70)%nat)
          (split "010"%char text).
Proof.
  split; [reflexivity|]. split; [reflexivity|].
  destruct (writeRLE_wraps_at_70 wide eq_refl eq_refl)
    as (text & out & Hrun & Hfit & _).
  assert (out = Ok ()) as ->.
  { pose proof Hrun as H. vm_compute in H. by injection H. }
  exists text. by split.
Defined.



Lemma findBoundaries_finds_rows_and_smallest_column_falling :
  well_formed falling ∧ (∃ r, live_row falling r)
  ∧ ∃ top bot m maxCol,
      findBoundaries falling = Ok (top, bot, Int m, maxCol)
      ∧ live_row falling top ∧ live_row falling bot
      ∧ ∃ r, live_at falling r m.
Proof.
  assert (well_formed falling) as Hwf by by_computation.
  assert (∃ r, live_row falling r) as Hlive by (by exists 0, 1).
  split; [done|]. split; [done|].
  destruct (findBoundaries_finds_rows_and_smallest_column falling Hwf Hlive)
    as (top & bot & m & maxCol & Hrun & Htop & _ & Hbot & _ & Hm & _).
  by exists top, bot, m, maxCol.
Defined.

Lemma findBoundaries_without_live_cell_three_rows :
  well_formed (dead_grid 3 2) ∧ (∀ r, ¬ live_row (dead_grid 3 2) r)
  ∧ findBoundaries (dead_grid 3 2) = Ok (2, 0, Inf, NegInf).
Proof.
  split; [by_computation|]. split; [apply dead_grid_dead|].
  apply (findBoundaries_without_live_cell (dead_grid 3 2));
    [by_computation|apply dead_grid_dead].
Defined.

Lemma writeRLE_without_live_cell_three_rows :
  well_formed (dead_grid 3 2) ∧ (∀ r, ¬ live_row (dead_grid 3 2) r)
  ∧ writeRLE (dead_grid 3 2)
    = Some (txt "x = -inf, y = -1" ++ ["010"%char], Raise IndexError).
Proof.
  split; [by_computation|]. split; [apply dead_grid_dead|].
  apply (writeRLE_without_live_cell (dead_grid 3 2));
    [by_computation|apply dead_grid_dead].
Defined.

Lemma findBoundaries_bounding_box_corner :
  well_formed corner ∧ live_at corner 0 1
  ∧ (∀ r' c', live_at corner r' c' → c' ≤ 1)
  ∧ (∃ r' c', live_at corner r' c' ∧ before r' c' 0 1)
  ∧ ∃ top bot a, findBoundaries corner = Ok (top, bot, Int a, Int 1).
Proof.
  assert (well_formed corner) as Hwf by by_computation.
  assert (live_at corner 0 1) as Hlive by done.
  assert (∀ r' c', live_at corner r' c' → c' ≤ 1) as Hmax.
  { intros r' c' [Hin _]. apply in_bounds_iff in Hin.
    change (shape1 corner) with 2 in Hin. lia. }
  assert (∃ r' c', live_at corner r' c' ∧ before r' c' 0 1) as Hfirst.
  { exists 0, 0. split; [done|]. right. lia. }
  split; [done|]. split; [done|]. split; [done|]. split; [done|].
  destruct (findBoundaries_bounding_box corner 0 1 Hwf Hlive Hmax Hfirst)
    as (top & bot & a & Hrun & _).
  by exists top, bot, a.
Defined.

Lemma writeRLE_then_parseRLE_corner :
  well_formed corner ∧ shape1 corner < 2 ^ 63
  ∧ findBoundaries corner = Ok (0, 1, Int 0, Int 1)
  ∧ ∃ text, writeRLE corner = Some (text, Ok ())
            ∧ parseRLE text = Ok corner.
Proof.
  split; [by_computation|]. split; [reflexivity|]. split; [reflexivity|].
  apply (writeRLE_then_parseRLE corner 0 1 0 1);
    [by_computation|reflexivity|reflexivity].
Defined.

Lemma encodeGrid_run_lengths_corner :
  well_formed corner ∧ 1 < shape0 corner ∧ 1 < shape1 corner
  ∧ ∃ runs : Z → list (ascii * Z),
      encodeGrid corner 0 1 (Int 0) (Int 1)
      = Ok (concat ((λ row, runs row
                            ++ [(if row =? 1 then "!"%char else "$"%char, 1)])
                      <$> range2 0 (1 + 1)))
      ∧ expand (runs 1) = [1; 0].
Proof.
  split; [by_computation|]. split; [reflexivity|]. split; [reflexivity|].
  destruct (encodeGrid_run_lengths corner 0 1 0 1)
    as (runs & Hrun & Hrows); [by_computation|lia|reflexivity|lia|reflexivity|].
  exists runs. split; [done|]. by destruct (Hrows 1) as (_ & _ & ->).
Defined.

Lemma addSpace_twice_corner :
  0 ≤ 1 ∧ 0 ≤ 2
  ∧ (g' ← addSpace corner 1; addSpace g' 2) = addSpace corner 3.
Proof.
  split; [lia|]. split; [lia|].
  apply (addSpace_twice corner 1 2); lia.
Defined.

Lemma updateGrid_after_addSpace_blinker :
  well_formed blinker ∧ 0 ≤ 1 ∧ addSpace blinker 1 = Ok (ringed blinker)
  ∧ blinker_store !! 1%positive = Some blinker
  ∧ ringed_blinker_store !! 1%positive = Some (ringed blinker)
  ∧ ∃ (σ' τ' : store) (h h' : ndarray),
      updateGrid 1%positive blinker_store = Ok (1%positive, σ')
      ∧ σ' !! 1%positive = Some h
      ∧ updateGrid 1%positive ringed_blinker_store = Ok (1%positive, τ')
      ∧ τ' !! 1%positive = Some h'
      ∧ cell h' 1 2 = cell h 0 1.
Proof.
  assert (well_formed blinker) as Hwf by by_computation.
  assert (addSpace blinker 1 = Ok (ringed blinker)) as Hpad
      by (vm_compute; reflexivity).
  assert (blinker_store !! 1%positive = Some blinker) as Hg
      by (vm_compute; reflexivity).
  assert (ringed_blinker_store !! 1%positive = Some (ringed blinker)) as Hg'
      by (vm_compute; reflexivity).
  split; [done|]. split; [lia|]. split; [done|]. split; [done|]. split; [done|].
  destruct (updateGrid_after_addSpace blinker_store ringed_blinker_store
              1%positive 1%positive blinker (ringed blinker) 1
              Hwf ltac:(lia) Hpad Hg Hg')
    as (σ' & τ' & h & h' & H1 & H2 & H3 & H4 & Hsame).
  exists σ', τ', h, h'. repeat (split; [assumption|]).
  exact (Hsame 0 1 eq_refl).
Defined.

Lemma updateGrid_small_pattern_dies_pair :
  pair_store !! 1%positive = Some pair ∧ well_formed pair ∧ population pair ≤ 2
  ∧ ∃ (σ' : store) (g' : ndarray),
      updateGrid 1%positive pair_store = Ok (1%positive, σ')
      ∧ σ' !! 1%positive = Some g' ∧ cell g' 1 1 = 0 ∧ cell g' 1 2 = 0.
Proof.
  assert (pair_store !! 1%positive = Some pair) as Hg
      by (vm_compute; reflexivity).
  assert (well_formed pair) as Hwf by by_computation.
  assert (population pair ≤ 2) as Hpop by (by vm_compute).
  split; [done|]. split; [done|]. split; [done|].
  destruct (updateGrid_small_pattern_dies pair_store 1%positive pair Hg Hwf Hpop)
    as (σ' & g' & Hrun & Hg' & _ & _ & Hdead).
  exists σ', g'. split_and!; try done; apply Hdead.
Defined.

Lemma createAnimation_shows_generations_blinker :
  blinker_store !! 1%positive = Some blinker ∧ well_formed blinker
  ∧ ∃ (start : ndarray) (σ' : store),
      createAnimation_grid blinker 5 = Ok start
      ∧ createAnimation_frames 1%positive 5 2 blinker_store
        = Ok ([start; generation start; generation (generation start)], σ')
      ∧ σ' !! 1%positive = Some blinker.
Proof.
  assert (blinker_store !! 1%positive = Some blinker) as Hg
      by (vm_compute; reflexivity).
  assert (well_formed blinker) as Hwf by by_computation.
  split; [done|]. split; [done|].
  destruct (createAnimation_shows_generations blinker_store 1%positive blinker
              5 2 Hg Hwf) as (start & σ' & Hstart & Hrun & Hframe).
  exists start, σ'. split_and!; [done|done|].
  exact (eq_trans (Hframe 1%positive (ex_intro _ blinker Hg)) Hg).
Defined.

Lemma parseRLE_skips_comment_lines_first_line :
  no_newline (txt "#C a row of three") ∧
  parseRLE (txt "#C a row of three" ++ "010"%char :: txt "x = 3, y = 1"
            ++ "010"%char :: txt "3o!")
  = parseRLE (txt "x = 3, y = 1" ++ "010"%char :: txt "3o!").
Proof.
  assert (no_newline (txt "#C a row of three")) as Hnl
      by (unfold no_newline; by_computation).
  split; [done|].
  apply (parseRLE_skips_comment_lines [] (txt "#C a row of three"));
    [by left|done|reflexivity].
Defined.






Lemma unique_file_first_free_third_name :
  unique_file (λ path, bool_decide (path ∈ [txt "a.rle"; txt "a_0.rle"]))
    3 (txt "a") (txt "rle")
  = Some (txt "a_1.rle").
Proof.
  apply (unique_file_first_free
           (λ path, bool_decide (path ∈ [txt "a.rle"; txt "a_0.rle"]))
           (txt "a") (txt "rle") 2 3).
  - intros [|[|j]] Hj; [reflexivity|reflexivity|lia].
  - reflexivity.
  - lia.
Defined.

Lemma parseRLE_header_without_comma_width_only :
  no_newline (txt "x = 3") ∧ (","%char ∉ txt "x = 3")
  ∧ (parseRLE (txt "x = 3" ++ "010"%char :: txt "3o!") = Raise IndexError
     ∨ parseRLE (txt "x = 3" ++ "010"%char :: txt "3o!") = Raise ValueError).
Proof.
  assert (no_newline (txt "x = 3")) as Hnl by (unfold no_newline; by_computation).
  assert (","%char ∉ txt "x = 3") as Hcomma by by_computation.
  split; [done|]. split; [done|].
  apply (parseRLE_header_without_comma (txt "x = 3") (txt "3o!"));
    [done|reflexivity|done].
Defined.

Lemma writeRLE_header_and_rows_corner :
  well_formed corner ∧ findBoundaries corner = Ok (0, 1, Int 0, Int 1)
  ∧ ∃ body,
      writeRLE corner = Some (txt "x = 2, y = 2" ++ "010"%char :: body, Ok ())
      ∧ length (filter (λ d, d = "$"%char) body) = 1%nat.
Proof.
  split; [by_computation|]. split; [reflexivity|].
  destruct (writeRLE_header_and_rows corner 0 1 0 1)
    as (body & Hrun & Hrows); [by_computation|reflexivity|].
  exists body. split; [|lia].
  assert (header_line (1 - 0 + 1) (1 - 0 + 1) = txt "x = 2, y = 2") as E
      by (vm_compute; reflexivity).
  by rewrite E in Hrun.
Defined.

Lemma parseRLE_returns_well_formed_row :
  parseRLE (txt "x = 3, y = 1" ++ "010"%char :: txt "2ob!")
  = Ok (Array 3 [[1; 1; 0]])
  ∧ well_formed (Array 3 [[1; 1; 0]]).
Proof.
  assert (parseRLE (txt "x = 3, y = 1" ++ "010"%char :: txt "2ob!")
          = Ok (Array 3 [[1; 1; 0]])) as Hrun by (vm_compute; reflexivity).
  split; [done|]. exact (parseRLE_returns_well_formed _ _ Hrun).
Defined.
